(** * Caption extraction pipeline of the YouTube video summarizer

    A shallow embedding of [supabase/functions/server/caption-extractor.tsx]
    and of [extractVideoId] from the server's [index.tsx], with the
    properties of the specification that concern them; and of the texts
    the endpoints [get-transcript] and [summarize] of [index.tsx] compute,
    with properties of the code itself.

    Strings are JavaScript strings: finite sequences of UTF-16 code units,
    and [length] counts code units as [String.prototype.length] does. *)

From Stdlib Require Import List NArith ZArith Arith Lia Bool Ascii String.
From Stdlib Require PrimFloat Uint63 FloatAxioms SpecFloat FloatOps QArith_base.
Import ListNotations.

Set Implicit Arguments.

(* ================================================================== *)
(** * JavaScript strings *)
(* ================================================================== *)

Abbreviation code_unit := N (only parsing).
Abbreviation jsstring := (list N) (only parsing).

(** A string literal of the source (all of them are ASCII). *)
Definition lit (s : string) : jsstring :=
  List.map N_of_ascii (list_ascii_of_string s).

Definition dquote : code_unit := 34%N.
Definition squote : code_unit := 39%N.
Definition space : code_unit := 32%N.
Definition newline : code_unit := 10%N.

Fixpoint str_eqb (a b : jsstring) : bool :=
  match a, b with
  | [], [] => true
  | x :: a', y :: b' => N.eqb x y && str_eqb a' b'
  | _, _ => false
  end.

(** [strip_prefix p s] is the rest of [s] after its prefix [p], when [s]
    starts with [p] ([String.prototype.startsWith], and a literal at the
    current position of a regular expression). *)
Fixpoint strip_prefix (p s : jsstring) : option jsstring :=
  match p, s with
  | [], _ => Some s
  | a :: p', b :: s' => if N.eqb a b then strip_prefix p' s' else None
  | _ :: _, [] => None
  end.

Definition startsWith (s p : jsstring) : bool :=
  match strip_prefix p s with Some _ => true | None => false end.

(** [String.prototype.includes]. *)
Fixpoint includes (s w : jsstring) : bool :=
  match strip_prefix w s with
  | Some _ => true
  | None => match s with [] => false | _ :: s' => includes s' w end
  end.

(** The first occurrence of [w] in [s]: what is before it and what is
    after it. *)
Fixpoint find_sub (w s : jsstring) : option (jsstring * jsstring) :=
  match strip_prefix w s with
  | Some rest => Some ([], rest)
  | None =>
      match s with
      | [] => None
      | c :: s' =>
          match find_sub w s' with
          | Some (before, after) => Some (c :: before, after)
          | None => None
          end
      end
  end.

(** [span p s]: the longest prefix of [s] whose code units satisfy [p],
    and the rest (a greedy character class). *)
Fixpoint span (p : code_unit -> bool) (s : jsstring) : jsstring * jsstring :=
  match s with
  | [] => ([], [])
  | c :: s' =>
      if p c then let (a, b) := span p s' in (c :: a, b) else ([], s)
  end.

(** ** Character classes *)

Definition in_range (lo hi c : N) : bool := (N.leb lo c && N.leb c hi)%bool.

(** ECMAScript LineTerminator: LF, CR, LS, PS. *)
Definition isLineTerminator (c : code_unit) : bool :=
  N.eqb c 10 || N.eqb c 13 || N.eqb c 8232 || N.eqb c 8233.

(** ECMAScript [\s] and the set [trim] strips: WhiteSpace and
    LineTerminator. *)
Definition isSpace (c : code_unit) : bool :=
  in_range 9 13 c || N.eqb c 32 || N.eqb c 160 || N.eqb c 5760
  || in_range 8192 8202 c || N.eqb c 8232 || N.eqb c 8233
  || N.eqb c 8239 || N.eqb c 8287 || N.eqb c 12288 || N.eqb c 65279.

(** ECMAScript [\w] (no unicode or ignoreCase flag): [A-Za-z0-9_]. *)
Definition isWord (c : code_unit) : bool :=
  in_range 65 90 c || in_range 97 122 c || in_range 48 57 c || N.eqb c 95.

Definition notGt (c : code_unit) : bool := negb (N.eqb c 62).

(** ** Global regular-expression scans

    A global scan ([matchAll], [replace] with the g flag, [match] with
    the g flag, [split]) tries the expression at each position from
    left to right; after a match it resumes at the end of the match
    (lastIndex). [matchAt prev s] tries the expression at the position
    whose remaining input is [s] and whose preceding code unit is [prev],
    and gives what the match yields and the length of the match; every
    expression of this program matches at least one code unit.
    [skip] counts the code units still to pass before lastIndex. *)

Inductive piece (A : Type) : Type :=
| Lit (c : code_unit)
| Hit (a : A).
Arguments Lit {A} c.
Arguments Hit {A} a.

Section Scan.
Variable A : Type.
Variable matchAt : option code_unit -> jsstring -> option (A * nat).

Fixpoint scan (skip : nat) (prev : option code_unit) (s : jsstring)
  : list (piece A) :=
  match s with
  | [] => []
  | c :: rest =>
      match skip with
      | S k => scan k (Some c) rest
      | O =>
          match matchAt prev s with
          | Some (a, len) => Hit a :: scan (pred len) (Some c) rest
          | None => Lit c :: scan 0 (Some c) rest
          end
      end
  end.

(** [Array.from(s.matchAll(re))], each match as what [matchAt] yields. *)
Definition matchAll (s : jsstring) : list A :=
  flat_map (fun p => match p with Lit _ => [] | Hit a => [a] end)
           (scan 0 None s).

(** [s.replace(re, ...)] with the g flag. *)
Definition replaceAll (subst : A -> jsstring) (s : jsstring) : jsstring :=
  flat_map (fun p => match p with Lit c => [c] | Hit a => subst a end)
           (scan 0 None s).

(** [s.split(re)] for an expression that matches no empty string: the
    stretches between the matches, so one more than there are matches;
    the empty string gives one empty stretch. *)
Fixpoint pieces_between (cur : jsstring) (ps : list (piece A))
  : list jsstring :=
  match ps with
  | [] => [rev cur]
  | Lit c :: ps' => pieces_between (c :: cur) ps'
  | Hit _ :: ps' => rev cur :: pieces_between [] ps'
  end.

Definition split (s : jsstring) : list jsstring :=
  pieces_between [] (scan 0 None s).
End Scan.

(** A literal pattern such as [/&amp;/]. *)
Definition re_literal (w : jsstring) (_ : option code_unit) (s : jsstring)
  : option (unit * nat) :=
  match strip_prefix w s with
  | Some _ => Some (tt, List.length w)
  | None => None
  end.

Definition replace_literal (w by_ : jsstring) (s : jsstring) : jsstring :=
  replaceAll (re_literal w) (fun _ => by_) s.

(** [/\s+/]: a maximal run of white space. *)
Definition re_spaces (_ : option code_unit) (s : jsstring)
  : option (unit * nat) :=
  match span isSpace s with
  | ([], _) => None
  | (run, _) => Some (tt, List.length run)
  end.

(** [.replace(/\s+/g, ' ')]. *)
Definition collapse_spaces (s : jsstring) : jsstring :=
  replaceAll re_spaces (fun _ => [space]) s.

(** [.split(/\s+/)]. *)
Definition split_spaces (s : jsstring) : list jsstring :=
  split re_spaces s.

(** [.replace(/\n/g, ' ')]. *)
Definition newlines_to_spaces (s : jsstring) : jsstring :=
  replace_literal [newline] [space] s.

(** [s.length > 0], and the truth value of a string. *)
Definition nonempty (s : jsstring) : bool :=
  match s with [] => false | _ => true end.

(** After a [<]: the class [[^>]+] takes the longest run of code units
    other than [>], at least one, and [>] must follow; the result is
    the run and what follows the tag. *)
Definition tag_rest (r : jsstring) : option (jsstring * jsstring) :=
  match span notGt r with
  | (run, c :: rest) =>
      if nonempty run && N.eqb c 62 then Some (run, rest) else None
  | (_, []) => None
  end.

(** [/<[^>]+>/]: a tag. *)
Definition re_tag (_ : option code_unit) (s : jsstring)
  : option (unit * nat) :=
  match s with
  | c :: r =>
      if N.eqb c 60 then
        match tag_rest r with
        | Some (run, _) => Some (tt, S (S (List.length run)))
        | None => None
        end
      else None
  | [] => None
  end.

(** [.replace(/<[^>]+>/g, '')]. *)
Definition strip_tags (s : jsstring) : jsstring :=
  replaceAll re_tag (fun _ => []) s.

(** [String.prototype.trim]. *)
Fixpoint trimStart (s : jsstring) : jsstring :=
  match s with
  | c :: s' => if isSpace c then trimStart s' else s
  | [] => []
  end.

Definition trim (s : jsstring) : jsstring :=
  rev (trimStart (rev (trimStart s))).

(** [Array.prototype.join] on strings. *)
Fixpoint join (sep : jsstring) (l : list jsstring) : jsstring :=
  match l with
  | [] => []
  | [x] => x
  | x :: l' => x ++ sep ++ join sep l'
  end.

(** [/<text[^>]*>(.*?)<\/text>/s] at one position: the literal [<text],
    the greedy class up to the first [>], then the shortest stretch
    (line terminators included) that [</text>] follows, which is the
    group. *)
Definition re_text_cue (_ : option code_unit) (s : jsstring)
  : option (jsstring * nat) :=
  match strip_prefix (lit "<text") s with
  | Some r1 =>
      match span notGt r1 with
      | (attrs, 62%N :: r2) =>
          match find_sub (lit "</text>") r2 with
          | Some (inner, _) =>
              Some (inner, 5 + List.length attrs + 1 + List.length inner + 7)
          | None => None
          end
      | _ => None
      end
  | None => None
  end.

(** [Array.from(xml.matchAll(/<text[^>]*>(.*?)<\/text>/gs))], each match
    as its group [match[1]]. *)
Definition textMatches (xml : jsstring) : list jsstring :=
  matchAll re_text_cue xml.

(* ================================================================== *)
(** * Identifier parser ([extractVideoId], server [index.tsx]) *)
(* ================================================================== *)

(** The three URL shapes of the first pattern, in the order of its
    alternatives:
    [(?:youtube\.com\/watch\?v=|youtu\.be\/|youtube\.com\/embed\/)]. *)
Definition url_shapes : list jsstring :=
  [ lit "youtube.com/watch?v="; lit "youtu.be/"; lit "youtube.com/embed/" ].

(** The class [[^&\n?#]]. *)
Definition isIdChar (c : code_unit) : bool :=
  negb (N.eqb c 38 || N.eqb c 10 || N.eqb c 63 || N.eqb c 35).

(** The class [[a-zA-Z0-9_-]]. *)
Definition isTokenChar (c : code_unit) : bool :=
  in_range 97 122 c || in_range 65 90 c || in_range 48 57 c
  || N.eqb c 95 || N.eqb c 45.

(** The first pattern at one position: the alternatives are tried in
    order, each followed by the greedy group [([^&\n?#]+)], which must
    take at least one code unit. The result is the group. *)
Fixpoint url_alternatives (alts : list jsstring) (s : jsstring)
  : option jsstring :=
  match alts with
  | [] => None
  | a :: alts' =>
      match strip_prefix a s with
      | Some r =>
          match fst (span isIdChar r) with
          | [] => url_alternatives alts' s
          | id => Some id
          end
      | None => url_alternatives alts' s
      end
  end.

(** [url.match(pattern)] for the first pattern (no g flag): the leftmost
    position where it matches. *)
Fixpoint match_url (s : jsstring) : option jsstring :=
  match url_alternatives url_shapes s with
  | Some id => Some id
  | None => match s with [] => None | _ :: s' => match_url s' end
  end.

(** [url.match(/^([a-zA-Z0-9_-]{11})$/)]. *)
Definition match_bare (s : jsstring) : option jsstring :=
  if (List.length s =? 11) && forallb isTokenChar s then Some s else None.

(** [extractVideoId]: the patterns in order, the group of the first
    that matches, else [null] (here [None]). *)
Definition extractVideoId (url : jsstring) : option jsstring :=
  match match_url url with
  | Some id => Some id
  | None =>
      match match_bare url with
      | Some id => Some id
      | None => None
      end
  end.

(* ================================================================== *)
(** * Transcript quality analyzer *)
(* ================================================================== *)

Inductive Confidence := HIGH | MEDIUM.

Record QualityAssessment := {
  likelySpoken : bool;
  confidence : Confidence;
  reason : jsstring
}.

Definition conversationalWords : list jsstring :=
  [ lit "I "; lit "you "; lit "we "; lit "hello"; lit "hi "; lit "hey ";
    lit "thanks"; lit "okay"; lit "right"; lit "so "; lit "um "; lit "uh " ].

Definition pronouns : list jsstring :=
  [ lit "i"; lit "we"; lit "my"; lit "our"; lit "me"; lit "us" ].

(** The assertion [\b] between the code unit before a position and the
    one after it (either may be missing, at an end of the input). *)
Definition isWordAt (c : option code_unit) : bool :=
  match c with Some x => isWord x | None => false end.

Definition wordBoundary (before after : option code_unit) : bool :=
  xorb (isWordAt before) (isWordAt after).

(** One alternative of [(i|we|my|our|me|us)] followed by [\b]. *)
Fixpoint pronoun_alternatives (alts : list jsstring) (s : jsstring)
  : option (unit * nat) :=
  match alts with
  | [] => None
  | a :: alts' =>
      match strip_prefix a s with
      | Some r =>
          if wordBoundary (last (List.map Some a) None) (hd_error r)
          then Some (tt, List.length a)
          else pronoun_alternatives alts' s
      | None => pronoun_alternatives alts' s
      end
  end.

(** [/\b(i|we|my|our|me|us)\b/] at one position. *)
Definition re_pronoun (prev : option code_unit) (s : jsstring)
  : option (unit * nat) :=
  if wordBoundary prev (hd_error s) then pronoun_alternatives pronouns s
  else None.

(** [Number] of a length, and [a / b > 0.02] in IEEE binary64 as the
    program computes it. *)
Definition number_of_nat (n : nat) : PrimFloat.float :=
  PrimFloat.of_uint63 (Uint63.of_Z (Z.of_nat n)).

Module Float64.
Import PrimFloat.
#[warnings="-inexact-float"]
Definition two_percent : float := 0.02%float.
End Float64.

Definition ratio_exceeds_2_percent (a b : nat) : bool :=
  PrimFloat.ltb Float64.two_percent
                (PrimFloat.div (number_of_nat a) (number_of_nat b)).

Section Analyzer.
(** [String.prototype.toLowerCase], whose Unicode tables are the
    platform's. *)
Variable toLowerCase : jsstring -> jsstring.

Definition hasConversational (text : jsstring) : bool :=
  existsb (fun word => includes (toLowerCase text) word) conversationalWords.

(** [text.toLowerCase().match(/\b(i|we|my|our|me|us)\b/g)?.length || 0] *)
Definition firstPersonPronouns (text : jsstring) : nat :=
  List.length (matchAll re_pronoun (toLowerCase text)).

(** [text.split(/\s+/).length] *)
Definition totalWords (text : jsstring) : nat :=
  List.length (split_spaces text).

Definition firstPersonRatio_exceeds (text : jsstring) : bool :=
  ratio_exceeds_2_percent (firstPersonPronouns text) (totalWords text).

Definition analyzeTranscriptQuality (text : jsstring) : QualityAssessment :=
  if firstPersonRatio_exceeds text || hasConversational text then
    {| likelySpoken := true;
       confidence := HIGH;
       reason := lit "Contains conversational language and personal pronouns" |}
  else
    {| likelySpoken := true;
       confidence := MEDIUM;
       reason := lit "Appears to be caption text" |}.
End Analyzer.

(** [toLowerCase] on a string of ASCII code units (the code units from
    128 on are left as they are here). *)
Definition toLowerCase_ascii (s : jsstring) : jsstring :=
  List.map (fun c => if in_range 65 90 c then (c + 32)%N else c) s.

(* ================================================================== *)
(** * JavaScript values, errors and the platform *)
(* ================================================================== *)

(** What [JSON.parse] and [response.json()] produce, and [undefined]. *)
#[warnings="-register-all"]
Inductive JsVal : Type :=
| VUndefined
| VNull
| VBool (b : bool)
| VNum (x : PrimFloat.float)
| VStr (s : jsstring)
| VArr (items : list JsVal)
| VObj (fields : list (jsstring * JsVal)).

(** Every value thrown in this program is an [Error] object of the
    platform: a [TypeError] of the engine (a property of [null] or
    [undefined], a call of something that is no function), a
    [SyntaxError] of [JSON.parse], or the rejection of a network or
    library call, with its message. *)
Inductive Error : Type :=
| TypeError
| SyntaxError
| Rejected (message : jsstring).

Inductive Result (A : Type) : Type :=
| Ok (a : A)
| Throw (e : Error).
Arguments Ok {A} a.
Arguments Throw {A} e.

(** ToBoolean. *)
Definition truthy (v : JsVal) : bool :=
  match v with
  | VUndefined | VNull => false
  | VBool b => b
  | VNum x => PrimFloat.eqb x x && negb (PrimFloat.eqb x PrimFloat.zero)
  | VStr s => match s with [] => false | _ => true end
  | VArr _ | VObj _ => true
  end.

Definition nullish (v : JsVal) : bool :=
  match v with VUndefined | VNull => true | _ => false end.

(** [v === 'literal']. *)
Definition is_string (v : JsVal) (s : jsstring) : bool :=
  match v with VStr s' => str_eqb s' s | _ => false end.

(** [v === 0]. *)
Definition is_zero (v : JsVal) : bool :=
  match v with VNum x => PrimFloat.eqb x PrimFloat.zero | _ => false end.

Fixpoint lookup (k : jsstring) (fields : list (jsstring * JsVal)) : JsVal :=
  match fields with
  | [] => VUndefined
  | (k', v) :: fields' => if str_eqb k k' then v else lookup k fields'
  end.

(** [v.k] for the property names this program reads ([items], [snippet],
    [language], [trackKind], [name], [length], [events], [segs], [utf8],
    [languageCode], [baseUrl], [simpleText]): none is inherited from a
    prototype except [length] of arrays and strings. *)
Definition get (v : JsVal) (k : string) : Result JsVal :=
  match v with
  | VUndefined | VNull => Throw TypeError
  | VObj fields => Ok (lookup (lit k) fields)
  | VArr l =>
      Ok (if String.eqb k "length" then VNum (number_of_nat (List.length l))
          else VUndefined)
  | VStr s =>
      Ok (if String.eqb k "length" then VNum (number_of_nat (List.length s))
          else VUndefined)
  | VBool _ | VNum _ => Ok VUndefined
  end.

(** The receiver of an array method ([forEach], [find], [filter], [map]):
    values out of JSON hold no functions, so on anything but an array
    the call is a [TypeError]. *)
Definition asArray (v : JsVal) : Result (list JsVal) :=
  match v with
  | VArr l => Ok l
  | _ => Throw TypeError
  end.

(** [arr[0]]. *)
Definition first_item (l : list JsVal) : JsVal :=
  match l with
  | x :: _ => x
  | [] => VUndefined
  end.

Record Response := {
  ok : bool;
  status : nat;
  (** [await response.text()] *)
  body : Result jsstring
}.

(** A cue of the youtube-transcript package ([TranscriptResponse]). *)
Record TranscriptResponse := {
  text : jsstring;
  duration : PrimFloat.float;
  offset : PrimFloat.float
}.

(** The world outside the program. A call is answered according to the
    number of calls made before it ([clock]), so that any sequence of
    answers is a platform. *)
Record Platform := {
  (** [fetch(url, {headers: {'User-Agent': ua}})] *)
  fetch : nat -> jsstring -> option jsstring -> Result Response;
  (** [await import("npm:youtube-transcript@1.2.1")] *)
  import_youtube_transcript : nat -> Result unit;
  (** [YoutubeTranscript.fetchTranscript(videoId, {lang})]; [None] is a
      falsy answer. *)
  fetchTranscript :
    nat -> jsstring -> option jsstring ->
    Result (option (list TranscriptResponse));
  (** [JSON.parse]; [None] is its [SyntaxError]. *)
  JSON_parse : jsstring -> option JsVal;
  (** ToString of a number, an array or an object. *)
  ToString_other : JsVal -> jsstring
}.

(** ToString, as a template literal applies it, and as
    [Array.prototype.join] applies it to an item that is neither
    [undefined] nor [null]. *)
Definition ToString (P : Platform) (v : JsVal) : jsstring :=
  match v with
  | VStr s => s
  | VUndefined => lit "undefined"
  | VNull => lit "null"
  | VBool true => lit "true"
  | VBool false => lit "false"
  | _ => ToString_other P v
  end.

(* ================================================================== *)
(** * The monad of the extractor: state and exceptions *)
(* ================================================================== *)

Inductive Strategy :=
| DataAPI            (* extractWithYouTubeDataAPI, the primary strategy *)
| TranscriptPackage  (* extractWithYoutubeTranscript, strategy B *)
| TimedTextAPI       (* extractWithTimedTextAPI, strategy C *)
| LanguageFallback.  (* extractWithLanguageFallback, strategy D *)

(** A part of a console message: the literal text of the template (in
    ASCII, pictographs left out) or an interpolated value. *)
Inductive LogPart :=
| Txt (s : string)
| Str (s : jsstring)
| Val (v : JsVal)
| Num (n : nat)
| Message (e : Error)
| Quality (c : Confidence)
| Spoken (b : bool).

(** [clock]: the calls made to the platform so far. [invocations]: the
    strategies entered so far, the latest first (an invocation counter
    per strategy, kept for the properties; the program has none).
    [console]: the lines written by [console.log], the latest first. *)
Record State := {
  clock : nat;
  invocations : list Strategy;
  console : list (list LogPart)
}.

Definition M (A : Type) : Type := State -> Result A * State.

Definition ret {A} (a : A) : M A := fun st => (Ok a, st).

Definition throw {A} (e : Error) : M A := fun st => (Throw e, st).

Definition bind {A B} (m : M A) (k : A -> M B) : M B :=
  fun st =>
    match m st with
    | (Ok a, st') => k a st'
    | (Throw e, st') => (Throw e, st')
    end.

(** [try { m } catch (e) { handler e }] *)
Definition try_catch {A} (m : M A) (handler : Error -> M A) : M A :=
  fun st =>
    match m st with
    | (Ok a, st') => (Ok a, st')
    | (Throw e, st') => handler e st'
    end.

Definition lift {A} (r : Result A) : M A := fun st => (r, st).

Declare Scope js_scope.
Delimit Scope js_scope with js.
Notation "x <- m ;; k" := (bind m (fun x => k))
  (at level 61, m at next level, right associativity) : js_scope.
Notation "m ;; k" := (bind m (fun _ => k))
  (at level 61, right associativity) : js_scope.
Local Open Scope js_scope.

Definition console_log (line : list LogPart) : M unit :=
  fun st =>
    (Ok tt, {| clock := clock st;
               invocations := invocations st;
               console := line :: console st |}).

Definition enter (s : Strategy) : M unit :=
  fun st =>
    (Ok tt, {| clock := clock st;
               invocations := s :: invocations st;
               console := console st |}).

Definition tick (st : State) : State :=
  {| clock := S (clock st);
     invocations := invocations st;
     console := console st |}.

(** A call to the platform: answered at the current clock, which then
    advances. *)
Definition call {A} (answer : nat -> Result A) : M A :=
  fun st => (answer (clock st), tick st).

(** Pure computations that may throw, over a list, in order. *)
Fixpoint mapR {A B} (f : A -> Result B) (l : list A) : Result (list B) :=
  match l with
  | [] => Ok []
  | x :: l' =>
      match f x with
      | Ok y =>
          match mapR f l' with
          | Ok ys => Ok (y :: ys)
          | Throw e => Throw e
          end
      | Throw e => Throw e
      end
  end.

Fixpoint filterR {A} (f : A -> Result bool) (l : list A) : Result (list A) :=
  match l with
  | [] => Ok []
  | x :: l' =>
      match f x with
      | Ok b =>
          match filterR f l' with
          | Ok ys => Ok (if b then x :: ys else ys)
          | Throw e => Throw e
          end
      | Throw e => Throw e
      end
  end.

(** [arr.find(f)]: the first item [f] accepts, [undefined] when there is
    none; [f] is not called past that item. *)
Fixpoint findR (f : JsVal -> Result bool) (l : list JsVal) : Result JsVal :=
  match l with
  | [] => Ok VUndefined
  | x :: l' =>
      match f x with
      | Ok true => Ok x
      | Ok false => findR f l'
      | Throw e => Throw e
      end
  end.

(** [arr.forEach((item, index) => ...)] *)
Fixpoint forEachM {A} (f : A -> nat -> M unit) (index : nat) (l : list A)
  : M unit :=
  match l with
  | [] => ret tt
  | x :: l' => f x index ;; forEachM f (S index) l'
  end.

Definition bindR {A B} (r : Result A) (k : A -> Result B) : Result B :=
  match r with
  | Ok a => k a
  | Throw e => Throw e
  end.

(* ================================================================== *)
(** * Format decoders *)
(* ================================================================== *)

(** The entity decoding of the primary fetcher, for one cue:
    [.replace(/&amp;/g, '&').replace(/&lt;/g, '<').replace(/&gt;/g, '>')],
    then [&quot;] by a double quote and [&#39;] by an apostrophe. *)
Definition decode_entities (t : jsstring) : jsstring :=
  let t := replace_literal (lit "&amp;") (lit "&") t in
  let t := replace_literal (lit "&lt;") (lit "<") t in
  let t := replace_literal (lit "&gt;") (lit ">") t in
  let t := replace_literal (lit "&quot;") [dquote] t in
  replace_literal (lit "&#39;") [squote] t.

(** The callback of [textMatches.map] in [extractWithYouTubeDataAPI]:
    entities, then [.replace(/<[^>]+>/g, '').replace(/\n/g, ' ').trim()]. *)
Definition decode_cue (t : jsstring) : jsstring :=
  trim (newlines_to_spaces (strip_tags (decode_entities t))).

(** The entity decoding written in [parseCaptionTracks] and in
    [extractWithLanguageFallback]:
    [.replace(/&/g, '&').replace(/</g, '<').replace(/>/g, '>')], then
    [&quot;] by a double quote and [&#39;] by an apostrophe. *)
Definition decode_entities_fallback (t : jsstring) : jsstring :=
  let t := replace_literal (lit "&") (lit "&") t in
  let t := replace_literal (lit "<") (lit "<") t in
  let t := replace_literal (lit ">") (lit ">") t in
  let t := replace_literal (lit "&quot;") [dquote] t in
  replace_literal (lit "&#39;") [squote] t.

Definition decode_cue_fallback (t : jsstring) : jsstring :=
  trim (newlines_to_spaces (strip_tags (decode_entities_fallback t))).

(** [cues.map(decode).filter(text => text.length > 0).join(' ')
        .replace(/\s+/g, ' ').trim()] *)
Definition assemble (decode : jsstring -> jsstring) (cues : list jsstring)
  : jsstring :=
  trim (collapse_spaces
          (join [space] (List.filter nonempty (List.map decode cues)))).

(** The markup (srv1, srv3) decoding of the primary fetcher. *)
Definition decode_markup (captionContent : jsstring) : jsstring :=
  assemble decode_cue (textMatches captionContent).

(** The markup decoding of the page-scrape and language strategies. *)
Definition decode_markup_fallback (xml : jsstring) : jsstring :=
  assemble decode_cue_fallback (textMatches xml).

Section Decoders.
Variable P : Platform.

(** The callback of [events.map] of the structured-segment format:
    [event.segs.map(seg => seg.utf8 || '').join('').trim()]. *)
Definition event_text (event : JsVal) : Result jsstring :=
  bindR (get event "segs") (fun segs =>
  bindR (asArray segs) (fun segs =>
  bindR (mapR (fun seg =>
                 bindR (get seg "utf8") (fun utf8 =>
                 Ok (if truthy utf8 then utf8 else VStr [])))
              segs) (fun parts =>
  Ok (trim (List.concat (List.map (ToString P) parts)))))).

(** The structured-segment (json3) decoding: [''] when the payload has
    no [events]. *)
Definition decode_json3 (captionContent : jsstring) : Result jsstring :=
  match JSON_parse P captionContent with
  | None => Throw SyntaxError
  | Some jsonData =>
      bindR (get jsonData "events") (fun events =>
      if truthy events then
        bindR (asArray events) (fun events =>
        bindR (filterR (fun event =>
                          bindR (get event "segs") (fun segs =>
                          Ok (truthy segs)))
                       events) (fun events =>
        bindR (mapR event_text events) (fun texts =>
        Ok (trim (collapse_spaces (newlines_to_spaces
              (join [space] (List.filter nonempty texts))))))))
      else Ok [])
  end.
End Decoders.

(* ================================================================== *)
(** * Page patterns of the page-scrape strategy *)
(* ================================================================== *)

(** ["captionTracks":\s*(\[.*?\])] at one position: the literal, the
    white space, [[], then the shortest stretch that []] follows; without
    the s flag the stretch holds no line terminator. The result is the
    group, brackets included. *)
Definition captionTracks_at (dotAll : bool) (s : jsstring) : option jsstring :=
  match strip_prefix (dquote :: lit "captionTracks" ++ [dquote; 58%N]) s with
  | Some r =>
      match snd (span isSpace r) with
      | 91%N :: r' =>
          match span (fun c => negb (N.eqb c 93)
                               && (dotAll || negb (isLineTerminator c))) r' with
          | (inner, 93%N :: _) => Some (91%N :: inner ++ [93%N])
          | _ => None
          end
      | _ => None
      end
  | None => None
  end.

(** The leftmost position where [captionTracks_at] matches. *)
Fixpoint first_captionTracks (dotAll : bool) (s : jsstring) : option jsstring :=
  match captionTracks_at dotAll s with
  | Some g => Some g
  | None => match s with [] => None | _ :: s' => first_captionTracks dotAll s' end
  end.

(** [html.match(/"captionTracks":\s*(\[.*?\])/)], as its group. *)
Definition match_captionTracks (html : jsstring) : option jsstring :=
  first_captionTracks false html.

(** [html.match(/"captions".*?"playerCaptionsTracklistRenderer".*?"captionTracks":\s*(\[.*?\])/s)],
    as its group. The two lazy stretches stop at the first occurrence of
    the literal that follows them for which the rest matches; the rest
    matching from a later occurrence also matches from the first one, so
    the first occurrences decide. *)
Definition match_captionTracks_alt (html : jsstring) : option jsstring :=
  match find_sub (dquote :: lit "captions" ++ [dquote]) html with
  | Some (_, r1) =>
      match find_sub (dquote :: lit "playerCaptionsTracklistRenderer" ++ [dquote]) r1 with
      | Some (_, r2) => first_captionTracks true r2
      | None => None
      end
  | None => None
  end.

(* ================================================================== *)
(** * The extraction strategies *)
(* ================================================================== *)

Record CaptionResult := {
  transcript : jsstring;
  source : jsstring;
  language : JsVal;
  method : jsstring
}.

Record Format := { fmt : jsstring; fmt_name : jsstring }.

Definition formats : list Format :=
  [ {| fmt := lit "srv3"; fmt_name := lit "SRV3" |};
    {| fmt := lit "json3"; fmt_name := lit "JSON3" |};
    {| fmt := lit "srv1"; fmt_name := lit "SRV1" |} ].

Record Language := { code : jsstring; lang_name : jsstring }.

Definition languages : list Language :=
  [ {| code := lit "en"; lang_name := lit "English" |};
    {| code := lit "a.en"; lang_name := lit "English (auto)" |};
    {| code := lit "en-US"; lang_name := lit "English (US)" |};
    {| code := lit "en-GB"; lang_name := lit "English (GB)" |} ].

Definition userAgent : jsstring :=
  lit "Mozilla/5.0 (Windows NT 10.0; Win64; x64) AppleWebKit/537.36".

(** [item.snippet.k] *)
Definition snippet (item : JsVal) (k : string) : Result JsVal :=
  bindR (get item "snippet") (fun s => get s k).

(** [item.snippet.language === lang && item.snippet.trackKind === kind] *)
Definition is_track (lang kind : string) (item : JsVal) : Result bool :=
  bindR (snippet item "language") (fun l =>
  if is_string l (lit lang)
  then bindR (snippet item "trackKind") (fun k => Ok (is_string k (lit kind)))
  else Ok false).

(** [item.snippet.trackKind === kind] *)
Definition is_kind (kind : string) (item : JsVal) : Result bool :=
  bindR (snippet item "trackKind") (fun k => Ok (is_string k (lit kind))).

(** Step 2 of [extractWithYouTubeDataAPI]: the choice of the track.
    Priority: English standard > English auto > any standard > any auto
    > first available. *)
Definition select_track (items : list JsVal) : Result JsVal :=
  bindR (findR (is_track "en" "standard") items) (fun selectedTrack =>
  bindR (if negb (truthy selectedTrack)
         then findR (is_track "en" "asr") items
         else Ok selectedTrack) (fun selectedTrack =>
  bindR (if negb (truthy selectedTrack)
         then findR (is_kind "standard") items
         else Ok selectedTrack) (fun selectedTrack =>
  bindR (if negb (truthy selectedTrack)
         then findR (is_kind "asr") items
         else Ok selectedTrack) (fun selectedTrack =>
  Ok (if negb (truthy selectedTrack)
      then first_item items
      else selectedTrack))))).

(** [t.languageCode?.startsWith('en')], as the truth value [find] takes
    from it. *)
Definition languageCode_startsWith_en (t : JsVal) : Result bool :=
  bindR (get t "languageCode") (fun lc =>
  if nullish lc then Ok false
  else match lc with
       | VStr s => Ok (startsWith s (lit "en"))
       | _ => Throw TypeError
       end).

Section Strategies.
Variable P : Platform.
(** [analyzeTranscriptQuality], as the strategies call it. *)
Variable analyze : jsstring -> QualityAssessment.

Definition Fetch (url : jsstring) (ua : option jsstring) : M Response :=
  call (fun t => fetch P t url ua).

Definition parse (s : jsstring) : Result JsVal :=
  match JSON_parse P s with
  | Some v => Ok v
  | None => Throw SyntaxError
  end.

(** [await response.json()] *)
Definition json (r : Response) : Result JsVal :=
  bindR (body r) parse.

Definition log_quality (t : jsstring) (with_reason : bool) : M unit :=
  let quality := analyze t in
  console_log [Txt "  Transcript Quality Analysis:"] ;;
  console_log [Txt "     - Likely Spoken Dialogue: ";
               Spoken (likelySpoken quality)] ;;
  console_log [Txt "     - Confidence: "; Quality (confidence quality)] ;;
  (if with_reason
   then console_log [Txt "     - Reason: "; Str (reason quality)]
   else ret tt) ;;
  console_log [Txt "  Preview of SPOKEN WORDS: "; Str (firstn 150 t)].

(** ** Method 1: the track listing of the Data API, then timedtext *)

(** One turn of the loop over [formats]: [Some] is the [return] of the
    function, [None] the passage to the next format. *)
Definition try_format (videoId : jsstring) (language trackKind : JsVal)
           (list_status : nat) (format : Format)
  : M (option CaptionResult) :=
  try_catch
    (let timedTextUrl :=
       lit "https://www.youtube.com/api/timedtext?v=" ++ videoId
       ++ lit "&lang=" ++ ToString P language
       ++ lit "&fmt=" ++ fmt format in
     console_log [Txt "    Trying "; Str (fmt_name format); Txt " format..."] ;;
     captionResponse <- Fetch timedTextUrl None ;;
     if negb (ok captionResponse) then
       console_log [Txt "      "; Num list_status] ;;
       ret None
     else
       captionContent <- lift (body captionResponse) ;;
       if negb (nonempty captionContent)
          || (List.length captionContent <? 100) then
         console_log [Txt "      Content too short"] ;;
         ret None
       else
         transcript <-
           (if str_eqb (fmt format) (lit "json3")
            then lift (decode_json3 P captionContent)
            else ret (decode_markup captionContent)) ;;
         if 50 <? List.length transcript then
           console_log [Txt "  SUCCESS! Got "; Num (List.length transcript);
                        Txt " chars using "; Str (fmt_name format)] ;;
           log_quality transcript true ;;
           ret (Some {| transcript := transcript;
                        source := lit "captions";
                        language := language;
                        method := lit "youtube-data-api-"
                                  ++ ToString P trackKind |})
         else ret None)
    (fun err =>
       console_log [Txt "      Error: "; Message err] ;;
       ret None).

Fixpoint try_formats (videoId : jsstring) (language trackKind : JsVal)
         (list_status : nat) (fs : list Format)
  : M (option CaptionResult) :=
  match fs with
  | [] => ret None
  | format :: fs' =>
      r <- try_format videoId language trackKind list_status format ;;
      match r with
      | Some result => ret (Some result)
      | None => try_formats videoId language trackKind list_status fs'
      end
  end.

Definition extractWithYouTubeDataAPI (videoId apiKey : jsstring)
  : M (option CaptionResult) :=
  enter DataAPI ;;
  try_catch
    (console_log [Txt "[Method 1] Using YouTube Data API v3 with your API key..."] ;;
     let captionsListUrl :=
       lit "https://www.googleapis.com/youtube/v3/captions?part=snippet&videoId="
       ++ videoId ++ lit "&key=" ++ apiKey in
     console_log [Txt "  Fetching caption tracks list..."] ;;
     response <- Fetch captionsListUrl None ;;
     if negb (ok response) then
       errorText <- lift (body response) ;;
       console_log [Txt "  API request failed ("; Num (status response);
                    Txt "): "; Str errorText] ;;
       ret None
     else
       data <- lift (json response) ;;
       items <- lift (get data "items") ;;
       no_items <-
         (if negb (truthy items) then ret true
          else len <- lift (get items "length") ;; ret (is_zero len)) ;;
       if no_items then
         console_log [Txt "  No caption tracks found for this video"] ;;
         ret None
       else
         len <- lift (get items "length") ;;
         console_log [Txt "  Found "; Val len; Txt " caption track(s):"] ;;
         items <- lift (asArray items) ;;
         forEachM
           (fun item index =>
              name <- lift (snippet item "name") ;;
              language <- lift (snippet item "language") ;;
              trackKind <- lift (snippet item "trackKind") ;;
              console_log [Txt "     "; Num (index + 1); Txt ". "; Val name;
                           Txt " ("; Val language; Txt ") - "; Val trackKind])
           0 items ;;
         selectedTrack <- lift (select_track items) ;;
         language <- lift (snippet selectedTrack "language") ;;
         trackKind <- lift (snippet selectedTrack "trackKind") ;;
         trackName <- lift (snippet selectedTrack "name") ;;
         console_log [Txt "  Selected track: "; Val trackName; Txt " (";
                      Val language; Txt ", "; Val trackKind; Txt ")"] ;;
         console_log [Txt "  Downloading captions via timedtext API..."] ;;
         result <- try_formats videoId language trackKind (status response)
                               formats ;;
         match result with
         | Some r => ret (Some r)
         | None =>
             console_log [Txt "  All formats failed"] ;;
             ret None
         end)
    (fun error =>
       console_log [Txt "  YouTube Data API method failed: "; Message error] ;;
       ret None).

(** ** Method 2: the youtube-transcript package *)

Definition extractWithYoutubeTranscript (videoId : jsstring)
  : M (option CaptionResult) :=
  enter TranscriptPackage ;;
  try_catch
    (console_log [Txt "[Method 1] Trying youtube-transcript package..."] ;;
     call (import_youtube_transcript P) ;;
     transcriptData <-
       try_catch
         (console_log [Txt "  Attempting English captions..."] ;;
          call (fun t => fetchTranscript P t videoId (Some (lit "en"))))
         (fun e =>
            console_log [Txt "  English failed, trying any available language..."] ;;
            call (fun t => fetchTranscript P t videoId None)) ;;
     match transcriptData with
     | None | Some [] =>
         console_log [Txt "  No transcript data returned"] ;;
         ret None
     | Some items =>
         let transcript :=
           trim (collapse_spaces (join [space] (List.map text items))) in
         console_log [Txt "  SUCCESS! Got "; Num (List.length transcript);
                      Txt " chars"] ;;
         if List.length transcript <? 50 then
           console_log [Txt "  Transcript too short"] ;;
           ret None
         else
           log_quality transcript false ;;
           ret (Some {| transcript := transcript;
                        source := lit "captions";
                        language := VStr (lit "en");
                        method := lit "youtube-transcript-package" |})
     end)
    (fun error =>
       console_log [Txt "  youtube-transcript failed: "; Message error] ;;
       ret None).

(** ** Method 3: the caption tracks listed in the video page *)

Definition parseCaptionTracks (tracksJson videoId : jsstring)
           (pattern : string) : M (option CaptionResult) :=
  try_catch
    (tracks <- lift (parse tracksJson) ;;
     len <- lift (get tracks "length") ;;
     console_log [Txt "  Found "; Val len; Txt " caption track(s) using ";
                  Txt pattern] ;;
     items <- lift (asArray tracks) ;;
     track <- lift (findR (fun t =>
                             bindR (get t "languageCode") (fun lc =>
                             Ok (is_string lc (lit "en"))))
                          items) ;;
     track <- (if negb (truthy track)
               then lift (findR languageCode_startsWith_en items)
               else ret track) ;;
     let track := if negb (truthy track) then first_item items else track in
     invalid <-
       (if negb (truthy track) then ret true
        else baseUrl <- lift (get track "baseUrl") ;;
             ret (negb (truthy baseUrl))) ;;
     if invalid then
       console_log [Txt "  No valid track found"] ;;
       ret None
     else
       name <- lift (get track "name") ;;
       simpleText <- (if nullish name then ret VUndefined
                      else lift (get name "simpleText")) ;;
       languageCode <- lift (get track "languageCode") ;;
       console_log [Txt "  Selected track: ";
                    Val (if truthy simpleText then simpleText
                         else VStr (lit "Unknown"));
                    Txt " ("; Val languageCode; Txt ")"] ;;
       console_log [Txt "  Fetching captions from baseUrl..."] ;;
       baseUrl <- lift (get track "baseUrl") ;;
       captionResponse <- Fetch (ToString P baseUrl) None ;;
       if negb (ok captionResponse) then
         console_log [Txt "  Failed to fetch caption content: ";
                      Num (status captionResponse)] ;;
         ret None
       else
         captionXml <- lift (body captionResponse) ;;
         let matches := textMatches captionXml in
         if List.length matches =? 0 then
           console_log [Txt "  No text elements found in caption XML"] ;;
           ret None
         else
           let transcript := assemble decode_cue_fallback matches in
           console_log [Txt "  SUCCESS! Got "; Num (List.length transcript);
                        Txt " chars"] ;;
           console_log [Txt "  Preview: "; Str (firstn 150 transcript)] ;;
           if List.length transcript <? 50 then
             console_log [Txt "  Transcript too short"] ;;
             ret None
           else
             languageCode <- lift (get track "languageCode") ;;
             ret (Some {| transcript := transcript;
                          source := lit "captions";
                          language := if truthy languageCode then languageCode
                                      else VStr (lit "unknown");
                          method := lit "timedtext-api" |}))
    (fun error =>
       console_log [Txt "  Failed to parse caption tracks: "; Message error] ;;
       ret None).

Definition extractWithTimedTextAPI (videoId : jsstring)
  : M (option CaptionResult) :=
  enter TimedTextAPI ;;
  try_catch
    (console_log [Txt "[Method 2] Trying direct timedtext API..."] ;;
     let videoUrl := lit "https://www.youtube.com/watch?v=" ++ videoId in
     console_log [Txt "  Fetching video page: "; Str videoUrl] ;;
     pageResponse <- Fetch videoUrl (Some userAgent) ;;
     if negb (ok pageResponse) then
       console_log [Txt "  Failed to fetch video page: ";
                    Num (status pageResponse)] ;;
       ret None
     else
       html <- lift (body pageResponse) ;;
       match match_captionTracks html with
       | None =>
           console_log [Txt "  No captionTracks found in page HTML"] ;;
           match match_captionTracks_alt html with
           | None =>
               console_log [Txt "  No captions found with alternative pattern either"] ;;
               ret None
           | Some group =>
               parseCaptionTracks group videoId "alt-pattern"
           end
       | Some group =>
           parseCaptionTracks group videoId "standard-pattern"
       end)
    (fun error =>
       console_log [Txt "  timedtext API failed: "; Message error] ;;
       ret None).

(** ** Method 4: a fixed list of language codes *)

Definition try_language (videoId : jsstring) (lang : Language)
  : M (option CaptionResult) :=
  try_catch
    (console_log [Txt "  Trying "; Str (lang_name lang); Txt " (";
                  Str (code lang); Txt ")..."] ;;
     let url :=
       lit "https://www.youtube.com/api/timedtext?v=" ++ videoId
       ++ lit "&lang=" ++ code lang ++ lit "&fmt=srv3" in
     response <- Fetch url None ;;
     if negb (ok response) then
       console_log [Txt "    "; Num (status response)] ;;
       ret None
     else
       xml <- lift (body response) ;;
       if negb (nonempty xml) || (List.length xml <? 100)
          || includes xml (lit "error") then
         console_log [Txt "    Invalid response"] ;;
         ret None
       else
         let matches := textMatches xml in
         if List.length matches =? 0 then
           console_log [Txt "    No text elements"] ;;
           ret None
         else
           let transcript := assemble decode_cue_fallback matches in
           if List.length transcript <? 50 then
             console_log [Txt "    Too short: "; Num (List.length transcript);
                          Txt " chars"] ;;
             ret None
           else
             console_log [Txt "  SUCCESS with "; Str (lang_name lang);
                          Txt "! Got "; Num (List.length transcript);
                          Txt " chars"] ;;
             console_log [Txt "  Preview: "; Str (firstn 150 transcript)] ;;
             ret (Some {| transcript := transcript;
                          source := lit "captions";
                          language := VStr (code lang);
                          method := lit "language-fallback" |}))
    (fun error =>
       console_log [Txt "    Error: "; Message error] ;;
       ret None).

Fixpoint try_languages (videoId : jsstring) (ls : list Language)
  : M (option CaptionResult) :=
  match ls with
  | [] => ret None
  | lang :: ls' =>
      r <- try_language videoId lang ;;
      match r with
      | Some result => ret (Some result)
      | None => try_languages videoId ls'
      end
  end.

Definition extractWithLanguageFallback (videoId : jsstring)
  : M (option CaptionResult) :=
  enter LanguageFallback ;;
  try_catch
    (console_log [Txt "[Method 3] Trying multiple language codes..."] ;;
     result <- try_languages videoId languages ;;
     match result with
     | Some r => ret (Some r)
     | None =>
         console_log [Txt "  All language codes failed"] ;;
         ret None
     end)
    (fun error =>
       console_log [Txt "  Language fallback failed: "; Message error] ;;
       ret None).

(** ** The orchestrator *)

Definition banner (method_name : string) : M unit :=
  console_log [Txt "===="] ;;
  console_log [Txt "SUCCESS WITH METHOD "; Txt method_name] ;;
  console_log [Txt "EXTRACTED ACTUAL SPOKEN WORDS FROM VIDEO CAPTIONS"] ;;
  console_log [Txt "   This is what people SAY in the video, not the description!"] ;;
  console_log [Txt "===="].

(** [if (apiKey)]: the key is given and is not the empty string. *)
Definition key_present (apiKey : option jsstring) : bool :=
  match apiKey with
  | Some k => nonempty k
  | None => false
  end.

Definition header (videoId : jsstring) (apiKey : option jsstring) : M unit :=
  console_log [Txt "===="] ;;
  console_log [Txt "CAPTION EXTRACTION STARTED FOR VIDEO: "; Str videoId] ;;
  console_log [Txt "   API Key provided: ";
               Txt (if key_present apiKey then "YES" else "NO")] ;;
  console_log [Txt "===="].

(** The block [if (apiKey) { ... } else { ... }]: [Some] is its
    [return result], [None] the passage to Method 2. *)
Definition try_primary (videoId : jsstring) (apiKey : option jsstring)
  : M (option CaptionResult) :=
  match apiKey with
  | Some ((_ :: _) as key) =>
      result <- extractWithYouTubeDataAPI videoId key ;;
      match result with
      | Some r => banner "1 (YouTube Data API)" ;; ret (Some r)
      | None => ret None
      end
  | _ =>
      console_log [Txt "Skipping Method 1 (no API key provided)"] ;;
      ret None
  end.

Definition extractCaptions (videoId : jsstring) (apiKey : option jsstring)
  : M (option CaptionResult) :=
  header videoId apiKey ;;
  first <- try_primary videoId apiKey ;;
  match first with
  | Some r => ret (Some r)
  | None =>
      result <- extractWithYoutubeTranscript videoId ;;
      match result with
      | Some r => banner "2 (youtube-transcript)" ;; ret (Some r)
      | None =>
          result <- extractWithTimedTextAPI videoId ;;
          match result with
          | Some r => banner "3 (timedtext-api)" ;; ret (Some r)
          | None =>
              result <- extractWithLanguageFallback videoId ;;
              match result with
              | Some r => banner "4 (language-fallback)" ;; ret (Some r)
              | None =>
                  console_log [Txt "ALL CAPTION EXTRACTION METHODS FAILED"] ;;
                  console_log [Txt "This video likely does NOT have captions/subtitles available."] ;;
                  console_log [Txt "===="] ;;
                  ret None
              end
          end
      end
  end.
End Strategies.

(** The program: the strategies with the analyzer of the module. *)
Definition extract (P : Platform) (toLowerCase : jsstring -> jsstring)
  : jsstring -> option jsstring -> M (option CaptionResult) :=
  extractCaptions P (analyzeTranscriptQuality toLowerCase).

Definition initial : State :=
  {| clock := 0; invocations := []; console := [] |}.

(* ================================================================== *)
(** * Platforms of the examples *)
(* ================================================================== *)

(** The platforms below answer [JSON.parse] on the payloads they serve;
    on any other text they answer with its [SyntaxError], and no run of
    the examples parses another text.

    A JSON text written with apostrophes for its double quotes. *)
Definition json_lit (s : string) : jsstring :=
  List.map (fun c => if N.eqb c 39 then dquote else c) (lit s).

Definition rejected {A} : Result A := Throw (Rejected (lit "network error")).

(** No network and no package: every call is rejected. *)
Definition offline : Platform :=
  {| fetch := fun _ _ _ => rejected;
     import_youtube_transcript := fun _ => rejected;
     fetchTranscript := fun _ _ _ => rejected;
     JSON_parse := fun _ => None;
     ToString_other := fun _ => lit "[object Object]" |}.

(** A video without captions: the listing has no items, the package
    finds no transcript, the page lists no caption tracks and timedtext
    answers with an empty body. *)
Definition empty_listing_body : jsstring := json_lit "{'items':[]}".

Definition uncaptioned_video : Platform :=
  {| fetch := fun _ url _ =>
       if startsWith url (lit "https://www.googleapis.com/youtube/v3/captions?")
       then Ok {| ok := true; status := 200; body := Ok empty_listing_body |}
       else if startsWith url (lit "https://www.youtube.com/watch?v=")
       then Ok {| ok := true; status := 200;
                  body := Ok (lit "<html><body>a player without caption tracks</body></html>") |}
       else Ok {| ok := true; status := 200; body := Ok [] |};
     import_youtube_transcript := fun _ => Ok tt;
     fetchTranscript := fun _ _ _ =>
       Throw (Rejected (lit "Transcript is disabled on this video"));
     JSON_parse := fun s =>
       if str_eqb s empty_listing_body
       then Some (VObj [(lit "items", VArr [])]) else None;
     ToString_other := fun _ => lit "[object Object]" |}.

Definition cue (s : string) : TranscriptResponse :=
  {| text := lit s; duration := PrimFloat.one; offset := PrimFloat.zero |}.

(** A video whose captions, as the package returns them, make fifty code
    units; no other source answers. *)
Definition fifty : jsstring :=
  lit "one two three four five six seven eight nine ten !".

Definition short_video : Platform :=
  {| fetch := fun _ _ _ => rejected;
     import_youtube_transcript := fun _ => Ok tt;
     fetchTranscript := fun _ _ _ =>
       Ok (Some [cue "one two three four five"; cue "six seven eight nine ten !"]);
     JSON_parse := fun _ => None;
     ToString_other := fun _ => lit "[object Object]" |}.

(** A video with French captions only: the package rejects the request
    for English and answers the request without a language. *)
Definition french_video : Platform :=
  {| fetch := fun _ _ _ => rejected;
     import_youtube_transcript := fun _ => Ok tt;
     fetchTranscript := fun _ _ lang =>
       match lang with
       | Some _ => Throw (Rejected (lit "No transcripts are available in en"))
       | None =>
           Ok (Some [cue "Bonjour tout le monde et bienvenue";
                     cue "sur cette chaine consacree aux sciences"])
       end;
     JSON_parse := fun _ => None;
     ToString_other := fun _ => lit "[object Object]" |}.

(** A video with an English auto-generated track, listed by the Data
    API and served by timedtext in the srv3 format. *)
Definition listing_body : jsstring :=
  json_lit "{'items':[{'snippet':{'language':'en','trackKind':'asr','name':''}}]}".

Definition listing_value : JsVal :=
  VObj [(lit "items",
         VArr [VObj [(lit "snippet",
                      VObj [(lit "language", VStr (lit "en"));
                            (lit "trackKind", VStr (lit "asr"));
                            (lit "name", VStr [])])]])].

Definition srv3_body : jsstring :=
  lit "<?xml version='1.0' encoding='utf-8' ?><transcript><text start='0' dur='2'>Hello everyone &amp; welcome to my channel</text><text start='2' dur='3'>today we talk about climate change</text></transcript>".

Definition captioned_video : Platform :=
  {| fetch := fun _ url _ =>
       if str_eqb url (lit "https://www.googleapis.com/youtube/v3/captions?part=snippet&videoId=abcDEF12345&key=KEY")
       then Ok {| ok := true; status := 200; body := Ok listing_body |}
       else if str_eqb url (lit "https://www.youtube.com/api/timedtext?v=abcDEF12345&lang=en&fmt=srv3")
       then Ok {| ok := true; status := 200; body := Ok srv3_body |}
       else Ok {| ok := false; status := 404; body := Ok [] |};
     import_youtube_transcript := fun _ => rejected;
     fetchTranscript := fun _ _ _ => rejected;
     JSON_parse := fun s =>
       if str_eqb s listing_body then Some listing_value else None;
     ToString_other := fun _ => lit "[object Object]" |}.

(* ================================================================== *)
(** * Vocabulary of the properties *)
(* ================================================================== *)

Unset Implicit Arguments.

(** Every value [m] returns satisfies [Q]. *)
Definition post {A} (m : M A) (Q : A -> Prop) : Prop :=
  forall st a st', m st = (Ok a, st') -> Q a.

(** [m] returns a value from every state: no exception leaves it. *)
Definition nothrow {A} (m : M A) : Prop :=
  forall st, exists a st', m st = (Ok a, st').

(** [m] enters no strategy. *)
Definition enters_nothing {A} (m : M A) : Prop :=
  forall st r st', m st = (r, st') -> invocations st' = invocations st.

(** Two states with the same platform history and the same strategies
    entered; their consoles may differ. *)
Definition same_run (s1 s2 : State) : Prop :=
  clock s1 = clock s2 /\ invocations s1 = invocations s2.

(** From states of the same run, [m1] and [m2] end alike: same value or
    exception, and again states of the same run. *)
Definition agree {A} (m1 m2 : M A) : Prop :=
  forall s1 s2, same_run s1 s2 ->
    fst (m1 s1) = fst (m2 s2) /\ same_run (snd (m1 s1)) (snd (m2 s2)).

(** The invariant of a transcript the extractor returns, with its
    threshold. *)
Definition accepted (threshold : nat) (r : option CaptionResult) : Prop :=
  match r with
  | Some c => threshold <= List.length (transcript c)
              /\ source c = lit "captions"
  | None => True
  end.

(** The result of a strategy that tags it as strategy B does. *)
Definition tagged_en_package (r : option CaptionResult) : Prop :=
  match r with
  | Some c => language c = VStr (lit "en")
              /\ method c = lit "youtube-transcript-package"
  | None => True
  end.

(** The invocation counter of a strategy. *)
Definition Strategy_eqb (a b : Strategy) : bool :=
  match a, b with
  | DataAPI, DataAPI | TranscriptPackage, TranscriptPackage
  | TimedTextAPI, TimedTextAPI | LanguageFallback, LanguageFallback => true
  | _, _ => false
  end.

Definition invoked (s : Strategy) (st : State) : nat :=
  List.length (List.filter (Strategy_eqb s) (invocations st)).

(** ** Tracks of the listing, as the specification has them *)

(** A caption track of the listing endpoint: language code, kind
    ([standard], or [asr] for an auto-generated track) and display name. *)
Record Track := {
  track_language : jsstring;
  track_kind : jsstring;
  track_name : jsstring
}.

(** The item of [data.items] that describes a track. *)
Definition track_item (t : Track) : JsVal :=
  VObj [(lit "snippet",
         VObj [(lit "language", VStr (track_language t));
               (lit "trackKind", VStr (track_kind t));
               (lit "name", VStr (track_name t))])].

Definition is_en (t : Track) : bool := str_eqb (track_language t) (lit "en").
Definition is_standard (t : Track) : bool := str_eqb (track_kind t) (lit "standard").
Definition is_auto (t : Track) : bool := str_eqb (track_kind t) (lit "asr").

Definition en_standard (t : Track) : bool := is_en t && is_standard t.
Definition en_auto (t : Track) : bool := is_en t && is_auto t.

(** [t] is the first track of [l] that [p] accepts. *)
Definition first_such (p : Track -> bool) (l : list Track) (t : Track) : Prop :=
  exists before after,
    l = before ++ t :: after
    /\ p t = true
    /\ Forall (fun x => p x = false) before.

Definition none_such (p : Track -> bool) (l : list Track) : Prop :=
  Forall (fun x => p x = false) l.

(** The priority of the specification, first match wins: English
    standard, else English auto, else any standard, else any auto, else
    the first item. *)
Definition priority_choice (l : list Track) (t : Track) : Prop :=
  first_such en_standard l t
  \/ (none_such en_standard l /\ first_such en_auto l t)
  \/ (none_such en_standard l /\ none_such en_auto l
      /\ first_such is_standard l t)
  \/ (none_such en_standard l /\ none_such en_auto l
      /\ none_such is_standard l /\ first_such is_auto l t)
  \/ (none_such en_standard l /\ none_such en_auto l
      /\ none_such is_standard l /\ none_such is_auto l
      /\ hd_error l = Some t).

(** ** Shapes of the identifier parser *)

(** [s] holds a URL shape followed by the identifier [id]: [id] is the
    longest run of code units other than [&], newline, [?] and [#] after
    the shape, it is not empty, and no shape followed by such a code unit
    starts further left in [s]. *)
Definition url_shape (s id : jsstring) : Prop :=
  exists before shape after,
    In shape url_shapes
    /\ s = before ++ shape ++ id ++ after
    /\ id <> []
    /\ forallb isIdChar id = true
    /\ (after = [] \/ exists c rest, after = c :: rest /\ isIdChar c = false)
    /\ (forall before' shape' c rest,
          In shape' url_shapes -> isIdChar c = true ->
          s = before' ++ shape' ++ c :: rest ->
          List.length before <= List.length before').

Definition has_url_shape (s : jsstring) : Prop :=
  exists before shape c rest,
    In shape url_shapes /\ isIdChar c = true
    /\ s = before ++ shape ++ c :: rest.

(** A bare token: eleven code units of [A-Za-z0-9_-]. *)
Definition bare_token (s : jsstring) : Prop :=
  List.length s = 11 /\ forallb isTokenChar s = true.

(** ** Words of a text, as the specification counts them *)

(** The whitespace-separated words of a text: its maximal runs of code
    units that are not white space. [in_word] tells that the code unit
    before belongs to a word. *)
Fixpoint count_words (in_word : bool) (s : jsstring) : nat :=
  match s with
  | [] => 0
  | c :: s' =>
      if isSpace c then count_words false s'
      else (if in_word then 0 else 1) + count_words true s'
  end.

Definition wordCount (text : jsstring) : nat := count_words false text.

(** The empty stretch [split] yields before leading white space (and
    the single stretch of the empty string), and the one after trailing
    white space. *)
Definition leading_stretch (text : jsstring) : nat :=
  match text with
  | [] => 1
  | c :: _ => if isSpace c then 1 else 0
  end.

Definition trailing_stretch (text : jsstring) : nat :=
  if last (List.map isSpace text) false then 1 else 0.

(** ** The ratio of the analyzer, as the specification has it *)

(** The tokens of a text: its maximal runs of word characters (the
    letters of ASCII, the digits and the underscore). [cur] is the run
    being read. *)
Definition flush (cur : jsstring) : list jsstring :=
  match cur with
  | [] => []
  | _ => [cur]
  end.

Fixpoint word_tokens (cur : jsstring) (s : jsstring) : list jsstring :=
  match s with
  | [] => flush cur
  | c :: s' =>
      if isWord c then word_tokens (cur ++ [c]) s'
      else flush cur ++ word_tokens [] s'
  end.

(** The first-person pronouns the specification lists. *)
Definition first_person : list jsstring :=
  [ lit "i"; lit "we"; lit "my"; lit "our"; lit "me"; lit "us" ].

Definition is_first_person (token : jsstring) : bool :=
  existsb (str_eqb token) first_person.

(** The occurrences of first-person pronouns among the tokens of [s]. *)
Definition pronoun_occurrences (s : jsstring) : nat :=
  List.length (List.filter is_first_person (word_tokens [] s)).

(** The ratio of [occurrences] to [words], a rational number, exceeds
    2/100. *)
Definition exceeds_two_percent (occurrences words : nat) : Prop :=
  QArith_base.Qlt (QArith_base.Qmake 2 100)
                  (QArith_base.Qmake (Z.of_nat occurrences) (Pos.of_nat words)).

(** [w] occurs in [s]. *)
Definition occurs (w s : jsstring) : Prop :=
  exists before after, s = before ++ w ++ after.

(** One of the conversational markers occurs in [s]. *)
Definition marker_occurs (s : jsstring) : Prop :=
  exists w, In w conversationalWords /\ occurs w s.

(** What a JavaScript string may hold: at most [2^53 - 1] code units. *)
Definition string_length_ok (s : jsstring) : Prop :=
  (Z.of_nat (List.length s) < 2 ^ 53)%Z.

(** Two texts without a marker, the pronoun [my] first: one of 49 words
    and one of 50. *)
Definition one_in_49 : jsstring :=
  lit "my" ++ List.concat (List.repeat (lit " x") 48).

Definition one_in_50 : jsstring :=
  lit "my" ++ List.concat (List.repeat (lit " x") 49).

(** ** Decoded text *)

(** [s] holds a tag: [<], one or more code units other than [>], [>]. *)
Definition has_tag (s : jsstring) : Prop :=
  exists before run after,
    s = before ++ 60%N :: run ++ 62%N :: after
    /\ run <> []
    /\ forallb notGt run = true.

(** Single-spaced text: the only white space is the space (U+0020),
    never two in a row; [after_space] tells that the code unit before is
    a space (or that the text starts here), [ends_ok] is the answer for
    the empty rest. *)
Fixpoint spaced (after_space : bool) (s : jsstring) : bool :=
  match s with
  | [] => negb after_space
  | c :: s' =>
      if isSpace c then N.eqb c space && negb after_space && spaced true s'
      else spaced false s'
  end.

(** No white space at either end, single spaces inside. *)
Definition single_spaced (s : jsstring) : bool :=
  match s with
  | [] => true
  | _ => spaced true s
  end.

(** What [find] returns on the items of tracks. *)
Definition found (r : option Track) : JsVal :=
  match r with
  | Some t => track_item t
  | None => VUndefined
  end.

(** The tracks of the example of the specification: French standard,
    then English auto-generated. *)
Definition fr_standard : Track :=
  {| track_language := lit "fr"; track_kind := lit "standard";
     track_name := lit "Francais" |}.

Definition en_asr : Track :=
  {| track_language := lit "en"; track_kind := lit "asr";
     track_name := lit "English (auto-generated)" |}.

(** ** The scan for white space, by state *)

(** The pieces of a global scan for [/\s+/]: a run of white space is one
    match. [in_run] tells that the code unit before belongs to a run
    already matched. *)
Fixpoint space_pieces (in_run : bool) (s : jsstring) : list (piece unit) :=
  match s with
  | [] => []
  | c :: r =>
      if isSpace c
      then (if in_run then space_pieces true r
            else Hit tt :: space_pieces true r)
      else Lit c :: space_pieces false r
  end.

Fixpoint count_hits {A} (ps : list (piece A)) : nat :=
  match ps with
  | [] => 0
  | Lit _ :: ps' => count_hits ps'
  | Hit _ :: ps' => S (count_hits ps')
  end.

(** ** Trimming and collapsing, by state *)

(** [trimEnd]: the text without its trailing white space. *)
Fixpoint trimEnd (s : jsstring) : jsstring :=
  match s with
  | [] => []
  | c :: r =>
      match trimEnd r with
      | [] => if isSpace c then [] else [c]
      | r' => c :: r'
      end
  end.

(** The only white space is the space, never two in a row; the text may
    end with one, and may start with one unless [after_space]. *)
Fixpoint loosely_spaced (after_space : bool) (s : jsstring) : bool :=
  match s with
  | [] => true
  | c :: s' =>
      if isSpace c
      then N.eqb c space && negb after_space && loosely_spaced true s'
      else loosely_spaced false s'
  end.

Definition collapsed (ps : list (piece unit)) : jsstring :=
  flat_map (fun p => match p with Lit c => [c] | Hit _ => [space] end) ps.

(** [.replace(/\n/g, ' ')], code unit by code unit. *)
Definition newline_to_space (c : code_unit) : code_unit :=
  if N.eqb c newline then space else c.



(** ** Cue texts and their entities *)















(** ** The course of a run *)

(** The strategies [extractCaptions] may enter, in their order: the
    primary one only with a key. *)
Definition strategy_plan (apiKey : option jsstring) : list Strategy :=
  if key_present apiKey
  then [DataAPI; TranscriptPackage; TimedTextAPI; LanguageFallback]
  else [TranscriptPackage; TimedTextAPI; LanguageFallback].

(** [m] makes at most [n] calls to the platform, whether it returns or
    throws. *)
Definition calls_within {A} (n : nat) (m : M A) : Prop :=
  forall st r st', m st = (r, st') ->
    clock st <= clock st' /\ clock st' <= clock st + n.

(** The transcript of a result is single-spaced. *)
Definition tidy (r : option CaptionResult) : Prop :=
  match r with
  | Some c => single_spaced (transcript c) = true
  | None => True
  end.

(** ** Requests and payloads *)

(** The address of a caption payload:
    [https://www.youtube.com/api/timedtext?v=${videoId}&lang=${lang}&fmt=${fmt}]. *)
Definition timedtext_url (videoId lang fmt : jsstring) : jsstring :=
  lit "https://www.youtube.com/api/timedtext?v=" ++ videoId
  ++ lit "&lang=" ++ lang ++ lit "&fmt=" ++ fmt.

(** The address of the track listing of the Data API. *)
Definition captions_list_url (videoId apiKey : jsstring) : jsstring :=
  lit "https://www.googleapis.com/youtube/v3/captions?part=snippet&videoId="
  ++ videoId ++ lit "&key=" ++ apiKey.

(** The body of the answer to a request made as the call number [t],
    when the request is answered, the answer is OK and its body can be
    read. *)
Definition served (P : Platform) (t : nat) (url : jsstring) (ua : option jsstring)
  : option jsstring :=
  match fetch P t url ua with
  | Ok resp =>
      if ok resp
      then match body resp with Ok s => Some s | Throw _ => None end
      else None
  | Throw _ => None
  end.

(** A payload the language strategy accepts: a hundred code units or
    more, without the word [error] anywhere, with a cue, and decoding to
    fifty code units or more. *)
Definition acceptable_markup (xml : jsstring) : bool :=
  (100 <=? List.length xml)
  && negb (includes xml (lit "error"))
  && negb (List.length (textMatches xml) =? 0)
  && (50 <=? List.length (decode_markup_fallback xml)).

Definition language_result (lang : Language) (xml : jsstring) : CaptionResult :=
  {| transcript := decode_markup_fallback xml;
     source := lit "captions";
     language := VStr (code lang);
     method := lit "language-fallback" |}.

(** What the request for one language code gives, made as call [t]. *)
Definition language_answer (P : Platform) (videoId : jsstring) (t : nat)
           (lang : Language) : option CaptionResult :=
  match served P t (timedtext_url videoId (code lang) (lit "srv3")) None with
  | Some xml =>
      if acceptable_markup xml then Some (language_result lang xml) else None
  | None => None
  end.

(** The decoding of a payload by its format: the structured-segment
    decoding for [json3], the markup decoding otherwise. *)
Definition decode_payload (P : Platform) (format : Format) (content : jsstring)
  : Result jsstring :=
  if str_eqb (fmt format) (lit "json3")
  then decode_json3 P content
  else Ok (decode_markup content).

Definition format_result (P : Platform) (language trackKind : JsVal)
           (t : jsstring) : CaptionResult :=
  {| transcript := t;
     source := lit "captions";
     language := language;
     method := lit "youtube-data-api-" ++ ToString P trackKind |}.

(** What the request for one format gives, made as call [t]: a payload
    of a hundred code units or more whose decoding succeeds with more
    than fifty code units. *)
Definition format_answer (P : Platform) (videoId : jsstring)
           (language trackKind : JsVal) (t : nat) (format : Format)
  : option CaptionResult :=
  match served P t (timedtext_url videoId (ToString P language) (fmt format))
               None with
  | Some content =>
      if 100 <=? List.length content then
        match decode_payload P format content with
        | Ok text =>
            if 50 <? List.length text
            then Some (format_result P language trackKind text)
            else None
        | Throw _ => None
        end
      else None
  | None => None
  end.

(** The items of the track listing, when the listing is served, parses,
    and holds a non-empty array under [items]; the request is the call
    number [t]. *)
Definition listing_items (P : Platform) (t : nat) (videoId apiKey : jsstring)
  : option (list JsVal) :=
  match served P t (captions_list_url videoId apiKey) None with
  | Some text =>
      match JSON_parse P text with
      | Some data =>
          match get data "items" with
          | Ok (VArr (x :: l)) => Some (x :: l)
          | _ => None
          end
      | None => None
      end
  | None => None
  end.

(** [data.items.length === 0] on an array of [n] items. *)
Definition length_is_zero (n : nat) : bool :=
  is_zero (VNum (number_of_nat n)).

(** The track of the listing of [captioned_video]. *)
Definition listed_track : Track :=
  {| track_language := lit "en"; track_kind := lit "asr"; track_name := [] |}.

(** ** The tags of a result *)

(** The strategy [s] as a program; the primary one is run with the key. *)
Definition run_strategy (P : Platform) (analyze : jsstring -> QualityAssessment)
           (videoId : jsstring) (apiKey : option jsstring) (s : Strategy)
  : M (option CaptionResult) :=
  match s with
  | DataAPI =>
      match apiKey with
      | Some key => extractWithYouTubeDataAPI P analyze videoId key
      | None => ret None
      end
  | TranscriptPackage => extractWithYoutubeTranscript P analyze videoId
  | TimedTextAPI => extractWithTimedTextAPI P videoId
  | LanguageFallback => extractWithLanguageFallback P videoId
  end.

(** The tags of a result of strategy [s]. For the primary strategy: the
    listing served for the key holds items, [item] is the track chosen
    among them, the language of the result is the language of this
    track, and the method ends with its kind. *)
Definition tagged_by (P : Platform) (videoId : jsstring)
           (apiKey : option jsstring) (s : Strategy) (c : CaptionResult)
  : Prop :=
  match s with
  | DataAPI =>
      exists n key items item kind,
        apiKey = Some key
        /\ listing_items P n videoId key = Some items
        /\ select_track items = Ok item
        /\ snippet item "language" = Ok (language c)
        /\ snippet item "trackKind" = Ok kind
        /\ method c = lit "youtube-data-api-" ++ ToString P kind
  | TranscriptPackage =>
      method c = lit "youtube-transcript-package"
      /\ language c = VStr (lit "en")
  | TimedTextAPI =>
      method c = lit "timedtext-api" /\ truthy (language c) = true
  | LanguageFallback =>
      method c = lit "language-fallback"
      /\ exists l, In l languages /\ language c = VStr (code l)
  end.

Definition tagged_result (P : Platform) (videoId : jsstring)
           (apiKey : option jsstring) (s : Strategy)
           (r : option CaptionResult) : Prop :=
  match r with
  | Some c => tagged_by P videoId apiKey s c
  | None => True
  end.

(** ** The answers of the transcript package *)

(** The cues the package gives, its import being the call number [n]:
    those of the request for English, and those of the request without a
    language only when the first request is rejected. [None] is a
    rejected import, a rejected last request, or a falsy answer. *)
Definition package_cues (P : Platform) (n : nat) (videoId : jsstring)
  : option (list TranscriptResponse) :=
  match import_youtube_transcript P n with
  | Throw _ => None
  | Ok _ =>
      match fetchTranscript P (S n) videoId (Some (lit "en")) with
      | Ok data => data
      | Throw _ =>
          match fetchTranscript P (S (S n)) videoId None with
          | Ok data => data
          | Throw _ => None
          end
      end
  end.

(** The calls made for it. *)
Definition package_calls (P : Platform) (n : nat) (videoId : jsstring) : nat :=
  match import_youtube_transcript P n with
  | Throw _ => 1
  | Ok _ =>
      match fetchTranscript P (S n) videoId (Some (lit "en")) with
      | Ok _ => 2
      | Throw _ => 3
      end
  end.

(** The texts of the cues joined by spaces, single-spaced. *)
Definition cues_text (items : list TranscriptResponse) : jsstring :=
  trim (collapse_spaces (join [space] (List.map text items))).

Definition package_answer (P : Platform) (n : nat) (videoId : jsstring)
  : option CaptionResult :=
  match package_cues P n videoId with
  | Some ((_ :: _) as items) =>
      if 50 <=? List.length (cues_text items)
      then Some {| transcript := cues_text items;
                   source := lit "captions";
                   language := VStr (lit "en");
                   method := lit "youtube-transcript-package" |}
      else None
  | _ => None
  end.

(** ** Tracks of the video page *)

(** A caption track as the video page lists it: language code, address
    of the payload and display name (any value). *)
Record PageTrack := {
  page_languageCode : jsstring;
  page_baseUrl : jsstring;
  page_name : JsVal
}.

Definition page_item (t : PageTrack) : JsVal :=
  VObj [(lit "baseUrl", VStr (page_baseUrl t));
        (lit "name", page_name t);
        (lit "languageCode", VStr (page_languageCode t))].

Definition code_is_en (t : PageTrack) : bool :=
  str_eqb (page_languageCode t) (lit "en").

Definition code_starts_en (t : PageTrack) : bool :=
  startsWith (page_languageCode t) (lit "en").

(** The first track whose code is [en], else the first whose code starts
    with [en], else the first track. *)
Definition page_choice (tracks : list PageTrack) : option PageTrack :=
  match List.find code_is_en tracks with
  | Some t => Some t
  | None =>
      match List.find code_starts_en tracks with
      | Some t => Some t
      | None => hd_error tracks
      end
  end.

Definition page_result (t : PageTrack) (xml : jsstring) : CaptionResult :=
  {| transcript := decode_markup_fallback xml;
     source := lit "captions";
     language := VStr (if nonempty (page_languageCode t)
                       then page_languageCode t else lit "unknown");
     method := lit "timedtext-api" |}.

(** What the request for the payload of a track gives, made as call
    [n]: a payload with a cue that decodes to fifty code units or more. *)
Definition page_answer (P : Platform) (n : nat) (t : PageTrack)
  : option CaptionResult :=
  match served P n (page_baseUrl t) None with
  | Some xml =>
      if negb (List.length (textMatches xml) =? 0)
         && (50 <=? List.length (decode_markup_fallback xml))
      then Some (page_result t xml)
      else None
  | None => None
  end.

(** A track the page-scrape strategy can ask for: one is chosen and its
    address is not empty. *)
Definition page_track (tracks : list PageTrack) : option PageTrack :=
  match page_choice tracks with
  | Some t => if nonempty (page_baseUrl t) then Some t else None
  | None => None
  end.

(** The address of the video page. *)
Definition watch_url (videoId : jsstring) : jsstring :=
  lit "https://www.youtube.com/watch?v=" ++ videoId.

(** The group of the page patterns: the standard pattern, else the
    alternative one. *)
Definition page_group (html : jsstring) : option jsstring :=
  match match_captionTracks html with
  | Some g => Some g
  | None => match_captionTracks_alt html
  end.

(** The listing of the tracks in the video page, asked for as call [n]. *)
Definition page_listing (P : Platform) (n : nat) (videoId : jsstring)
  : option jsstring :=
  match served P n (watch_url videoId) (Some userAgent) with
  | Some html => page_group html
  | None => None
  end.

(** A video whose page lists a French and a British English track; the
    payload of the second is served. *)
Definition page_tracks_json : jsstring :=
  json_lit "[{'baseUrl':'https://www.youtube.com/api/timedtext?v=abcDEF12345&lang=fr','name':{'simpleText':'French'},'languageCode':'fr'},{'baseUrl':'https://www.youtube.com/api/timedtext?v=abcDEF12345&lang=en-GB','name':{'simpleText':'English (United Kingdom)'},'languageCode':'en-GB'}]".

Definition page_tracks : list PageTrack :=
  [ {| page_languageCode := lit "fr";
       page_baseUrl := lit "https://www.youtube.com/api/timedtext?v=abcDEF12345&lang=fr";
       page_name := VObj [(lit "simpleText", VStr (lit "French"))] |};
    {| page_languageCode := lit "en-GB";
       page_baseUrl := lit "https://www.youtube.com/api/timedtext?v=abcDEF12345&lang=en-GB";
       page_name := VObj [(lit "simpleText",
                           VStr (lit "English (United Kingdom)"))] |} ].

Definition page_html : jsstring :=
  lit "<html><script>var ytInitialPlayerResponse = "
  ++ json_lit "{'captions':{'playerCaptionsTracklistRenderer':{'captionTracks':"
  ++ page_tracks_json ++ json_lit ",'audioTracks':[]}}};"
  ++ lit "</script></html>".

Definition page_video : Platform :=
  {| fetch := fun _ url _ =>
       if startsWith url (lit "https://www.youtube.com/watch?v=")
       then Ok {| ok := true; status := 200; body := Ok page_html |}
       else if str_eqb url (lit "https://www.youtube.com/api/timedtext?v=abcDEF12345&lang=en-GB")
       then Ok {| ok := true; status := 200; body := Ok srv3_body |}
       else Ok {| ok := false; status := 404; body := Ok [] |};
     import_youtube_transcript := fun _ => rejected;
     fetchTranscript := fun _ _ _ => rejected;
     JSON_parse := fun s =>
       if str_eqb s page_tracks_json
       then Some (VArr (List.map page_item page_tracks)) else None;
     ToString_other := fun _ => lit "[object Object]" |}.

(** ** Payloads of the structured-segment format *)

(** A segment with its text, and an event with its segments, or without
    any (an event that only opens a window). *)
Definition seg_item (utf8 : jsstring) : JsVal :=
  VObj [(lit "utf8", VStr utf8)].

Definition event_item (e : option (list jsstring)) : JsVal :=
  match e with
  | Some segs => VObj [(lit "segs", VArr (List.map seg_item segs))]
  | None => VObj []
  end.

(** The texts of the events that have segments: the texts of the
    segments, put together and trimmed. *)
Definition event_texts (events : list (option (list jsstring)))
  : list jsstring :=
  flat_map (fun e => match e with
                     | Some segs => [trim (List.concat segs)]
                     | None => []
                     end) events.

Definition json3_text (events : list (option (list jsstring))) : jsstring :=
  trim (collapse_spaces (newlines_to_spaces
          (join [space] (List.filter nonempty (event_texts events))))).

(** A parser that reads every payload as two events with segments and
    one without. *)
Definition spoken_events : list (option (list jsstring)) :=
  [ Some [lit "hello "; lit "everyone"]; None; Some [[newline]];
    Some [lit "welcome"; []; lit " back"] ].

Definition json3_parser : Platform :=
  {| fetch := fun _ _ _ => rejected;
     import_youtube_transcript := fun _ => rejected;
     fetchTranscript := fun _ _ _ => rejected;
     JSON_parse := fun _ =>
       Some (VObj [(lit "wireMagic", VStr (lit "pb3"));
                   (lit "events", VArr (List.map event_item spoken_events))]);
     ToString_other := fun _ => lit "[object Object]" |}.

(** ** Inputs of the identifier parser *)

(** The code unit [y], with which each URL shape starts. *)
Definition letter_y : code_unit := 121%N.

(** What may follow an identifier in a URL: nothing, or parameters that
    start with a code unit outside the class of the identifier. *)
Definition ends_identifier (after : jsstring) : Prop :=
  after = [] \/ exists c rest, after = c :: rest /\ isIdChar c = false.

(** The URL shape at the start of [s] is the leftmost of [before ++ s]:
    no shape followed by a code unit of an identifier starts in
    [before]. *)
Definition leftmost_shape (before s : jsstring) : Prop :=
  forall before' shape' c rest,
    In shape' url_shapes -> isIdChar c = true ->
    before ++ s = before' ++ shape' ++ c :: rest ->
    List.length before <= List.length before'.


(** ** The group of the page patterns *)

Definition closing_bracket : code_unit := 93%N.

(** The class of the lazy stretch of the group: any code unit but the
    closing bracket and, without the s flag, but a line terminator. *)
Definition group_class (dotAll : bool) (c : code_unit) : bool :=
  negb (N.eqb c 93) && (dotAll || negb (isLineTerminator c)).

Definition holds_line_terminator (s : jsstring) : bool :=
  existsb isLineTerminator s.

(** ** The markers of the analyzer *)

Definition capital_I : code_unit := 73%N.

(* ================================================================== *)
(** * The endpoints of the server ([index.tsx]) *)
(* ================================================================== *)

(** ** [get-transcript]: the text that is returned

    The part of the handler from the call of [extractCaptions] to the
    statistics, without the lines it writes to the console. *)

(** [videoInfo], as far as the text depends on it. [description] is
    [item.snippet.description || ''], a string in every answer of the
    Data API; [views] is [parseInt(videoInfo.viewCount).toLocaleString()],
    as the platform renders it. *)
Record VideoInfo := {
  title : JsVal;
  description : jsstring;
  channelTitle : JsVal;
  views : jsstring
}.

(** The variables [transcript], [captionsAvailable], [usedDescription]
    and [source] of the handler. *)
Record Content := {
  content_transcript : jsstring;
  captionsAvailable : bool;
  usedDescription : bool;
  content_source : jsstring
}.

(** The text made of the metadata of the video (a template literal). *)
Definition metadata_text (P : Platform) (videoInfo : VideoInfo) : jsstring :=
  lit "Title: " ++ ToString P (title videoInfo)
  ++ [newline; newline] ++ lit "Channel: " ++ ToString P (channelTitle videoInfo)
  ++ [newline; newline] ++ lit "Description: "
  ++ (if nonempty (description videoInfo) then description videoInfo
      else lit "No description available.")
  ++ [newline; newline] ++ lit "This video has been viewed "
  ++ views videoInfo ++ lit " times.".

(** The text of the answer: the captions when they make more than a
    hundred code units, else the description when it makes more than two
    hundred, else the metadata; [None] is the answer 404 for a text of
    metadata shorter than a hundred code units. *)
Definition content (P : Platform) (captionResult : option CaptionResult)
           (videoInfo : VideoInfo) : option Content :=
  let initially :=
    {| content_transcript := []; captionsAvailable := false;
       usedDescription := false; content_source := [] |} in
  let with_captions :=
    match captionResult with
    | Some r =>
        if 100 <? List.length (transcript r)
        then {| content_transcript := transcript r; captionsAvailable := true;
                usedDescription := false; content_source := source r |}
        else initially
    | None => initially
    end in
  if negb (nonempty (content_transcript with_captions))
     || (List.length (content_transcript with_captions) <? 100)
  then
    if nonempty (description videoInfo)
       && (200 <? List.length (description videoInfo))
    then Some {| content_transcript := description videoInfo;
                 captionsAvailable := false;
                 usedDescription := true;
                 content_source := lit "description" |}
    else
      let transcript := metadata_text P videoInfo in
      if List.length transcript <? 100 then None
      else Some {| content_transcript := transcript;
                   captionsAvailable := false;
                   usedDescription := true;
                   content_source := lit "metadata" |}
  else Some with_captions.

(** [transcript.split(/\s+/).filter(w => w.length > 0).length], the
    [wordCount] of the answer. *)
Definition content_wordCount (transcript : jsstring) : nat :=
  List.length (List.filter nonempty (split_spaces transcript)).

(** ** [summarize]: the summaries made without the language model *)

(** The class [[.!?]]. *)
Definition isEnder (c : code_unit) : bool :=
  N.eqb c 46 || N.eqb c 33 || N.eqb c 63.

(** [/[.!?]+/]: a maximal run of sentence enders. *)
Definition re_enders (_ : option code_unit) (s : jsstring)
  : option (unit * nat) :=
  match span isEnder s with
  | ([], _) => None
  | (run, _) => Some (tt, List.length run)
  end.

(** [arr.slice(0, n)]. *)
Definition slice0 {A} (n : nat) (l : list A) : list A := firstn n l.

(** [s.length > n]. *)
Definition longer_than (n : nat) (s : jsstring) : bool := n <? List.length s.

Record Summary := {
  summary : jsstring;
  keyPoints : list jsstring;
  isAiGenerated : bool
}.

(** Without a key for the language model:
    [transcript.split(/[.!?]+/).map(s => s.trim()).filter(s => s.length > 20)]. *)
Definition sentences (transcript : jsstring) : list jsstring :=
  List.filter (longer_than 20) (List.map trim (split re_enders transcript)).

(** The answer without a key for the language model. *)
Definition extractive_summary (transcript : jsstring) : Summary :=
  let sentences := sentences transcript in
  let summary :=
    join (lit ". ") (slice0 (Nat.min 5 (List.length sentences)) sentences)
    ++ lit "." in
  let keyPoints :=
    List.filter (longer_than 0)
      (List.map trim (slice0 (Nat.min 6 (List.length sentences)) sentences)) in
  {| summary := if nonempty summary then summary
                else firstn 300 transcript ++ lit "...";
     keyPoints := if 0 <? List.length keyPoints then keyPoints
                  else [lit "Summary not available"];
     isAiGenerated := false |}.

(** The answer when the language model answers with an error:
    [transcript.split(/[.!?]+/).filter(s => s.trim().length > 20)], the
    sentences not trimmed before they are joined. *)
Definition fallback_summary (transcript : jsstring) : Summary :=
  let sentences :=
    List.filter (fun s => longer_than 20 (trim s)) (split re_enders transcript) in
  {| summary := join (lit ". ") (slice0 5 sentences) ++ lit ".";
     keyPoints := List.map trim (slice0 5 sentences);
     isAiGenerated := false |}.

(** The metadata of a video without a description. *)
Definition plain_info : VideoInfo :=
  {| title := VStr (lit "Climate change explained");
     description := [];
     channelTitle := VStr (lit "Science");
     views := lit "1,234" |}.

(** ** [summarize]: the reading of the answer of the language model

    [content] is [data.choices[0].message.content], a string. *)

(** The class [\d]. *)
Definition isDigit (c : code_unit) : bool := in_range 48 57 c.

(** [/^\d+\./] on a line: what follows the full stop, when the line
    starts with digits and a full stop. *)
Definition numbered (line : jsstring) : option jsstring :=
  match span isDigit line with
  | ([], _) => None
  | (_, 46%N :: rest) => Some rest
  | _ => None
  end.

(** A code unit under the i flag, for a pattern of lower-case letters:
    the capital letters A to Z match as their lower-case letters. *)
Definition fold_case (c : code_unit) : code_unit :=
  if in_range 65 90 c then (c + 32)%N else c.

(** A literal of lower-case letters at the start of [s], under the i
    flag. *)
Fixpoint strip_prefix_i (p s : jsstring) : option jsstring :=
  match p, s with
  | [], _ => Some s
  | a :: p', b :: s' =>
      if N.eqb a (fold_case b) then strip_prefix_i p' s' else None
  | _ :: _, [] => None
  end.

(** The alternatives of [/^(key points?|main points?|takeaways?):/i],
    each without its optional [s]. *)
Definition section_words : list jsstring :=
  [ lit "key point"; lit "main point"; lit "takeaway" ].

Fixpoint section_alternatives (alts : list jsstring) (line : jsstring) : bool :=
  match alts with
  | [] => false
  | a :: alts' =>
      match strip_prefix_i a line with
      | Some r =>
          match strip_prefix_i (lit "s") r with
          | Some r' => startsWith r' (lit ":")
          | None => false
          end
          || startsWith r (lit ":")
          || section_alternatives alts' line
      | None => section_alternatives alts' line
      end
  end.

(** [line.match(/^(key points?|main points?|takeaways?):/i)
       || line.match(/^\d+\./)], as a truth value. *)
Definition starts_keyPoints (line : jsstring) : bool :=
  section_alternatives section_words line
  || match numbered line with Some _ => true | None => false end.

(** The bullet [U+2022]. *)
Definition bullet : code_unit := 8226%N.

(** [line.startsWith('-') || line.startsWith(bullet)], and
    [line.replace(/^[-bullet]\s*/, '')] on such a line. *)
Definition bulleted (line : jsstring) : option jsstring :=
  match line with
  | c :: rest =>
      if N.eqb c 45 || N.eqb c bullet then Some (snd (span isSpace rest))
      else None
  | [] => None
  end.

(** The variables of the loop over the lines. *)
Record Reading := {
  read_summary : jsstring;
  read_keyPoints : list jsstring;
  foundKeyPointsSection : bool
}.

(** The body of the loop, for one line. *)
Definition read_line (r : Reading) (line : jsstring) : Reading :=
  let found := foundKeyPointsSection r || starts_keyPoints line in
  match numbered line with
  | Some rest =>
      if found then
        (* [line.replace(/^\d+\.\s*/, '').trim()] *)
        let point := trim (snd (span isSpace rest)) in
        {| read_summary := read_summary r;
           read_keyPoints :=
             if longer_than 10 point then read_keyPoints r ++ [point]
             else read_keyPoints r;
           foundKeyPointsSection := found |}
      else
        {| read_summary :=
             if longer_than 20 line then read_summary r ++ line ++ [space]
             else read_summary r;
           read_keyPoints := read_keyPoints r;
           foundKeyPointsSection := found |}
  | None =>
      match (if found then bulleted line else None) with
      | Some rest =>
          let point := trim rest in
          {| read_summary := read_summary r;
             read_keyPoints :=
               if longer_than 10 point then read_keyPoints r ++ [point]
               else read_keyPoints r;
             foundKeyPointsSection := found |}
      | None =>
          {| read_summary :=
               if negb found && longer_than 20 line
               then read_summary r ++ line ++ [space]
               else read_summary r;
             read_keyPoints := read_keyPoints r;
             foundKeyPointsSection := found |}
      end
  end.

(** [content.split('\n').map(l => l.trim()).filter(l => l.length > 0)] *)
Definition content_lines (content : jsstring) : list jsstring :=
  List.filter (longer_than 0)
    (List.map trim (split (re_literal [newline]) content)).

(** The answer made of the answer of the language model. *)
Definition read_content (content : jsstring) : Summary :=
  let r := List.fold_left read_line (content_lines content)
             {| read_summary := []; read_keyPoints := [];
                foundKeyPointsSection := false |} in
  let parsed := negb (List.length (read_keyPoints r) =? 0) in
  let summary := if parsed then read_summary r else firstn 500 content in
  let keyPoints :=
    if parsed then read_keyPoints r
    else read_keyPoints r
         ++ List.map trim
              (slice0 5 (List.filter (fun s => longer_than 20 (trim s))
                                     (split re_enders content))) in
  let summary :=
    if negb (nonempty summary) || (List.length summary <? 20)
    then firstn 300 content else summary in
  {| summary := trim summary;
     keyPoints := List.filter (longer_than 0) keyPoints;
     isAiGenerated := true |}.

(** The lines before the key points, the point of a line, and the lines
    from the first that starts the key points on. *)
Fixpoint lines_before (ls : list jsstring) : list jsstring :=
  match ls with
  | [] => []
  | l :: ls' => if starts_keyPoints l then [] else l :: lines_before ls'
  end.

Fixpoint lines_from (ls : list jsstring) : list jsstring :=
  match ls with
  | [] => []
  | l :: ls' => if starts_keyPoints l then ls else lines_from ls'
  end.

Definition point_of (line : jsstring) : option jsstring :=
  match numbered line with
  | Some rest => Some (trim (snd (span isSpace rest)))
  | None =>
      match bulleted line with
      | Some rest => Some (trim rest)
      | None => None
      end
  end.

Definition points_of (ls : list jsstring) : list jsstring :=
  List.filter (longer_than 10)
    (flat_map (fun l => match point_of l with Some p => [p] | None => [] end) ls).

Definition summary_of (ls : list jsstring) : jsstring :=
  flat_map (fun l => l ++ [space]) (List.filter (longer_than 20) ls).

(* ================================================================== *)
(** * Rules of the monad *)
(* ================================================================== *)

Local Open Scope js_scope.

Section MonadRules.
Context {A B : Type}.

Lemma post_ret (a : A) (Q : A -> Prop) : Q a -> post (ret a) Q.
Proof. intros H st a' st' E. inversion E; subst; exact H. Qed.

Lemma post_bind (m : M A) (k : A -> M B) (Q : B -> Prop) :
  (forall a, post (k a) Q) -> post (bind m k) Q.
Proof.
  intros H st b st' E. unfold bind in E.
  destruct (m st) as [[a|e] s1]; [eapply H; eauto | discriminate].
Qed.

Lemma post_bind_with (R : A -> Prop) (m : M A) (k : A -> M B)
      (Q : B -> Prop) :
  post m R -> (forall a, R a -> post (k a) Q) -> post (bind m k) Q.
Proof.
  intros Hm H st b st' E. unfold bind in E.
  destruct (m st) as [[a|e] s1] eqn:E1; [ | discriminate].
  eapply H; eauto.
Qed.

Lemma post_try (m : M A) (h : Error -> M A) (Q : A -> Prop) :
  post m Q -> (forall e, post (h e) Q) -> post (try_catch m h) Q.
Proof.
  intros Hm Hh st a st' E. unfold try_catch in E.
  destruct (m st) as [[a0|e] s1] eqn:E1.
  - inversion E; subst. eapply Hm; eauto.
  - eapply Hh; eauto.
Qed.

Lemma nothrow_ret (a : A) : nothrow (ret a).
Proof. intros st; eexists _, _; reflexivity. Qed.

Lemma nothrow_bind (m : M A) (k : A -> M B) :
  nothrow m -> (forall a, nothrow (k a)) -> nothrow (bind m k).
Proof.
  intros Hm Hk st. destruct (Hm st) as (a & s1 & E).
  destruct (Hk a s1) as (b & s2 & E2).
  exists b, s2. unfold bind. rewrite E. exact E2.
Qed.

Lemma nothrow_try (m : M A) (h : Error -> M A) :
  (forall e, nothrow (h e)) -> nothrow (try_catch m h).
Proof.
  intros Hh st. unfold try_catch.
  destruct (m st) as [[a|e] s1]; [eexists _, _; reflexivity | apply Hh].
Qed.

Lemma enters_nothing_ret (a : A) : enters_nothing (ret a).
Proof. intros st r st' E. inversion E; reflexivity. Qed.

Lemma enters_nothing_lift (r : Result A) : enters_nothing (lift r).
Proof. intros st r' st' E. inversion E; reflexivity. Qed.

Lemma enters_nothing_call (f : nat -> Result A) : enters_nothing (call f).
Proof. intros st r' st' E. inversion E; reflexivity. Qed.

Lemma enters_nothing_bind (m : M A) (k : A -> M B) :
  enters_nothing m -> (forall a, enters_nothing (k a)) ->
  enters_nothing (bind m k).
Proof.
  intros Hm Hk st r st' E. unfold bind in E.
  destruct (m st) as [[a|e] s1] eqn:E1.
  - rewrite (Hk _ _ _ _ E). eapply Hm; eauto.
  - inversion E; subst. eapply Hm; eauto.
Qed.

Lemma enters_nothing_try (m : M A) (h : Error -> M A) :
  enters_nothing m -> (forall e, enters_nothing (h e)) ->
  enters_nothing (try_catch m h).
Proof.
  intros Hm Hh st r st' E. unfold try_catch in E.
  destruct (m st) as [[a|e] s1] eqn:E1.
  - inversion E; subst. eapply Hm; eauto.
  - rewrite (Hh _ _ _ _ E). eapply Hm; eauto.
Qed.

Lemma agree_refl_ret (a : A) : agree (ret a) (ret a).
Proof. intros s1 s2 H. split; [reflexivity | exact H]. Qed.

Lemma agree_lift (r : Result A) : agree (lift r) (lift r).
Proof. intros s1 s2 H. split; [reflexivity | exact H]. Qed.

Lemma agree_call (f : nat -> Result A) : agree (call f) (call f).
Proof.
  intros s1 s2 [Hc Hi]. unfold call, same_run; simpl.
  rewrite Hc, Hi. auto.
Qed.

Lemma agree_bind (m1 m2 : M A) (k1 k2 : A -> M B) :
  agree m1 m2 -> (forall a, agree (k1 a) (k2 a)) ->
  agree (bind m1 k1) (bind m2 k2).
Proof.
  intros Hm Hk s1 s2 H. destruct (Hm s1 s2 H) as [E R].
  unfold bind.
  destruct (m1 s1) as [r1 t1], (m2 s2) as [r2 t2]; simpl in *; subst r2.
  destruct r1 as [a|e]; [apply Hk; exact R | split; [reflexivity | exact R]].
Qed.

Lemma agree_try (m1 m2 : M A) (h1 h2 : Error -> M A) :
  agree m1 m2 -> (forall e, agree (h1 e) (h2 e)) ->
  agree (try_catch m1 h1) (try_catch m2 h2).
Proof.
  intros Hm Hh s1 s2 H. destruct (Hm s1 s2 H) as [E R].
  unfold try_catch.
  destruct (m1 s1) as [r1 t1], (m2 s2) as [r2 t2]; simpl in *; subst r2.
  destruct r1 as [a|e]; [split; [reflexivity | exact R] | apply Hh; exact R].
Qed.
End MonadRules.

Lemma nothrow_log (line : list LogPart) : nothrow (console_log line).
Proof. intros st; eexists _, _; reflexivity. Qed.

Lemma nothrow_enter (s : Strategy) : nothrow (enter s).
Proof. intros st; eexists _, _; reflexivity. Qed.

Lemma enters_nothing_log (line : list LogPart) : enters_nothing (console_log line).
Proof. intros st r st' E. inversion E; reflexivity. Qed.

(** Two console lines, whatever they say, leave the run the same. *)
Lemma agree_log (l1 l2 : list LogPart) : agree (console_log l1) (console_log l2).
Proof. intros s1 s2 [Hc Hi]. unfold console_log, same_run; simpl. auto. Qed.

Lemma agree_enter (s : Strategy) : agree (enter s) (enter s).
Proof.
  intros s1 s2 [Hc Hi]. unfold enter, same_run; simpl. rewrite Hi. auto.
Qed.

Lemma same_run_refl (s : State) : same_run s s.
Proof. split; reflexivity. Qed.

Ltac post_step :=
  lazymatch goal with
  | |- post (ret _) _ => apply post_ret
  | |- post (bind _ _) _ => apply post_bind; intros
  | |- post (try_catch _ _) _ => apply post_try; [ | intros ]
  | |- post (if ?c then _ else _) _ => destruct c eqn:?
  | |- post (match ?x with _ => _ end) _ => destruct x eqn:?
  end.

Ltac nothrow_step :=
  lazymatch goal with
  | |- nothrow (ret _) => apply nothrow_ret
  | |- nothrow (console_log _) => apply nothrow_log
  | |- nothrow (enter _) => apply nothrow_enter
  | |- nothrow (bind _ _) => apply nothrow_bind; [ | intros ]
  | |- nothrow (try_catch _ _) => apply nothrow_try; intros
  | |- nothrow (if ?c then _ else _) => destruct c
  | |- nothrow (match ?x with _ => _ end) => destruct x
  end.

Ltac frame_step :=
  lazymatch goal with
  | |- enters_nothing (ret _) => apply enters_nothing_ret
  | |- enters_nothing (lift _) => apply enters_nothing_lift
  | |- enters_nothing (call _) => apply enters_nothing_call
  | |- enters_nothing (console_log _) => apply enters_nothing_log
  | |- enters_nothing (bind _ _) => apply enters_nothing_bind; [ | intros ]
  | |- enters_nothing (try_catch _ _) => apply enters_nothing_try; [ | intros ]
  | |- enters_nothing (if ?c then _ else _) => destruct c
  | |- enters_nothing (match ?x with _ => _ end) => destruct x
  end.

Ltac agree_step :=
  lazymatch goal with
  | |- agree (ret _) (ret _) => apply agree_refl_ret
  | |- agree (lift _) (lift _) => apply agree_lift
  | |- agree (call _) (call _) => apply agree_call
  | |- agree (enter _) (enter _) => apply agree_enter
  | |- agree (console_log _) (console_log _) => apply agree_log
  | |- agree (bind _ _) (bind _ _) => apply agree_bind; [ | intros ]
  | |- agree (try_catch _ _) (try_catch _ _) => apply agree_try; [ | intros ]
  | |- agree (if ?c then _ else _) (if ?c then _ else _) => destruct c
  | |- agree (match ?x with _ => _ end) (match ?x with _ => _ end) => destruct x
  end.

(* ================================================================== *)
(** * The strategies, one by one *)
(* ================================================================== *)

Section StrategyFacts.
Variable P : Platform.
Variable analyze : jsstring -> QualityAssessment.

(** ** No exception leaves a strategy *)

Lemma nothrow_banner (name : string) : nothrow (banner name).
Proof. unfold banner. repeat nothrow_step. Qed.

Lemma nothrow_DataAPI videoId apiKey :
  nothrow (extractWithYouTubeDataAPI P analyze videoId apiKey).
Proof. unfold extractWithYouTubeDataAPI. repeat nothrow_step. Qed.

Lemma nothrow_TranscriptPackage videoId :
  nothrow (extractWithYoutubeTranscript P analyze videoId).
Proof. unfold extractWithYoutubeTranscript. repeat nothrow_step. Qed.

Lemma nothrow_TimedTextAPI videoId :
  nothrow (extractWithTimedTextAPI P videoId).
Proof. unfold extractWithTimedTextAPI. repeat nothrow_step. Qed.

Lemma nothrow_LanguageFallback videoId :
  nothrow (extractWithLanguageFallback P videoId).
Proof. unfold extractWithLanguageFallback. repeat nothrow_step. Qed.

Lemma nothrow_try_primary videoId apiKey :
  nothrow (try_primary P analyze videoId apiKey).
Proof.
  unfold try_primary.
  destruct apiKey as [[|c key]|]; repeat nothrow_step;
    auto using nothrow_DataAPI, nothrow_banner.
Qed.

Lemma nothrow_extractCaptions videoId apiKey :
  nothrow (extractCaptions P analyze videoId apiKey).
Proof.
  unfold extractCaptions, header.
  repeat nothrow_step;
    auto using nothrow_try_primary, nothrow_TranscriptPackage,
      nothrow_TimedTextAPI, nothrow_LanguageFallback, nothrow_banner.
Qed.
End StrategyFacts.

Ltac post_close :=
  unfold accepted, tagged_en_package; cbn [transcript source language method];
  try exact I;
  repeat match goal with
         | H : (_ <? _) = true |- _ => apply Nat.ltb_lt in H
         | H : (_ <? _) = false |- _ => apply Nat.ltb_ge in H
         end;
  repeat split; try reflexivity; try lia.

Ltac post_auto := cbv zeta; repeat post_step; try solve [post_close].

(** A loop turn or a strategy whose result is handed on as it is. *)
Lemma post_forward {A} (m : M (option A)) (rest : M (option A))
      (Q : option A -> Prop) :
  post m Q -> post rest Q ->
  post (bind m (fun r => match r with
                         | Some x => ret (Some x)
                         | None => rest
                         end)) Q.
Proof.
  intros Hm Hr. apply post_bind_with with (R := Q); [exact Hm | ].
  intros [x|] Hx; [apply post_ret; exact Hx | exact Hr].
Qed.

Section StrategyResults.
Variable P : Platform.
Variable analyze : jsstring -> QualityAssessment.

(** ** What a strategy returns *)

Lemma post_try_format videoId language trackKind list_status format :
  post (try_format P analyze videoId language trackKind list_status format)
       (accepted 51).
Proof. unfold try_format. post_auto. Qed.

Lemma post_try_formats videoId language trackKind list_status fs :
  post (try_formats P analyze videoId language trackKind list_status fs)
       (accepted 51).
Proof.
  induction fs as [|format fs IH]; cbn [try_formats].
  - post_auto.
  - apply post_forward; [apply post_try_format | exact IH].
Qed.

Lemma post_DataAPI videoId apiKey :
  post (extractWithYouTubeDataAPI P analyze videoId apiKey) (accepted 51).
Proof.
  unfold extractWithYouTubeDataAPI. cbv zeta.
  repeat first [ apply post_forward; [apply post_try_formats | ]
               | post_step ];
    post_close.
Qed.

Lemma post_TranscriptPackage_accepted videoId :
  post (extractWithYoutubeTranscript P analyze videoId) (accepted 50).
Proof. unfold extractWithYoutubeTranscript. post_auto. Qed.

Lemma post_TranscriptPackage_tagged videoId :
  post (extractWithYoutubeTranscript P analyze videoId) tagged_en_package.
Proof. unfold extractWithYoutubeTranscript. post_auto. Qed.

Lemma post_parseCaptionTracks tracksJson videoId pattern :
  post (parseCaptionTracks P tracksJson videoId pattern) (accepted 50).
Proof. unfold parseCaptionTracks. post_auto. Qed.

Lemma post_TimedTextAPI videoId :
  post (extractWithTimedTextAPI P videoId) (accepted 50).
Proof.
  unfold extractWithTimedTextAPI. post_auto;
    apply post_parseCaptionTracks.
Qed.

Lemma post_try_language videoId lang :
  post (try_language P videoId lang) (accepted 50).
Proof. unfold try_language. post_auto. Qed.

Lemma post_try_languages videoId ls :
  post (try_languages P videoId ls) (accepted 50).
Proof.
  induction ls as [|lang ls IH]; cbn [try_languages].
  - post_auto.
  - apply post_forward; [apply post_try_language | exact IH].
Qed.

Lemma post_LanguageFallback videoId :
  post (extractWithLanguageFallback P videoId) (accepted 50).
Proof.
  unfold extractWithLanguageFallback.
  apply post_bind; intros _. apply post_try; [ | intros; post_auto ].
  apply post_bind; intros _.
  apply post_forward; [apply post_try_languages | post_auto].
Qed.

Lemma accepted_weaken r : accepted 51 r -> accepted 50 r.
Proof. destruct r; simpl; [intros [H1 H2]; split; [lia | exact H2] | auto]. Qed.

Lemma post_weaken {A} (m : M A) (Q1 Q2 : A -> Prop) :
  (forall a, Q1 a -> Q2 a) -> post m Q1 -> post m Q2.
Proof. intros H Hm st a st' E. apply H. eapply Hm; eauto. Qed.

(** A strategy's result, announced by the banner and returned. *)
Lemma post_announce (m rest : M (option CaptionResult)) name Q :
  post m Q -> post rest Q ->
  post (bind m (fun result =>
                  match result with
                  | Some r => bind (banner name) (fun _ => ret (Some r))
                  | None => rest
                  end)) Q.
Proof.
  intros Hm Hr. apply post_bind_with with (R := Q); [exact Hm | ].
  intros [x|] Hx; [ | exact Hr].
  apply post_bind; intros _. apply post_ret; exact Hx.
Qed.

Lemma post_try_primary videoId apiKey :
  post (try_primary P analyze videoId apiKey) (accepted 51).
Proof.
  unfold try_primary. destruct apiKey as [[|c key]|]; try solve [post_auto].
  apply post_announce; [apply post_DataAPI | post_auto].
Qed.

Lemma post_extractCaptions videoId apiKey :
  post (extractCaptions P analyze videoId apiKey) (accepted 50).
Proof.
  unfold extractCaptions.
  apply post_bind; intros _.
  apply post_forward.
  { eapply post_weaken; [apply accepted_weaken | apply post_try_primary]. }
  apply post_announce; [apply post_TranscriptPackage_accepted | ].
  apply post_announce; [apply post_TimedTextAPI | ].
  apply post_announce; [apply post_LanguageFallback | ].
  post_auto.
Qed.
End StrategyResults.

Section StrategyRuns.
Variable P : Platform.

(** ** A strategy enters no other strategy *)

Lemma enters_nothing_forEachM {A} (f : A -> nat -> M unit) l :
  (forall x i, enters_nothing (f x i)) ->
  forall i, enters_nothing (forEachM f i l).
Proof.
  intros Hf. induction l as [|x l IH]; intros i; cbn [forEachM].
  - apply enters_nothing_ret.
  - apply enters_nothing_bind; [apply Hf | intros; apply IH].
Qed.

Lemma enters_nothing_log_quality analyze t b :
  enters_nothing (log_quality analyze t b).
Proof. unfold log_quality. cbv zeta. repeat frame_step. Qed.

Lemma enters_nothing_try_formats analyze videoId language trackKind n fs :
  enters_nothing (try_formats P analyze videoId language trackKind n fs).
Proof.
  induction fs as [|format fs IH]; cbn [try_formats].
  - apply enters_nothing_ret.
  - apply enters_nothing_bind; [ | intros [r|]; [frame_step | exact IH]].
    unfold try_format, Fetch. cbv zeta.
    repeat first [apply enters_nothing_log_quality | frame_step].
Qed.

Lemma enters_nothing_banner name : enters_nothing (banner name).
Proof. unfold banner. repeat frame_step. Qed.

(** The primary strategy enters itself and nothing else. *)
Lemma invocations_DataAPI analyze videoId apiKey st r st' :
  extractWithYouTubeDataAPI P analyze videoId apiKey st = (r, st') ->
  invocations st' = DataAPI :: invocations st.
Proof.
  unfold extractWithYouTubeDataAPI, Fetch. cbv zeta.
  unfold bind at 1. cbn [enter].
  match goal with
  | |- try_catch ?m ?h ?s = _ -> _ =>
      assert (F : enters_nothing (try_catch m h)); [ | intros E; exact (F _ _ _ E)]
  end.
  repeat first [ apply enters_nothing_try_formats
               | apply enters_nothing_forEachM; intros
               | frame_step ].
Qed.

(** ** The analyzer decides nothing but console lines *)

Variables analyze1 analyze2 : jsstring -> QualityAssessment.

Lemma agree_log_quality t b :
  agree (log_quality analyze1 t b) (log_quality analyze2 t b).
Proof. unfold log_quality. cbv zeta. repeat agree_step. Qed.

Lemma agree_forEachM {A} (f : A -> nat -> M unit) l :
  (forall x i, agree (f x i) (f x i)) ->
  forall i, agree (forEachM f i l) (forEachM f i l).
Proof.
  intros Hf. induction l as [|x l IH]; intros i; cbn [forEachM].
  - apply agree_refl_ret.
  - apply agree_bind; [apply Hf | intros; apply IH].
Qed.

Lemma agree_try_formats videoId language trackKind n fs :
  agree (try_formats P analyze1 videoId language trackKind n fs)
        (try_formats P analyze2 videoId language trackKind n fs).
Proof.
  induction fs as [|format fs IH]; cbn [try_formats].
  - apply agree_refl_ret.
  - apply agree_bind; [ | intros [r|]; [agree_step | exact IH]].
    unfold try_format, Fetch. cbv zeta.
    repeat first [apply agree_log_quality | agree_step].
Qed.

Lemma agree_DataAPI videoId apiKey :
  agree (extractWithYouTubeDataAPI P analyze1 videoId apiKey)
        (extractWithYouTubeDataAPI P analyze2 videoId apiKey).
Proof.
  unfold extractWithYouTubeDataAPI, Fetch. cbv zeta.
  repeat first [ apply agree_try_formats
               | apply agree_forEachM; intros
               | agree_step ].
Qed.

Lemma agree_TranscriptPackage videoId :
  agree (extractWithYoutubeTranscript P analyze1 videoId)
        (extractWithYoutubeTranscript P analyze2 videoId).
Proof.
  unfold extractWithYoutubeTranscript. cbv zeta.
  repeat first [apply agree_log_quality | agree_step].
Qed.

Lemma agree_TimedTextAPI videoId :
  agree (extractWithTimedTextAPI P videoId) (extractWithTimedTextAPI P videoId).
Proof.
  unfold extractWithTimedTextAPI, parseCaptionTracks, Fetch. cbv zeta.
  repeat agree_step.
Qed.

Lemma agree_try_languages videoId ls :
  agree (try_languages P videoId ls) (try_languages P videoId ls).
Proof.
  induction ls as [|lang ls IH]; cbn [try_languages].
  - apply agree_refl_ret.
  - apply agree_bind; [ | intros [r|]; [agree_step | exact IH]].
    unfold try_language, Fetch. cbv zeta. repeat agree_step.
Qed.

Lemma agree_LanguageFallback videoId :
  agree (extractWithLanguageFallback P videoId)
        (extractWithLanguageFallback P videoId).
Proof.
  unfold extractWithLanguageFallback.
  repeat first [apply agree_try_languages | agree_step].
Qed.

Lemma agree_banner name : agree (banner name) (banner name).
Proof. unfold banner. repeat agree_step. Qed.

Lemma agree_extractCaptions videoId apiKey :
  agree (extractCaptions P analyze1 videoId apiKey)
        (extractCaptions P analyze2 videoId apiKey).
Proof.
  unfold extractCaptions, header, try_primary.
  repeat lazymatch goal with
         | |- agree (extractWithYouTubeDataAPI _ _ _ _) _ =>
             apply agree_DataAPI
         | |- agree (extractWithYoutubeTranscript _ _ _) _ =>
             apply agree_TranscriptPackage
         | |- agree (extractWithTimedTextAPI _ _) _ =>
             apply agree_TimedTextAPI
         | |- agree (extractWithLanguageFallback _ _) _ =>
             apply agree_LanguageFallback
         | |- agree (banner _) _ => apply agree_banner
         | |- _ => agree_step
         end.
Qed.
End StrategyRuns.

(* ================================================================== *)
(** * Properties of the orchestrator *)
(* ================================================================== *)

Lemma bind_Ok {A B} (m : M A) (k : A -> M B) st a st' :
  m st = (Ok a, st') -> bind m k st = k a st'.
Proof. intros E. unfold bind. rewrite E. reflexivity. Qed.

Arguments bind_Ok {A B m k st a st'} _.

Lemma header_run videoId apiKey st :
  header videoId apiKey st = (Ok tt, snd (header videoId apiKey st)).
Proof. reflexivity. Qed.

(** Every transcript [extractCaptions] returns has at least fifty code
    units and the source [captions]; one of the primary strategy has
    more than fifty (lemma [post_DataAPI]). *)
Lemma extractCaptions_accepted P analyze videoId apiKey st c st' :
  extractCaptions P analyze videoId apiKey st = (Ok (Some c), st') ->
  50 <= List.length (transcript c) /\ source c = lit "captions".
Proof. intros E. exact (@post_extractCaptions P analyze videoId apiKey _ _ _ E). Qed.

(** C1, at the failing input: without a key, for a video whose cues join
    into exactly fifty code units, strategy B accepts the transcript and
    [extractCaptions] returns it, tagged [captions], although its length
    is not greater than fifty. *)
Theorem extractCaptions_returns_fifty :
  exists c st',
    extract short_video toLowerCase_ascii (lit "abcDEF12345") None initial
    = (Ok (Some c), st')
    /\ transcript c = fifty
    /\ List.length (transcript c) = 50
    /\ source c = lit "captions"
    /\ method c = lit "youtube-transcript-package".
Proof. eexists _, _. vm_compute. repeat split. Qed.

(** C3, at the failing input: every request over the network is
    rejected, so that the primary strategy, the page strategy and the
    language strategy fail by a network fault whenever they run, and the
    only candidate, the cues of the package, joins into exactly fifty
    code units, a candidate at the threshold. With or without a key,
    [extractCaptions] returns this candidate, where the claim has
    [null]. *)
Theorem extractCaptions_at_threshold :
  (forall n url ua, fetch short_video n url ua = rejected)
  /\ (forall key st,
        fst (extractWithYouTubeDataAPI short_video
               (analyzeTranscriptQuality toLowerCase_ascii)
               (lit "abcDEF12345") key st) = Ok None)
  /\ (forall st,
        fst (extractWithTimedTextAPI short_video (lit "abcDEF12345") st)
        = Ok None)
  /\ (forall st,
        fst (extractWithLanguageFallback short_video (lit "abcDEF12345") st)
        = Ok None)
  /\ (forall n lang,
        fetchTranscript short_video n (lit "abcDEF12345") lang
        = Ok (Some [cue "one two three four five";
                    cue "six seven eight nine ten !"]))
  /\ List.length (cues_text [cue "one two three four five";
                             cue "six seven eight nine ten !"]) = 50
  /\ (exists c st',
        extract short_video toLowerCase_ascii (lit "abcDEF12345") None initial
        = (Ok (Some c), st')
        /\ transcript c = cues_text [cue "one two three four five";
                                     cue "six seven eight nine ten !"])
  /\ (exists c st',
        extract short_video toLowerCase_ascii (lit "abcDEF12345")
                (Some (lit "KEY")) initial
        = (Ok (Some c), st')
        /\ transcript c = cues_text [cue "one two three four five";
                                     cue "six seven eight nine ten !"]).
Proof.
  split; [reflexivity | ]. split; [reflexivity | ].
  split; [reflexivity | ]. split; [reflexivity | ].
  split; [reflexivity | ]. split; [vm_compute; reflexivity | ].
  split; eexists _, _; (split; [vm_compute; reflexivity | ]);
    vm_compute; reflexivity.
Qed.

(** Without network and package, where every call is rejected, the
    result is [null] as well. *)
Lemma extractCaptions_offline :
  fst (extract offline toLowerCase_ascii (lit "abcDEF12345")
               (Some (lit "KEY")) initial) = Ok None.
Proof. vm_compute; reflexivity. Qed.

(** C4: with a key, when the primary strategy returns a result,
    [extractCaptions] returns that result, makes no further call to the
    platform, and the invocation counters of strategies B, C and D stay
    as they were. *)
Theorem extractCaptions_short_circuit P analyze videoId key st r st1 :
  key <> [] ->
  extractWithYouTubeDataAPI P analyze videoId key
    (snd (header videoId (Some key) st)) = (Ok (Some r), st1) ->
  let final := extractCaptions P analyze videoId (Some key) st in
  fst final = Ok (Some r)
  /\ clock (snd final) = clock st1
  /\ invoked DataAPI (snd final) = S (invoked DataAPI st)
  /\ invoked TranscriptPackage (snd final) = invoked TranscriptPackage st
  /\ invoked TimedTextAPI (snd final) = invoked TimedTextAPI st
  /\ invoked LanguageFallback (snd final) = invoked LanguageFallback st.
Proof.
  intros Hkey E final.
  pose proof (invocations_DataAPI _ _ _ _ _ _ _ E) as Hinv.
  destruct key as [|k key]; [contradiction | ].
  assert (F : final = (Ok (Some r),
                       snd (banner "1 (YouTube Data API)" st1))).
  { subst final. unfold extractCaptions.
    rewrite (bind_Ok (header_run videoId (Some (k :: key)) st)).
    unfold try_primary. rewrite (bind_Ok (bind_Ok E)).
    reflexivity. }
  rewrite F. cbn [fst snd]. unfold invoked.
  cbn [banner bind console_log ret snd clock invocations].
  cbn in Hinv. rewrite Hinv. cbn. repeat split; reflexivity.
Qed.

Lemma extractCaptions_short_circuit_witness :
  exists r,
    fst (extract captioned_video toLowerCase_ascii (lit "abcDEF12345")
                 (Some (lit "KEY")) initial) = Ok (Some r)
    /\ method r = lit "youtube-data-api-asr"
    /\ invoked TranscriptPackage
         (snd (extract captioned_video toLowerCase_ascii (lit "abcDEF12345")
                       (Some (lit "KEY")) initial)) = 0.
Proof.
  pose proof (extractCaptions_short_circuit captioned_video
                (analyzeTranscriptQuality toLowerCase_ascii)
                (lit "abcDEF12345") (lit "KEY") initial) as H.
  cbv zeta in H.
  eexists. split; [ | split].
  - unfold extract. eapply H; [discriminate | vm_compute; reflexivity].
  - vm_compute; reflexivity.
  - vm_compute; reflexivity.
Defined.

(** C8: two runs of [extractCaptions] that differ only in the assessment
    function end with the same outcome (the same result, field by field,
    or both [null]), after the same calls to the platform and the same
    strategies; only console lines may differ. *)
Theorem assessment_never_gates P analyze1 analyze2 videoId apiKey st :
  fst (extractCaptions P analyze1 videoId apiKey st)
  = fst (extractCaptions P analyze2 videoId apiKey st)
  /\ same_run (snd (extractCaptions P analyze1 videoId apiKey st))
              (snd (extractCaptions P analyze2 videoId apiKey st)).
Proof. apply agree_extractCaptions. apply same_run_refl. Qed.

(** C10: every result of strategy B has the language [en] and the
    method [youtube-transcript-package], whichever request the package
    answered. *)
Theorem TranscriptPackage_tagged_en P analyze videoId st r st' :
  extractWithYoutubeTranscript P analyze videoId st = (Ok (Some r), st') ->
  language r = VStr (lit "en")
  /\ method r = lit "youtube-transcript-package".
Proof.
  intros E. exact (@post_TranscriptPackage_tagged P analyze videoId _ _ _ E).
Qed.

(** The retry path: the package rejects the request for English, the
    request without a language returns French cues, and the result still
    says [en]. *)
Lemma TranscriptPackage_tagged_en_witness :
  exists r st',
    extractWithYoutubeTranscript french_video
      (analyzeTranscriptQuality toLowerCase_ascii) (lit "abcDEF12345") initial
    = (Ok (Some r), st')
    /\ transcript r
       = lit "Bonjour tout le monde et bienvenue sur cette chaine consacree aux sciences"
    /\ clock st' = 3
    /\ language r = VStr (lit "en")
    /\ method r = lit "youtube-transcript-package".
Proof.
  eexists _, _. split; [vm_compute; reflexivity | ].
  split; [reflexivity | ]. split; [reflexivity | ].
  eapply (TranscriptPackage_tagged_en french_video
            (analyzeTranscriptQuality toLowerCase_ascii)
            (lit "abcDEF12345") initial).
  vm_compute; reflexivity.
Defined.

(* ================================================================== *)
(** * Strings: prefixes and spans *)
(* ================================================================== *)

Lemma strip_prefix_app (p r : jsstring) : strip_prefix p (p ++ r) = Some r.
Proof.
  induction p as [|a p IH]; simpl; [reflexivity | ].
  rewrite N.eqb_refl. exact IH.
Qed.

Lemma strip_prefix_Some (p s r : jsstring) :
  strip_prefix p s = Some r -> s = p ++ r.
Proof.
  revert s. induction p as [|a p IH]; intros s H; simpl in H.
  - inversion H; reflexivity.
  - destruct s as [|b s]; [discriminate | ].
    destruct (N.eqb a b) eqn:E; [ | discriminate].
    apply N.eqb_eq in E; subst b. simpl. f_equal. apply IH; exact H.
Qed.

Lemma span_app (p : code_unit -> bool) (s : jsstring) :
  s = fst (span p s) ++ snd (span p s).
Proof.
  induction s as [|c s IH]; simpl; [reflexivity | ].
  destruct (p c); [ | reflexivity].
  destruct (span p s) as [a b]; simpl in *. f_equal; exact IH.
Qed.

Lemma span_all (p : code_unit -> bool) (s : jsstring) :
  forallb p (fst (span p s)) = true.
Proof.
  induction s as [|c s IH]; simpl; [reflexivity | ].
  destruct (p c) eqn:E; [ | reflexivity].
  destruct (span p s) as [a b]; simpl in *. rewrite E; exact IH.
Qed.

Lemma span_stop (p : code_unit -> bool) (s : jsstring) c rest :
  snd (span p s) = c :: rest -> p c = false.
Proof.
  induction s as [|d s IH]; simpl; [discriminate | ].
  destruct (p d) eqn:E.
  - destruct (span p s) as [a b]; simpl in *. exact IH.
  - simpl. intros H; inversion H; subst; exact E.
Qed.

(** The span of a run that ends at a code unit outside the class. *)
Lemma span_exact (p : code_unit -> bool) (run rest : jsstring) :
  forallb p run = true ->
  (rest = [] \/ exists c r, rest = c :: r /\ p c = false) ->
  span p (run ++ rest) = (run, rest).
Proof.
  intros Hrun Hrest. induction run as [|c run IH]; simpl in *.
  - destruct Hrest as [-> | (c & r & -> & Hc)]; simpl; [reflexivity | ].
    rewrite Hc; reflexivity.
  - apply andb_true_iff in Hrun as [Hc Hrun]. rewrite Hc, (IH Hrun).
    reflexivity.
Qed.

(* ================================================================== *)
(** * The identifier parser *)
(* ================================================================== *)

Lemma url_alternatives_Some alts s id :
  url_alternatives alts s = Some id ->
  exists shape after,
    In shape alts /\ s = shape ++ id ++ after /\ id <> []
    /\ forallb isIdChar id = true
    /\ (after = [] \/ exists c rest, after = c :: rest /\ isIdChar c = false).
Proof.
  induction alts as [|a alts IH]; simpl; [discriminate | ].
  destruct (strip_prefix a s) as [r|] eqn:E.
  - destruct (fst (span isIdChar r)) as [|c run] eqn:Es.
    + intros H. destruct (IH H) as (shape & after & Hin & Hrest).
      exists shape, after. split; [right; exact Hin | exact Hrest].
    + intros H; inversion H; subst id. clear H.
      exists a, (snd (span isIdChar r)). split; [left; reflexivity | ].
      split.
      { rewrite (strip_prefix_Some _ _ _ E). f_equal.
        rewrite <- Es. apply span_app. }
      split; [discriminate | ].
      split; [rewrite <- Es; apply span_all | ].
      destruct (snd (span isIdChar r)) as [|d rest] eqn:Er; [left; reflexivity | ].
      right. exists d, rest. split; [reflexivity | ].
      exact (span_stop _ _ _ _ Er).
  - intros H. destruct (IH H) as (shape & after & Hin & Hrest).
    exists shape, after. split; [right; exact Hin | exact Hrest].
Qed.

Lemma url_alternatives_None alts s :
  url_alternatives alts s = None ->
  forall shape c rest,
    In shape alts -> isIdChar c = true -> s <> shape ++ c :: rest.
Proof.
  induction alts as [|a alts IH]; simpl; intros H shape c rest Hin Hc Hs;
    [contradiction | ].
  destruct Hin as [<- | Hin].
  - subst s. rewrite strip_prefix_app in H. simpl in H. rewrite Hc in H.
    destruct (span isIdChar rest); simpl in H. discriminate.
  - destruct (strip_prefix a s) as [r|].
    + destruct (fst (span isIdChar r)); [ | discriminate].
      exact (IH H shape c rest Hin Hc Hs).
    + exact (IH H shape c rest Hin Hc Hs).
Qed.

Lemma match_url_Some s id : match_url s = Some id -> url_shape s id.
Proof.
  induction s as [|c s IH]; cbn [match_url].
  - destruct (url_alternatives url_shapes []) as [id'|] eqn:E; [ | discriminate].
    intros H; inversion H; subst id'.
    destruct (url_alternatives_Some _ _ _ E) as (shape & after & Hin & Hs & R).
    exists [], shape, after. repeat split; try tauto. intros; simpl; lia.
  - destruct (url_alternatives url_shapes (c :: s)) as [id'|] eqn:E.
    + intros H; inversion H; subst id'.
      destruct (url_alternatives_Some _ _ _ E) as (shape & after & Hin & Hs & R).
      exists [], shape, after. repeat split; try tauto. intros; simpl; lia.
    + intros H. destruct (IH H)
        as (before & shape & after & Hin & Hs & Hne & Hall & Hafter & Hleft).
      exists (c :: before), shape, after.
      repeat split; try assumption.
      * simpl. f_equal. exact Hs.
      * intros before' shape' d rest Hin' Hd Hs'.
        destruct before' as [|b before'].
        { exfalso. exact (url_alternatives_None _ _ E _ _ rest Hin' Hd Hs'). }
        simpl in Hs'. inversion Hs'; subst b.
        simpl. apply le_n_S. eapply Hleft; eauto.
Qed.

Lemma match_url_None s : match_url s = None -> ~ has_url_shape s.
Proof.
  induction s as [|c s IH]; cbn [match_url].
  - destruct (url_alternatives url_shapes []) eqn:E; [discriminate | ].
    intros _ (before & shape & d & rest & Hin & Hd & Hs).
    destruct before; [ | discriminate].
    exact (url_alternatives_None _ _ E _ _ rest Hin Hd Hs).
  - destruct (url_alternatives url_shapes (c :: s)) eqn:E; [discriminate | ].
    intros H (before & shape & d & rest & Hin & Hd & Hs).
    destruct before as [|b before].
    + exact (url_alternatives_None _ _ E _ _ rest Hin Hd Hs).
    + simpl in Hs. inversion Hs; subst b.
      apply (IH H). exists before, shape, d, rest. auto.
Qed.

Lemma url_shape_has s id : url_shape s id -> has_url_shape s.
Proof.
  intros (before & shape & after & Hin & Hs & Hne & Hall & _).
  destruct id as [|c id]; [contradiction | ].
  simpl in Hall. apply andb_true_iff in Hall as [Hc _].
  exists before, shape, c, (id ++ after). auto.
Qed.

Lemma match_bare_spec s :
  match match_bare s with
  | Some id => id = s /\ bare_token s
  | None => ~ bare_token s
  end.
Proof.
  unfold match_bare, bare_token.
  destruct (List.length s =? 11) eqn:El; simpl.
  - destruct (forallb isTokenChar s) eqn:Et.
    + apply Nat.eqb_eq in El. auto.
    + intros [_ H]; discriminate.
  - apply Nat.eqb_neq in El. intros [H _]; contradiction.
Qed.

(** C9: the three inputs of the specification are accepted and give the
    same identifier of eleven code units. *)
Theorem extractVideoId_canonical :
  extractVideoId (lit "https://youtu.be/abcDEF12345") = Some (lit "abcDEF12345")
  /\ extractVideoId (lit "https://www.youtube.com/watch?v=abcDEF12345")
     = Some (lit "abcDEF12345")
  /\ extractVideoId (lit "abcDEF12345") = Some (lit "abcDEF12345")
  /\ List.length (lit "abcDEF12345") = 11.
Proof. repeat split; vm_compute; reflexivity. Qed.

(** What the two patterns of the parser give: the group of the first,
    after the leftmost URL shape, or else the input itself, a bare
    token; and nothing exactly when neither matches. *)
Lemma extractVideoId_shapes :
  (forall s id,
      extractVideoId s = Some id ->
      url_shape s id
      \/ (~ has_url_shape s /\ bare_token s /\ id = s /\ List.length id = 11))
  /\ (forall s,
        extractVideoId s = None <-> ~ has_url_shape s /\ ~ bare_token s).
Proof.
  split.
  - intros s id. unfold extractVideoId.
    destruct (match_url s) as [id'|] eqn:E.
    + intros H; inversion H; subst id'. left. exact (match_url_Some _ _ E).
    + pose proof (match_bare_spec s) as B.
      destruct (match_bare s) as [id'|]; [ | discriminate].
      intros H; inversion H; subst id'. destruct B as [-> B]. right.
      repeat split; try apply B. exact (match_url_None _ E).
  - intros s. unfold extractVideoId.
    pose proof (match_bare_spec s) as B.
    destruct (match_url s) as [id'|] eqn:E.
    + split; [discriminate | ].
      intros [H _]. exfalso. apply H.
      exact (url_shape_has _ _ (match_url_Some _ _ E)).
    + destruct (match_bare s) as [id'|].
      * split; [discriminate | ]. intros [_ H]. exfalso. apply H, B.
      * split; [ | reflexivity]. intros _. split; [ | exact B].
        exact (match_url_None _ E).
Qed.

(* ================================================================== *)
(** * The choice of the track *)
(* ================================================================== *)

Lemma snippet_track_item t :
  snippet (track_item t) "language" = Ok (VStr (track_language t))
  /\ snippet (track_item t) "trackKind" = Ok (VStr (track_kind t)).
Proof. split; reflexivity. Qed.

Lemma is_track_item lang kind t :
  is_track lang kind (track_item t)
  = Ok (str_eqb (track_language t) (lit lang)
        && str_eqb (track_kind t) (lit kind)).
Proof.
  unfold is_track. destruct (snippet_track_item t) as [-> ->].
  cbn [bindR is_string].
  destruct (str_eqb (track_language t) (lit lang)); reflexivity.
Qed.

Lemma is_kind_item kind t :
  is_kind kind (track_item t) = Ok (str_eqb (track_kind t) (lit kind)).
Proof.
  unfold is_kind. destruct (snippet_track_item t) as [_ ->]. reflexivity.
Qed.

Lemma findR_items (f : JsVal -> Result bool) (p : Track -> bool) l :
  (forall t, f (track_item t) = Ok (p t)) ->
  findR f (List.map track_item l) = Ok (found (List.find p l)).
Proof.
  intros H. induction l as [|t l IH]; simpl; [reflexivity | ].
  rewrite H. destruct (p t); [reflexivity | exact IH].
Qed.

Lemma find_first_such p l t : List.find p l = Some t -> first_such p l t.
Proof.
  induction l as [|x l IH]; simpl; [discriminate | ].
  destruct (p x) eqn:E.
  - intros H; inversion H; subst x. exists [], l. auto.
  - intros H. destruct (IH H) as (before & after & -> & Hp & Hb).
    exists (x :: before), after. auto.
Qed.

Lemma find_none_such p l : List.find p l = None -> none_such p l.
Proof.
  induction l as [|x l IH]; simpl; [constructor | ].
  destruct (p x) eqn:E; [discriminate | ].
  intros H. constructor; [exact E | exact (IH H)].
Qed.

(** C2: on a listing that is not empty, the primary strategy selects the
    track by the priority of the specification, first match wins; when an
    English standard track exists, the selected track is one. *)
Theorem select_track_priority tracks :
  tracks <> [] ->
  exists t,
    select_track (List.map track_item tracks) = Ok (track_item t)
    /\ priority_choice tracks t
    /\ ((exists x, In x tracks /\ en_standard x = true) ->
        en_standard t = true).
Proof.
  intros Hne. unfold select_track.
  rewrite (findR_items _ en_standard tracks (is_track_item "en" "standard")).
  cbn [bindR].
  destruct (List.find en_standard tracks) as [t1|] eqn:E1.
  { exists t1. cbn. split; [reflexivity | ].
    pose proof (find_first_such _ _ _ E1) as F.
    split; [left; exact F | ]. intros _. destruct F as (_ & _ & _ & F & _).
    exact F. }
  pose proof (find_none_such _ _ E1) as N1.
  assert (X : forall t, (exists x, In x tracks /\ en_standard x = true) ->
                        en_standard t = true).
  { intros t (x & Hin & Hx). unfold none_such in N1.
    rewrite Forall_forall in N1. rewrite (N1 x Hin) in Hx. discriminate. }
  cbn [found truthy negb].
  rewrite (findR_items _ en_auto tracks (is_track_item "en" "asr")).
  cbn [bindR].
  destruct (List.find en_auto tracks) as [t2|] eqn:E2.
  { exists t2. cbn. split; [reflexivity | ].
    split; [ | apply X]. right; left.
    split; [exact N1 | exact (find_first_such _ _ _ E2)]. }
  pose proof (find_none_such _ _ E2) as N2.
  cbn [found truthy negb].
  rewrite (findR_items _ is_standard tracks (is_kind_item "standard")).
  cbn [bindR].
  destruct (List.find is_standard tracks) as [t3|] eqn:E3.
  { exists t3. cbn. split; [reflexivity | ].
    split; [ | apply X]. right; right; left.
    repeat split; try assumption. exact (find_first_such _ _ _ E3). }
  pose proof (find_none_such _ _ E3) as N3.
  cbn [found truthy negb].
  rewrite (findR_items _ is_auto tracks (is_kind_item "asr")).
  cbn [bindR].
  destruct (List.find is_auto tracks) as [t4|] eqn:E4.
  { exists t4. cbn. split; [reflexivity | ].
    split; [ | apply X]. right; right; right; left.
    repeat split; try assumption. exact (find_first_such _ _ _ E4). }
  pose proof (find_none_such _ _ E4) as N4.
  cbn [found truthy negb].
  destruct tracks as [|t tracks]; [contradiction | ].
  exists t. split; [reflexivity | ].
  split; [ | apply X]. right; right; right; right.
  repeat split; assumption.
Qed.

(** The example of the specification: of a French standard track and an
    English auto-generated one, the English one is selected. *)
Lemma select_track_priority_witness :
  exists t,
    select_track (List.map track_item [fr_standard; en_asr])
    = Ok (track_item t)
    /\ priority_choice [fr_standard; en_asr] t
    /\ ((exists x, In x [fr_standard; en_asr] /\ en_standard x = true) ->
        en_standard t = true)
    /\ select_track (List.map track_item [fr_standard; en_asr])
       = Ok (track_item en_asr).
Proof.
  destruct (select_track_priority [fr_standard; en_asr]) as (t & H1 & H2 & H3);
    [discriminate | ].
  exists t.
  split; [exact H1 | split; [exact H2 | split; [exact H3 | reflexivity]]].
Defined.

(* ================================================================== *)
(** * The scan for white space *)
(* ================================================================== *)

Lemma scan_spaces s :
  (forall prev, scan re_spaces 0 prev s = space_pieces false s)
  /\ (forall prev,
        scan re_spaces (List.length (fst (span isSpace s))) prev s
        = space_pieces true s).
Proof.
  induction s as [|c r [IH1 IH2]]; [split; reflexivity | ].
  assert (H1 : forall prev,
             scan re_spaces 0 prev (c :: r) = space_pieces false (c :: r)).
  { intros prev. cbn [scan space_pieces]. unfold re_spaces. cbn [span].
    destruct (isSpace c).
    - destruct (span isSpace r) as [a b] eqn:E. cbn [List.length pred].
      f_equal. specialize (IH2 (Some c)). try rewrite E in IH2.
      cbn [fst] in IH2. exact IH2.
    - f_equal. apply IH1. }
  split; [exact H1 | ].
  intros prev. specialize (H1 prev). cbn [span space_pieces] in *.
  destruct (isSpace c).
  - destruct (span isSpace r) as [a b] eqn:E. cbn [fst List.length scan].
    specialize (IH2 (Some c)). try rewrite E in IH2.
    cbn [fst] in IH2. exact IH2.
  - exact H1.
Qed.

Lemma length_pieces_between {A} (ps : list (piece A)) cur :
  List.length (pieces_between cur ps) = S (count_hits ps).
Proof.
  revert cur. induction ps as [|[c|a] ps IH]; intros cur; simpl;
    [reflexivity | apply IH | f_equal; apply IH].
Qed.

Lemma last_cons {A} (x : A) l d : last (x :: l) d = last l x.
Proof.
  revert x d. induction l as [|a l IH]; intros x d; [reflexivity | ].
  change (last (x :: a :: l) d) with (last (a :: l) d).
  rewrite (IH a d), (IH a x). reflexivity.
Qed.

(** After white space: the runs still to come, one more, are the words
    still to come and the stretch after trailing white space; after a
    word likewise, that word counted. *)
Lemma runs_and_words r :
  S (count_hits (space_pieces true r))
  = count_words false r + (if last (List.map isSpace r) true then 1 else 0)
  /\ S (count_hits (space_pieces false r))
     = S (count_words true r)
       + (if last (List.map isSpace r) false then 1 else 0).
Proof.
  induction r as [|c r [IH1 IH2]]; [split; reflexivity | ].
  cbn [space_pieces count_words List.map]. rewrite !last_cons.
  destruct (isSpace c); cbn [count_hits]; split; lia.
Qed.

(** [text.split(/\s+/).length]: the words of the text, and one empty
    stretch for leading white space, one for trailing white space. *)
Lemma totalWords_wordCount text :
  totalWords text = wordCount text + leading_stretch text + trailing_stretch text.
Proof.
  unfold totalWords, split_spaces, split, wordCount, trailing_stretch.
  rewrite length_pieces_between.
  rewrite (proj1 (scan_spaces text) None).
  destruct text as [|c r]; [reflexivity | ].
  cbn [space_pieces count_words leading_stretch List.map]. rewrite last_cons.
  destruct (runs_and_words r) as [H1 H2].
  destruct (isSpace c); cbn [count_hits]; lia.
Qed.

(* ================================================================== *)
(** * Scans in general *)
(* ================================================================== *)

Lemma scan_skip {A} (m : option code_unit -> jsstring -> option (A * nat))
      l1 l2 prev :
  scan m (List.length l1) prev (l1 ++ l2)
  = scan m 0 (last (List.map Some l1) prev) l2.
Proof.
  revert prev. induction l1 as [|c l1 IH]; intros prev; [reflexivity | ].
  cbn [List.length app scan List.map]. rewrite last_cons. apply IH.
Qed.

Lemma scan_prev {A} (m : option code_unit -> jsstring -> option (A * nat)) :
  (forall p q s, m p s = m q s) ->
  forall s k p q, scan m k p s = scan m k q s.
Proof.
  intros H s. destruct s as [|c r]; intros k p q; [reflexivity | ].
  cbn [scan]. rewrite (H p q). reflexivity.
Qed.

(* ================================================================== *)
(** * Tags *)
(* ================================================================== *)

Lemma notGt_false c : notGt c = false -> c = 62%N.
Proof.
  unfold notGt. intros H. apply negb_false_iff in H. apply N.eqb_eq; exact H.
Qed.

Lemma tag_rest_Some r run rest :
  tag_rest r = Some (run, rest) ->
  r = run ++ 62%N :: rest /\ run <> [] /\ forallb notGt run = true.
Proof.
  unfold tag_rest. pose proof (span_app notGt r) as Ha.
  pose proof (span_all notGt r) as Hb.
  destruct (span notGt r) as [run' [|c rest']]; [discriminate | ].
  cbn [fst snd] in *.
  destruct run' as [|d run']; [discriminate | ]. cbn [nonempty andb].
  destruct (N.eqb c 62) eqn:E; [ | discriminate].
  apply N.eqb_eq in E. intros H. injection H as <- <-. rewrite <- E.
  split; [exact Ha | split; [discriminate | exact Hb]].
Qed.

Lemma tag_rest_None r :
  tag_rest r = None ->
  (exists r', r = 62%N :: r') \/ forallb notGt r = true.
Proof.
  unfold tag_rest. pose proof (span_app notGt r) as Ha.
  pose proof (span_all notGt r) as Hb.
  destruct (span notGt r) as [run [|c rest]] eqn:Es; cbn [fst snd] in *.
  - intros _. right. rewrite Ha, app_nil_r. exact Hb.
  - assert (Hc : c = 62%N).
    { apply notGt_false. apply (span_stop notGt r c rest). rewrite Es.
      reflexivity. }
    subst c. destruct run as [|d run]; cbn.
    + intros _. left. exists rest. exact Ha.
    + discriminate.
Qed.

Lemma re_tag_prev p q s : re_tag p s = re_tag q s.
Proof. reflexivity. Qed.

Lemma strip_tags_nil : strip_tags [] = [].
Proof. reflexivity. Qed.

Lemma strip_tags_other c r :
  c <> 60%N -> strip_tags (c :: r) = c :: strip_tags r.
Proof.
  intros H. unfold strip_tags, replaceAll. cbn [scan re_tag].
  apply N.eqb_neq in H. rewrite H. cbn [flat_map app].
  do 2 f_equal. apply scan_prev, re_tag_prev.
Qed.

Lemma strip_tags_tag r run rest :
  tag_rest r = Some (run, rest) -> strip_tags (60%N :: r) = strip_tags rest.
Proof.
  intros H. unfold strip_tags, replaceAll. cbn [scan re_tag N.eqb Pos.eqb].
  rewrite H. cbn [pred flat_map app].
  destruct (tag_rest_Some _ _ _ H) as (-> & _ & _).
  change (run ++ 62%N :: rest) with (run ++ [62%N] ++ rest).
  rewrite app_assoc.
  replace (S (List.length run)) with (List.length (run ++ [62%N]))
    by (rewrite length_app; cbn; lia).
  rewrite scan_skip. f_equal. apply scan_prev, re_tag_prev.
Qed.

Lemma strip_tags_no_tag r :
  tag_rest r = None -> strip_tags (60%N :: r) = 60%N :: strip_tags r.
Proof.
  intros H. unfold strip_tags, replaceAll. cbn [scan re_tag N.eqb Pos.eqb].
  rewrite H. cbn [flat_map app].
  do 2 f_equal. apply scan_prev, re_tag_prev.
Qed.

(** What [strip_tags] keeps was there. *)
Lemma strip_tags_In n : forall s c,
  List.length s <= n -> In c (strip_tags s) -> In c s.
Proof.
  induction n as [|n IH]; intros s c Hn.
  - destruct s; [intros H; exact H | simpl in Hn; lia].
  - destruct s as [|d r]; [intros H; exact H | ].
    simpl in Hn. destruct (N.eq_dec d 60) as [-> | Hd].
    + destruct (tag_rest r) as [[run rest]|] eqn:E.
      * rewrite (strip_tags_tag r _ _ E). intros H.
        destruct (tag_rest_Some _ _ _ E) as (-> & _ & _).
        right. apply in_or_app. right. right.
        apply (IH rest c); [ | exact H].
        rewrite length_app in Hn. simpl in Hn. lia.
      * rewrite (strip_tags_no_tag r E). intros [H | H]; [left; exact H | ].
        right. apply (IH r c); [lia | exact H].
    + rewrite (strip_tags_other d r Hd). intros [H | H]; [left; exact H | ].
      right. apply (IH r c); [lia | exact H].
Qed.

Lemma has_tag_cons c s :
  has_tag (c :: s) ->
  (c = 60%N /\ exists run after,
      s = run ++ 62%N :: after /\ run <> [] /\ forallb notGt run = true)
  \/ has_tag s.
Proof.
  intros (before & run & after & Hs & Hne & Hall).
  destruct before as [|b before]; simpl in Hs; inversion Hs; subst.
  - left. split; [reflexivity | ]. exists run, after. auto.
  - right. exists before, run, after. auto.
Qed.

Lemma has_tag_tail c s : has_tag s -> has_tag (c :: s).
Proof.
  intros (before & run & after & -> & Hne & Hall).
  exists (c :: before), run, after. auto.
Qed.

Lemma forallb_notGt_no_gt s : forallb notGt s = true -> ~ In 62%N s.
Proof.
  intros H Hin. rewrite forallb_forall in H. specialize (H _ Hin).
  discriminate.
Qed.

(** No tag is left by [strip_tags]. *)
Lemma strip_tags_clean n : forall s,
  List.length s <= n -> ~ has_tag (strip_tags s).
Proof.
  induction n as [|n IH]; intros s Hn.
  - destruct s; [ | simpl in Hn; lia].
    intros (before & run & after & Hs & _). destruct before; discriminate.
  - destruct s as [|d r].
    { intros (before & run & after & Hs & _). destruct before; discriminate. }
    simpl in Hn. destruct (N.eq_dec d 60) as [-> | Hd].
    + destruct (tag_rest r) as [[run rest]|] eqn:E.
      * rewrite (strip_tags_tag r _ _ E).
        destruct (tag_rest_Some _ _ _ E) as (-> & _ & _).
        apply IH. rewrite length_app in Hn. simpl in Hn. lia.
      * rewrite (strip_tags_no_tag r E). intros H.
        apply has_tag_cons in H as [(_ & run & after & Hs & Hne & Hall) | H];
          [ | exact (IH r ltac:(lia) H)].
        destruct (tag_rest_None r E) as [(r' & ->) | Hr].
        -- rewrite strip_tags_other in Hs by discriminate.
           destruct run as [|x run]; [contradiction | ].
           simpl in Hs, Hall. inversion Hs; subst x. discriminate.
        -- apply (forallb_notGt_no_gt r Hr).
           apply (strip_tags_In (S n) r); [lia | ].
           rewrite Hs. apply in_or_app. right. left. reflexivity.
    + rewrite (strip_tags_other d r Hd). intros H.
      apply has_tag_cons in H as [(Hc & _) | H]; [contradiction | ].
      exact (IH r ltac:(lia) H).
Qed.

(** A text without a tag is left as it is. *)
Lemma strip_tags_id n : forall s,
  List.length s <= n -> ~ has_tag s -> strip_tags s = s.
Proof.
  induction n as [|n IH]; intros s Hn Hs.
  - destruct s; [reflexivity | simpl in Hn; lia].
  - destruct s as [|d r]; [reflexivity | ].
    simpl in Hn.
    assert (Hr : ~ has_tag r) by (intros H; apply Hs, has_tag_tail, H).
    destruct (N.eq_dec d 60) as [-> | Hd].
    + destruct (tag_rest r) as [[run rest]|] eqn:E.
      * exfalso. apply Hs.
        destruct (tag_rest_Some _ _ _ E) as (-> & Hne & Hall).
        exists [], run, rest. auto.
      * rewrite (strip_tags_no_tag r E). f_equal. apply IH; [lia | exact Hr].
    + rewrite (strip_tags_other d r Hd). f_equal. apply IH; [lia | exact Hr].
Qed.

(* ================================================================== *)
(** * Line breaks, trimming and collapsing *)
(* ================================================================== *)

Lemma newlines_to_spaces_map s :
  newlines_to_spaces s = List.map newline_to_space s.
Proof.
  unfold newlines_to_spaces, replace_literal, replaceAll.
  generalize (@None N). induction s as [|c r IH]; intros prev; [reflexivity | ].
  cbn [scan List.map]. unfold re_literal. cbn [strip_prefix].
  unfold newline_to_space at 1. rewrite (N.eqb_sym c newline).
  destruct (N.eqb newline c);
    cbn [List.length pred flat_map app]; f_equal; apply IH.
Qed.

Lemma newline_to_space_lt c : newline_to_space c = 60%N -> c = 60%N.
Proof.
  unfold newline_to_space. destruct (N.eqb c newline); [discriminate | auto].
Qed.

Lemma newline_to_space_gt c : newline_to_space c = 62%N -> c = 62%N.
Proof.
  unfold newline_to_space. destruct (N.eqb c newline); [discriminate | auto].
Qed.

Lemma newline_to_space_notGt run :
  forallb notGt (List.map newline_to_space run) = true ->
  forallb notGt run = true.
Proof.
  induction run as [|c run IH]; [reflexivity | ]. cbn [List.map forallb].
  intros H. apply andb_true_iff in H as [Hc H]. rewrite (IH H), andb_true_r.
  unfold newline_to_space in Hc. destruct (N.eqb c newline) eqn:E; [ | exact Hc].
  apply N.eqb_eq in E; subst c. reflexivity.
Qed.

Lemma has_tag_newlines s : has_tag (List.map newline_to_space s) -> has_tag s.
Proof.
  intros (before & run & after & Hs & Hne & Hall).
  apply map_eq_app in Hs as (before' & s1 & -> & Hb & Hs).
  apply map_eq_cons in Hs as (a & s2 & -> & Ha & Hs).
  apply map_eq_app in Hs as (run' & s3 & -> & Hr & Hs).
  apply map_eq_cons in Hs as (b & after' & -> & Hb' & Hs).
  apply newline_to_space_lt in Ha. apply newline_to_space_gt in Hb'. subst a b.
  exists before', run', after'. split; [reflexivity | ]. split.
  - intros ->. apply Hne. rewrite <- Hr. reflexivity.
  - apply newline_to_space_notGt. rewrite Hr. exact Hall.
Qed.

Lemma trimStart_split s : exists a, s = a ++ trimStart s.
Proof.
  induction s as [|c r [a IH]]; [exists []; reflexivity | ].
  cbn [trimStart]. destruct (isSpace c); [ | exists []; reflexivity].
  exists (c :: a). cbn. f_equal. exact IH.
Qed.

Lemma trim_infix s : exists a b, s = a ++ trim s ++ b.
Proof.
  unfold trim. destruct (trimStart_split s) as [a Ha].
  destruct (trimStart_split (rev (trimStart s))) as [b Hb].
  exists a, (rev b). rewrite <- rev_app_distr, <- Hb, rev_involutive. exact Ha.
Qed.

Lemma has_tag_infix a s b : has_tag s -> has_tag (a ++ s ++ b).
Proof.
  intros (before & run & after & -> & Hne & Hall).
  exists (a ++ before), run, (after ++ b).
  split; [ | auto]. rewrite <- !app_assoc. cbn. rewrite <- !app_assoc.
  reflexivity.
Qed.

Lemma trimStart_snoc l c :
  trimStart (l ++ [c])
  = match trimStart l with
    | [] => if isSpace c then [] else [c]
    | l' => l' ++ [c]
    end.
Proof.
  induction l as [|d l IH]; cbn [app trimStart]; [reflexivity | ].
  destruct (isSpace d); [exact IH | reflexivity].
Qed.

Lemma trim_trimEnd t : rev (trimStart (rev t)) = trimEnd t.
Proof.
  induction t as [|c r IH]; [reflexivity | ].
  cbn [rev trimEnd]. rewrite trimStart_snoc, <- IH.
  destruct (trimStart (rev r)) as [|x l]; cbn [rev].
  - destruct (isSpace c); reflexivity.
  - rewrite rev_app_distr. cbn [rev app].
    destruct (rev l ++ [x]) eqn:E; [ | reflexivity].
    destruct (rev l); discriminate.
Qed.

Lemma collapse_spaces_pieces s :
  collapse_spaces s = collapsed (space_pieces false s).
Proof.
  unfold collapse_spaces, replaceAll, collapsed.
  rewrite (proj1 (scan_spaces s) None). reflexivity.
Qed.

Lemma loosely_spaced_collapsed s :
  loosely_spaced false (collapsed (space_pieces false s)) = true
  /\ loosely_spaced true (collapsed (space_pieces true s)) = true.
Proof.
  induction s as [|c r [IH1 IH2]]; [split; reflexivity | ].
  cbn [space_pieces]. destruct (isSpace c) eqn:E.
  - split; [ | exact IH2]. cbn. exact IH2.
  - cbn [collapsed flat_map app loosely_spaced]. rewrite E. auto.
Qed.

Lemma loosely_spaced_trimStart b s :
  loosely_spaced b s = true -> loosely_spaced true (trimStart s) = true.
Proof.
  destruct s as [|c r]; [reflexivity | ]. cbn [loosely_spaced trimStart].
  destruct (isSpace c) eqn:E.
  - intros H. apply andb_true_iff in H as [_ H].
    destruct r as [|d r]; [reflexivity | ]. cbn [loosely_spaced trimStart] in *.
    destruct (isSpace d) eqn:Ed.
    + rewrite andb_false_r in H. discriminate.
    + cbn [loosely_spaced]. rewrite Ed. exact H.
  - intros H. cbn [loosely_spaced]. rewrite E. exact H.
Qed.

Lemma spaced_trimEnd t : forall b,
  loosely_spaced b t = true ->
  trimEnd t = [] \/ spaced b (trimEnd t) = true.
Proof.
  induction t as [|c r IH]; intros b; [left; reflexivity | ].
  cbn [loosely_spaced trimEnd]. destruct (isSpace c) eqn:E.
  - intros H. apply andb_true_iff in H as [H Hr].
    apply andb_true_iff in H as [Hc Hb].
    destruct (IH true Hr) as [-> | Hs]; [left; reflexivity | ].
    destruct (trimEnd r) as [|x l] eqn:Er; [left; reflexivity | ].
    right. cbn [spaced]. rewrite E, Hc, Hb. exact Hs.
  - intros Hr. right.
    destruct (IH false Hr) as [-> | Hs].
    + cbn [spaced]. rewrite E. reflexivity.
    + destruct (trimEnd r) as [|x l] eqn:Er.
      * cbn [spaced]. rewrite E. reflexivity.
      * cbn [spaced]. rewrite E. exact Hs.
Qed.

Lemma single_spaced_trim_collapse s :
  single_spaced (trim (collapse_spaces s)) = true.
Proof.
  unfold trim. rewrite trim_trimEnd, collapse_spaces_pieces.
  pose proof (proj1 (loosely_spaced_collapsed s)) as H.
  apply loosely_spaced_trimStart in H.
  destruct (spaced_trimEnd _ _ H) as [-> | Hs]; [reflexivity | ].
  unfold single_spaced. destruct (trimEnd _); [reflexivity | exact Hs].
Qed.


(* ================================================================== *)
(** * The entities of a cue *)
(* ================================================================== *)


Lemma replace_literal_nil w by_ : replace_literal w by_ [] = [].
Proof. reflexivity. Qed.















(* ================================================================== *)
(** * The markup decoders *)
(* ================================================================== *)




(* ================================================================== *)
(** * The course of a run: strategies entered and platform calls *)
(* ================================================================== *)

Section Course.
Variable P : Platform.
Variable analyze : jsstring -> QualityAssessment.

Lemma enters_nothing_parseCaptionTracks tracksJson videoId pattern :
  enters_nothing (parseCaptionTracks P tracksJson videoId pattern).
Proof. unfold parseCaptionTracks, Fetch. cbv zeta. repeat frame_step. Qed.

Lemma enters_nothing_try_languages videoId ls :
  enters_nothing (try_languages P videoId ls).
Proof.
  induction ls as [|lang ls IH]; cbn [try_languages].
  - apply enters_nothing_ret.
  - apply enters_nothing_bind; [ | intros [r|]; [frame_step | exact IH]].
    unfold try_language, Fetch. cbv zeta. repeat frame_step.
Qed.

(** A strategy is [enter s] and then a body that enters nothing. *)
Lemma invocations_entered {A} (s : Strategy) (body : M A) st r st' :
  enters_nothing body ->
  bind (enter s) (fun _ => body) st = (r, st') ->
  invocations st' = s :: invocations st.
Proof. intros F E. unfold bind in E. cbn [enter] in E. exact (F _ _ _ E). Qed.

Lemma invocations_TranscriptPackage videoId st r st' :
  extractWithYoutubeTranscript P analyze videoId st = (r, st') ->
  invocations st' = TranscriptPackage :: invocations st.
Proof.
  unfold extractWithYoutubeTranscript. apply invocations_entered.
  cbv zeta. repeat first [apply enters_nothing_log_quality | frame_step].
Qed.

Lemma invocations_TimedTextAPI videoId st r st' :
  extractWithTimedTextAPI P videoId st = (r, st') ->
  invocations st' = TimedTextAPI :: invocations st.
Proof.
  unfold extractWithTimedTextAPI. apply invocations_entered.
  unfold Fetch. cbv zeta.
  repeat lazymatch goal with
         | |- enters_nothing (parseCaptionTracks _ _ _ _) =>
             apply enters_nothing_parseCaptionTracks
         | |- _ => frame_step
         end.
Qed.

Lemma invocations_LanguageFallback videoId st r st' :
  extractWithLanguageFallback P videoId st = (r, st') ->
  invocations st' = LanguageFallback :: invocations st.
Proof.
  unfold extractWithLanguageFallback. apply invocations_entered.
  repeat lazymatch goal with
         | |- enters_nothing (try_languages _ _ _) =>
             apply enters_nothing_try_languages
         | |- _ => frame_step
         end.
Qed.

Lemma banner_run name st :
  banner name st = (Ok tt, snd (banner name st))
  /\ invocations (snd (banner name st)) = invocations st
  /\ clock (snd (banner name st)) = clock st.
Proof. repeat split. Qed.

Lemma header_keeps videoId apiKey st :
  invocations (snd (header videoId apiKey st)) = invocations st
  /\ clock (snd (header videoId apiKey st)) = clock st.
Proof. split; reflexivity. Qed.
End Course.

Section CourseOfRun.
Variable P : Platform.
Variable analyze : jsstring -> QualityAssessment.

Lemma try_primary_course videoId apiKey st :
  exists r st',
    try_primary P analyze videoId apiKey st = (Ok r, st')
    /\ invocations st'
       = (if key_present apiKey then [DataAPI] else []) ++ invocations st.
Proof.
  unfold try_primary. destruct apiKey as [[|c key]|].
  - eexists _, _. split; reflexivity.
  - destruct (nothrow_DataAPI P analyze videoId (c :: key) st) as (r & s1 & E).
    pose proof (invocations_DataAPI _ _ _ _ _ _ _ E) as I.
    rewrite (bind_Ok E). destruct r as [x|].
    + rewrite (bind_Ok (proj1 (banner_run _ s1))).
      eexists _, _. split; [reflexivity | ]. cbn. exact I.
    + eexists _, _. split; [reflexivity | ]. cbn. exact I.
  - eexists _, _. split; reflexivity.
Qed.

(** X1: the strategies a run enters are a beginning of the plan (the
    primary strategy only with a key, then B, C, D), each entered once
    and in that order; a run ends with [null] only after the whole plan,
    and never with an exception. *)
Theorem strategies_in_order videoId apiKey st :
  exists entered rest,
    strategy_plan apiKey = entered ++ rest
    /\ entered <> []
    /\ invocations (snd (extractCaptions P analyze videoId apiKey st))
       = rev entered ++ invocations st
    /\ match fst (extractCaptions P analyze videoId apiKey st) with
       | Ok None => rest = []
       | Ok (Some _) => True
       | Throw _ => False
       end.
Proof.
  unfold extractCaptions.
  rewrite (bind_Ok (header_run videoId apiKey st)).
  destruct (header_keeps videoId apiKey st) as [H0 _].
  set (s0 := snd (header videoId apiKey st)) in *.
  destruct (try_primary_course videoId apiKey s0) as (r1 & s1 & E1 & I1).
  rewrite (bind_Ok E1). rewrite H0 in I1. unfold strategy_plan.
  destruct r1 as [x|].
  { destruct (key_present apiKey) eqn:K.
    - exists [DataAPI], [TranscriptPackage; TimedTextAPI; LanguageFallback].
      cbn. repeat split; [discriminate | exact I1].
    - exfalso. unfold try_primary in E1.
      destruct apiKey as [[|c key]|]; try discriminate. }
  destruct (nothrow_TranscriptPackage P analyze videoId s1) as (r2 & s2 & E2).
  pose proof (invocations_TranscriptPackage _ _ _ _ _ _ E2) as I2.
  rewrite (bind_Ok E2). rewrite I1 in I2. destruct r2 as [x|].
  { rewrite (bind_Ok (proj1 (banner_run _ s2))). cbn [ret fst snd].
    destruct (key_present apiKey).
    - exists [DataAPI; TranscriptPackage], [TimedTextAPI; LanguageFallback].
      cbn. repeat split; [discriminate | exact I2].
    - exists [TranscriptPackage], [TimedTextAPI; LanguageFallback].
      cbn. repeat split; [discriminate | exact I2]. }
  destruct (nothrow_TimedTextAPI P videoId s2) as (r3 & s3 & E3).
  pose proof (invocations_TimedTextAPI _ _ _ _ _ E3) as I3.
  rewrite (bind_Ok E3). rewrite I2 in I3. destruct r3 as [x|].
  { rewrite (bind_Ok (proj1 (banner_run _ s3))). cbn [ret fst snd].
    destruct (key_present apiKey).
    - exists [DataAPI; TranscriptPackage; TimedTextAPI], [LanguageFallback].
      cbn. repeat split; [discriminate | exact I3].
    - exists [TranscriptPackage; TimedTextAPI], [LanguageFallback].
      cbn. repeat split; [discriminate | exact I3]. }
  destruct (nothrow_LanguageFallback P videoId s3) as (r4 & s4 & E4).
  pose proof (invocations_LanguageFallback _ _ _ _ _ E4) as I4.
  rewrite (bind_Ok E4). rewrite I3 in I4. destruct r4 as [x|].
  { rewrite (bind_Ok (proj1 (banner_run _ s4))). cbn [ret fst snd].
    destruct (key_present apiKey).
    - exists [DataAPI; TranscriptPackage; TimedTextAPI; LanguageFallback], [].
      cbn. repeat split; [discriminate | exact I4].
    - exists [TranscriptPackage; TimedTextAPI; LanguageFallback], [].
      cbn. repeat split; [discriminate | exact I4]. }
  cbn [bind console_log ret fst snd invocations].
  destruct (key_present apiKey).
  - exists [DataAPI; TranscriptPackage; TimedTextAPI; LanguageFallback], [].
    cbn. repeat split; [discriminate | exact I4].
  - exists [TranscriptPackage; TimedTextAPI; LanguageFallback], [].
    cbn. repeat split; [discriminate | exact I4].
Qed.
End CourseOfRun.

(* ================================================================== *)
(** * Calls to the platform *)
(* ================================================================== *)

Section CallRules.
Context {A B : Type}.

Lemma calls_weaken (n n' : nat) (m : M A) :
  n <= n' -> calls_within n m -> calls_within n' m.
Proof. intros L H st r st' E. destruct (H _ _ _ E). lia. Qed.

Lemma calls_ret (n : nat) (a : A) : calls_within n (ret a).
Proof. intros st r st' E. inversion E; subst. lia. Qed.

Lemma calls_lift (n : nat) (x : Result A) : calls_within n (lift x).
Proof. intros st r st' E. inversion E; subst. lia. Qed.

Lemma calls_call (n : nat) (f : nat -> Result A) : calls_within (S n) (call f).
Proof. intros st r st' E. inversion E; subst. cbn. lia. Qed.

Lemma calls_bind (n1 n2 : nat) (m : M A) (k : A -> M B) :
  calls_within n1 m -> (forall a, calls_within n2 (k a)) ->
  calls_within (n1 + n2) (bind m k).
Proof.
  intros Hm Hk st r st' E. unfold bind in E.
  destruct (m st) as [[a|e] s1] eqn:E1.
  - destruct (Hm _ _ _ E1), (Hk _ _ _ _ E). lia.
  - inversion E; subst. destruct (Hm _ _ _ E1). lia.
Qed.

Lemma calls_try (n1 n2 : nat) (m : M A) (h : Error -> M A) :
  calls_within n1 m -> (forall e, calls_within n2 (h e)) ->
  calls_within (n1 + n2) (try_catch m h).
Proof.
  intros Hm Hh st r st' E. unfold try_catch in E.
  destruct (m st) as [[a|e] s1] eqn:E1.
  - inversion E; subst. destruct (Hm _ _ _ E1). lia.
  - destruct (Hm _ _ _ E1), (Hh _ _ _ _ E). lia.
Qed.

(** A step that makes no call, then the rest. *)
Lemma calls_then (n : nat) (m : M A) (k : A -> M B) :
  calls_within 0 m -> (forall a, calls_within n (k a)) ->
  calls_within n (bind m k).
Proof. intros Hm Hk. exact (calls_bind 0 n m k Hm Hk). Qed.

(** One call, then the rest. *)
Lemma calls_after_call (n : nat) (f : nat -> Result A) (k : A -> M B) :
  (forall a, calls_within n (k a)) ->
  calls_within (S n) (bind (call f) k).
Proof. intros Hk. exact (calls_bind 1 n _ k (calls_call 0 f) Hk). Qed.

(** A handler that makes no call. *)
Lemma calls_try_quiet (n : nat) (m : M A) (h : Error -> M A) :
  calls_within n m -> (forall e, calls_within 0 (h e)) ->
  calls_within n (try_catch m h).
Proof.
  intros Hm Hh. rewrite <- (Nat.add_0_r n). exact (calls_try n 0 m h Hm Hh).
Qed.
End CallRules.

Lemma calls_log (n : nat) (line : list LogPart) :
  calls_within n (console_log line).
Proof. intros st r st' E. inversion E; subst. cbn. lia. Qed.

Lemma calls_enter (n : nat) (s : Strategy) : calls_within n (enter s).
Proof. intros st r st' E. inversion E; subst. cbn. lia. Qed.

Ltac calls_step :=
  lazymatch goal with
  | |- calls_within _ (ret _) => apply calls_ret
  | |- calls_within _ (lift _) => apply calls_lift
  | |- calls_within _ (console_log _) => apply calls_log
  | |- calls_within _ (enter _) => apply calls_enter
  | |- calls_within _ (call _) => apply calls_call
  | |- calls_within _ (bind (call _) _) => apply calls_after_call; intros
  | |- calls_within _ (bind (console_log _) _) =>
      apply calls_then; [apply calls_log | intros]
  | |- calls_within _ (bind (enter _) _) =>
      apply calls_then; [apply calls_enter | intros]
  | |- calls_within _ (bind (lift _) _) =>
      apply calls_then; [apply calls_lift | intros]
  | |- calls_within _ (bind (ret _) _) =>
      apply calls_then; [apply calls_ret | intros]
  | |- calls_within _ (bind (if _ then _ else _) _) =>
      apply calls_then; [ | intros]
  | |- calls_within _ (try_catch _ _) => apply calls_try_quiet; [ | intros]
  | |- calls_within _ (if ?c then _ else _) => destruct c
  | |- calls_within _ (match ?x with _ => _ end) => destruct x
  end.

Section Calls.
Variable P : Platform.
Variable analyze : jsstring -> QualityAssessment.

Lemma calls_log_quality n t b : calls_within n (log_quality analyze t b).
Proof. unfold log_quality. cbv zeta. repeat calls_step. Qed.

Lemma calls_banner n name : calls_within n (banner name).
Proof. unfold banner. repeat calls_step. Qed.

Lemma calls_forEachM {A} (f : A -> nat -> M unit) l :
  (forall x i, calls_within 0 (f x i)) ->
  forall i, calls_within 0 (forEachM f i l).
Proof.
  intros Hf. induction l as [|x l IH]; intros i; cbn [forEachM].
  - apply calls_ret.
  - apply calls_then; [apply Hf | intros; apply IH].
Qed.

Lemma calls_try_format videoId language trackKind n format :
  calls_within 1 (try_format P analyze videoId language trackKind n format).
Proof.
  unfold try_format, Fetch. cbv zeta.
  repeat lazymatch goal with
         | |- calls_within _ (bind (log_quality _ _ _) _) =>
             apply calls_then; [apply calls_log_quality | intros]
         | |- _ => calls_step
         end.
Qed.

(** Each format is requested at most once. *)
Lemma calls_try_formats videoId language trackKind n fs :
  calls_within (List.length fs)
               (try_formats P analyze videoId language trackKind n fs).
Proof.
  induction fs as [|format fs IH]; cbn [try_formats List.length].
  - apply calls_ret.
  - apply (calls_bind 1 (List.length fs)); [apply calls_try_format | ].
    intros [r|]; [apply calls_ret | exact IH].
Qed.

Lemma calls_DataAPI videoId apiKey :
  calls_within 4 (extractWithYouTubeDataAPI P analyze videoId apiKey).
Proof.
  unfold extractWithYouTubeDataAPI, Fetch. cbv zeta.
  repeat lazymatch goal with
         | |- calls_within _ (bind (forEachM _ _ _) _) =>
             apply calls_then;
             [apply calls_forEachM; intros; repeat calls_step | intros]
         | |- calls_within _ (bind (try_formats _ _ _ _ _ _ _) _) =>
             apply (calls_bind 3 0);
             [apply (calls_try_formats _ _ _ _ formats) | intros]
         | |- _ => calls_step
         end.
Qed.

Lemma calls_TranscriptPackage videoId :
  calls_within 3 (extractWithYoutubeTranscript P analyze videoId).
Proof.
  unfold extractWithYoutubeTranscript. cbv zeta.
  repeat lazymatch goal with
         | |- calls_within _ (bind (log_quality _ _ _) _) =>
             apply calls_then; [apply calls_log_quality | intros]
         | |- calls_within _ (bind (try_catch _ _) _) =>
             apply (calls_bind 2 0);
             [apply (calls_try 1 1); [ | intros] | intros]
         | |- _ => calls_step
         end.
Qed.

Lemma calls_parseCaptionTracks tracksJson videoId pattern :
  calls_within 1 (parseCaptionTracks P tracksJson videoId pattern).
Proof. unfold parseCaptionTracks, Fetch. cbv zeta. repeat calls_step. Qed.

Lemma calls_TimedTextAPI videoId :
  calls_within 2 (extractWithTimedTextAPI P videoId).
Proof.
  unfold extractWithTimedTextAPI, Fetch. cbv zeta.
  repeat lazymatch goal with
         | |- calls_within _ (parseCaptionTracks _ _ _ _) =>
             apply calls_parseCaptionTracks
         | |- _ => calls_step
         end.
Qed.

Lemma calls_try_language videoId lang :
  calls_within 1 (try_language P videoId lang).
Proof. unfold try_language, Fetch. cbv zeta. repeat calls_step. Qed.

Lemma calls_try_languages videoId ls :
  calls_within (List.length ls) (try_languages P videoId ls).
Proof.
  induction ls as [|lang ls IH]; cbn [try_languages List.length].
  - apply calls_ret.
  - apply (calls_bind 1 (List.length ls)); [apply calls_try_language | ].
    intros [r|]; [apply calls_ret | exact IH].
Qed.

Lemma calls_LanguageFallback videoId :
  calls_within 4 (extractWithLanguageFallback P videoId).
Proof.
  unfold extractWithLanguageFallback.
  repeat lazymatch goal with
         | |- calls_within _ (bind (try_languages _ _ _) _) =>
             apply (calls_bind 4 0);
             [apply (calls_try_languages _ languages) | intros]
         | |- _ => calls_step
         end.
Qed.

Lemma calls_try_primary videoId apiKey :
  calls_within (if key_present apiKey then 4 else 0)
               (try_primary P analyze videoId apiKey).
Proof.
  unfold try_primary. destruct apiKey as [[|c key]|]; cbn [key_present nonempty].
  - repeat calls_step.
  - apply (calls_bind 4 0); [apply calls_DataAPI | ].
    intros [r|]; [ | apply calls_ret].
    apply calls_then; [apply calls_banner | intros; apply calls_ret].
  - repeat calls_step.
Qed.

(** A strategy's result announced, or the next step. *)
Lemma calls_announce (n1 n2 : nat) (m rest : M (option CaptionResult)) name :
  calls_within n1 m -> calls_within n2 rest ->
  calls_within (n1 + n2)
    (bind m (fun result =>
               match result with
               | Some r => bind (banner name) (fun _ => ret (Some r))
               | None => rest
               end)).
Proof.
  intros Hm Hr. apply calls_bind; [exact Hm | ].
  intros [r|]; [ | exact Hr].
  apply calls_then; [apply calls_banner | intros; apply calls_ret].
Qed.

Lemma calls_extractCaptions videoId apiKey :
  calls_within ((if key_present apiKey then 4 else 0) + (3 + (2 + (4 + 0))))
               (extractCaptions P analyze videoId apiKey).
Proof.
  unfold extractCaptions.
  apply calls_then; [unfold header; repeat calls_step | intros _].
  apply calls_bind; [apply calls_try_primary | ].
  intros [r|]; [apply calls_ret | ].
  apply calls_announce; [apply calls_TranscriptPackage | ].
  apply calls_announce; [apply calls_TimedTextAPI | ].
  apply calls_announce; [apply calls_LanguageFallback | ].
  repeat calls_step.
Qed.
End Calls.

(* ================================================================== *)
(** * What every result carries *)
(* ================================================================== *)

Lemma bindR_Ok {A B} (r : Result A) (k : A -> Result B) b :
  bindR r k = Ok b -> exists a, r = Ok a /\ k a = Ok b.
Proof. destruct r as [a|e]; cbn; [eauto | discriminate]. Qed.

Lemma decode_json3_single_spaced P captionContent t :
  decode_json3 P captionContent = Ok t -> single_spaced t = true.
Proof.
  unfold decode_json3. destruct (JSON_parse P captionContent); [ | discriminate].
  intros H. apply bindR_Ok in H as (events & _ & H).
  destruct (truthy events).
  - apply bindR_Ok in H as (l1 & _ & H). apply bindR_Ok in H as (l2 & _ & H).
    apply bindR_Ok in H as (l3 & _ & H). inversion H.
    apply single_spaced_trim_collapse.
  - inversion H. reflexivity.
Qed.

Lemma post_lift {A} (r : Result A) (Q : A -> Prop) :
  (forall a, r = Ok a -> Q a) -> post (lift r) Q.
Proof. intros H st a st' E. inversion E; subst. apply H. reflexivity. Qed.

Ltac tidy_close :=
  unfold tidy; cbn [transcript]; try exact I;
  first [ assumption | apply single_spaced_trim_collapse ].

Section Carried.
Variable P : Platform.
Variable analyze : jsstring -> QualityAssessment.

(** ** Single-spaced transcripts *)

Lemma tidy_try_format videoId language trackKind n format :
  post (try_format P analyze videoId language trackKind n format) tidy.
Proof.
  unfold try_format. cbv zeta.
  repeat lazymatch goal with
         | |- post (bind (if str_eqb _ _ then _ else _) _) _ =>
             apply post_bind_with
               with (R := fun t : list N => single_spaced t = true);
             [ destruct (str_eqb _ _);
               [ apply post_lift; intros t' E;
                 exact (decode_json3_single_spaced _ _ _ E)
               | apply post_ret; apply single_spaced_trim_collapse ]
             | intros ]
         | |- _ => post_step
         end; tidy_close.
Qed.

Lemma tidy_try_formats videoId language trackKind n fs :
  post (try_formats P analyze videoId language trackKind n fs) tidy.
Proof.
  induction fs as [|format fs IH]; cbn [try_formats].
  - apply post_ret. exact I.
  - apply post_forward; [apply tidy_try_format | exact IH].
Qed.

Lemma tidy_DataAPI videoId apiKey :
  post (extractWithYouTubeDataAPI P analyze videoId apiKey) tidy.
Proof.
  unfold extractWithYouTubeDataAPI. cbv zeta.
  repeat first [ apply post_forward; [apply tidy_try_formats | ]
               | post_step ];
    tidy_close.
Qed.

Lemma tidy_TranscriptPackage videoId :
  post (extractWithYoutubeTranscript P analyze videoId) tidy.
Proof.
  unfold extractWithYoutubeTranscript. cbv zeta. repeat post_step; tidy_close.
Qed.

Lemma tidy_parseCaptionTracks tracksJson videoId pattern :
  post (parseCaptionTracks P tracksJson videoId pattern) tidy.
Proof.
  unfold parseCaptionTracks, assemble. cbv zeta. repeat post_step; tidy_close.
Qed.

Lemma tidy_TimedTextAPI videoId :
  post (extractWithTimedTextAPI P videoId) tidy.
Proof.
  unfold extractWithTimedTextAPI. cbv zeta.
  repeat lazymatch goal with
         | |- post (parseCaptionTracks _ _ _ _) _ =>
             apply tidy_parseCaptionTracks
         | |- _ => post_step
         end; tidy_close.
Qed.

Lemma tidy_try_languages videoId ls :
  post (try_languages P videoId ls) tidy.
Proof.
  induction ls as [|lang ls IH]; cbn [try_languages].
  - apply post_ret. exact I.
  - apply post_forward; [ | exact IH].
    unfold try_language, assemble. cbv zeta. repeat post_step; tidy_close.
Qed.

Lemma tidy_LanguageFallback videoId :
  post (extractWithLanguageFallback P videoId) tidy.
Proof.
  unfold extractWithLanguageFallback.
  repeat first [ apply post_forward; [apply tidy_try_languages | ]
               | post_step ];
    tidy_close.
Qed.

(** What holds of the result of every strategy holds of the result of
    [extractCaptions]. *)
Lemma post_extractCaptions_of (Q : option CaptionResult -> Prop) videoId apiKey :
  Q None ->
  (forall key, post (extractWithYouTubeDataAPI P analyze videoId key) Q) ->
  post (extractWithYoutubeTranscript P analyze videoId) Q ->
  post (extractWithTimedTextAPI P videoId) Q ->
  post (extractWithLanguageFallback P videoId) Q ->
  post (extractCaptions P analyze videoId apiKey) Q.
Proof.
  intros HN H1 H2 H3 H4. unfold extractCaptions.
  apply post_bind; intros _.
  apply post_forward.
  { unfold try_primary. destruct apiKey as [[|c key]|].
    - apply post_bind; intros _. apply post_ret. exact HN.
    - apply post_announce; [apply H1 | apply post_ret; exact HN].
    - apply post_bind; intros _. apply post_ret. exact HN. }
  apply post_announce; [exact H2 | ].
  apply post_announce; [exact H3 | ].
  apply post_announce; [exact H4 | ].
  repeat (apply post_bind; intros _). apply post_ret. exact HN.
Qed.
End Carried.

(* ================================================================== *)
(** * One request, one answer *)
(* ================================================================== *)

Lemma leb_ltb_false (a b : nat) : (a <=? b) = negb (b <? a).
Proof.
  destruct (a <=? b) eqn:E1, (b <? a) eqn:E2; try reflexivity.
  - apply Nat.leb_le in E1. apply Nat.ltb_lt in E2. lia.
  - apply Nat.leb_gt in E1. apply Nat.ltb_ge in E2. lia.
Qed.

Lemma nonempty_length (s : list N) :
  100 <= List.length s -> nonempty s = true.
Proof. destruct s; cbn; [lia | reflexivity]. Qed.

Section Answers.
Variable P : Platform.
Variable analyze : jsstring -> QualityAssessment.

(** A request of the language strategy: one call, no exception, and the
    answer a function of what the platform serves. *)
Lemma try_language_run videoId lang st :
  exists st',
    try_language P videoId lang st
    = (Ok (language_answer P videoId (clock st) lang), st')
    /\ clock st' = S (clock st)
    /\ invocations st' = invocations st.
Proof.
  unfold try_language, language_answer, served, timedtext_url, acceptable_markup,
    Fetch, try_catch, bind, call, console_log, lift, ret.
  cbn [clock tick invocations].
  change (lit "&fmt=" ++ lit "srv3") with (lit "&fmt=srv3").
  destruct (fetch P (clock st) _ None) as [resp|e];
    [ | eexists; repeat split].
  destruct (ok resp); cbn [negb]; [ | eexists; repeat split].
  destruct (body resp) as [xml|e]; [ | eexists; repeat split].
  rewrite (leb_ltb_false 100 (List.length xml)).
  rewrite (leb_ltb_false 50 (List.length (decode_markup_fallback xml))).
  unfold decode_markup_fallback.
  destruct (List.length xml <? 100) eqn:E1.
  { rewrite orb_true_r. cbn. eexists; repeat split. }
  apply Nat.ltb_ge in E1. rewrite (nonempty_length xml E1). cbn [negb orb andb].
  destruct (includes xml (lit "error")); cbn [negb orb andb];
    [eexists; repeat split | ].
  destruct (List.length (textMatches xml) =? 0); cbn [negb andb];
    [eexists; repeat split | ].
  destruct (List.length (assemble decode_cue_fallback (textMatches xml)) <? 50);
    cbn [negb]; eexists; repeat split.
Qed.
End Answers.

Section FormatAnswers.
Variable P : Platform.
Variable analyze : jsstring -> QualityAssessment.

(** A request of the primary fetcher: one call, no exception, and the
    answer a function of what the platform serves. *)
Lemma try_format_run videoId language trackKind n format st :
  exists st',
    try_format P analyze videoId language trackKind n format st
    = (Ok (format_answer P videoId language trackKind (clock st) format), st')
    /\ clock st' = S (clock st)
    /\ invocations st' = invocations st.
Proof.
  unfold try_format, format_answer, served, timedtext_url, decode_payload,
    log_quality, Fetch, try_catch, bind, call, console_log, lift, ret.
  cbn [clock tick invocations].
  destruct (fetch P (clock st) _ None) as [resp|e];
    [ | eexists; repeat split].
  destruct (ok resp); cbn [negb]; [ | eexists; repeat split].
  destruct (body resp) as [content|e]; [ | eexists; repeat split].
  rewrite (leb_ltb_false 100 (List.length content)).
  destruct (List.length content <? 100) eqn:E1.
  { rewrite orb_true_r. cbn. eexists; repeat split. }
  apply Nat.ltb_ge in E1. rewrite (nonempty_length content E1).
  cbn [negb orb].
  destruct (str_eqb (fmt format) (lit "json3")).
  - destruct (decode_json3 P content) as [text|e]; [ | eexists; repeat split].
    destruct (50 <? List.length text); eexists; repeat split.
  - destruct (50 <? List.length (decode_markup content)); eexists; repeat split.
Qed.
End FormatAnswers.

(* ================================================================== *)
(** * Loops that stop at the first answer *)
(* ================================================================== *)

(** The outcome of trying the items of [ls] in order, the item number
    [k] as call number [t + k]: either no item has an answer, or [r] is
    the answer of the first item that has one. [calls] is the number of
    items tried. *)
Lemma first_answer_spec {L} (answer : nat -> L -> option CaptionResult)
      (loop : list L -> M (option CaptionResult)) :
  (forall st, loop [] st = (Ok None, st)) ->
  (forall l ls st, exists s1,
      clock s1 = S (clock st) /\ invocations s1 = invocations st
      /\ loop (l :: ls) st
         = match answer (clock st) l with
           | Some c => (Ok (Some c), s1)
           | None => loop ls s1
           end) ->
  forall ls st, exists r st',
    loop ls st = (Ok r, st')
    /\ invocations st' = invocations st
    /\ match r with
       | Some c =>
           exists k l,
             nth_error ls k = Some l
             /\ answer (clock st + k) l = Some c
             /\ (forall j l', j < k -> nth_error ls j = Some l' ->
                              answer (clock st + j) l' = None)
             /\ clock st' = clock st + S k
       | None =>
           (forall k l, nth_error ls k = Some l ->
                        answer (clock st + k) l = None)
           /\ clock st' = clock st + List.length ls
       end.
Proof.
  intros Hnil Hcons ls. induction ls as [|l ls IH]; intros st.
  - exists None, st. rewrite Hnil. repeat split; [ | cbn; lia].
    intros [|k] l H; discriminate.
  - destruct (Hcons l ls st) as (s1 & C1 & I1 & E). rewrite E.
    destruct (answer (clock st) l) as [c|] eqn:A.
    + exists (Some c), s1. repeat split; [exact I1 | ].
      exists 0, l. rewrite Nat.add_0_r. repeat split; [exact A | | lia].
      intros j l' Hj. lia.
    + destruct (IH s1) as (r & st' & E' & I' & R).
      exists r, st'. split; [exact E' | ]. split; [congruence | ].
      destruct r as [c|].
      * destruct R as (k & l0 & N & A0 & F & C).
        exists (S k), l0. rewrite C1 in *.
        replace (clock st + S k) with (S (clock st) + k) by lia.
        repeat split; [exact N | exact A0 | | lia].
        intros [|j] l' Hj Hn.
        -- cbn in Hn. inversion Hn; subst l'. rewrite Nat.add_0_r. exact A.
        -- replace (clock st + S j) with (S (clock st) + j) by lia.
           apply F; [lia | exact Hn].
      * destruct R as [F C]. rewrite C1 in *. split; [ | cbn; lia].
        intros [|k] l' Hn.
        -- cbn in Hn. inversion Hn; subst l'. rewrite Nat.add_0_r. exact A.
        -- replace (clock st + S k) with (S (clock st) + k) by lia.
           apply F. exact Hn.
Qed.

Section Loops.
Variable P : Platform.
Variable analyze : jsstring -> QualityAssessment.

Lemma try_languages_first videoId ls st :
  exists r st',
    try_languages P videoId ls st = (Ok r, st')
    /\ invocations st' = invocations st
    /\ match r with
       | Some c =>
           exists k l,
             nth_error ls k = Some l
             /\ language_answer P videoId (clock st + k) l = Some c
             /\ (forall j l', j < k -> nth_error ls j = Some l' ->
                              language_answer P videoId (clock st + j) l' = None)
             /\ clock st' = clock st + S k
       | None =>
           (forall k l, nth_error ls k = Some l ->
                        language_answer P videoId (clock st + k) l = None)
           /\ clock st' = clock st + List.length ls
       end.
Proof.
  apply (first_answer_spec (language_answer P videoId) (try_languages P videoId)).
  - reflexivity.
  - intros l ls' s. cbn [try_languages].
    destruct (try_language_run P videoId l s) as (s1 & E & C & I).
    exists s1. split; [exact C | ]. split; [exact I | ].
    rewrite (bind_Ok E). destruct (language_answer _ _ _ _); reflexivity.
Qed.

Lemma try_formats_first videoId language trackKind n fs st :
  exists r st',
    try_formats P analyze videoId language trackKind n fs st = (Ok r, st')
    /\ invocations st' = invocations st
    /\ match r with
       | Some c =>
           exists k f,
             nth_error fs k = Some f
             /\ format_answer P videoId language trackKind (clock st + k) f
                = Some c
             /\ (forall j f', j < k -> nth_error fs j = Some f' ->
                   format_answer P videoId language trackKind (clock st + j) f'
                   = None)
             /\ clock st' = clock st + S k
       | None =>
           (forall k f, nth_error fs k = Some f ->
              format_answer P videoId language trackKind (clock st + k) f = None)
           /\ clock st' = clock st + List.length fs
       end.
Proof.
  apply (first_answer_spec (format_answer P videoId language trackKind)
           (try_formats P analyze videoId language trackKind n)).
  - reflexivity.
  - intros f fs' s. cbn [try_formats].
    destruct (try_format_run P analyze videoId language trackKind n f s)
      as (s1 & E & C & I).
    exists s1. split; [exact C | ]. split; [exact I | ].
    rewrite (bind_Ok E). destruct (format_answer _ _ _ _ _ _); reflexivity.
Qed.
End Loops.

(* ================================================================== *)
(** * The primary strategy, end to end *)
(* ================================================================== *)

Lemma served_Some P t url ua text :
  served P t url ua = Some text ->
  exists resp, fetch P t url ua = Ok resp /\ ok resp = true
               /\ body resp = Ok text.
Proof.
  unfold served. destruct (fetch P t url ua) as [resp|e] eqn:F; [ | discriminate].
  destruct (ok resp) eqn:O; [ | discriminate].
  destruct (body resp) as [s|e] eqn:B; [ | discriminate].
  intros H; inversion H; subst. exists resp. auto.
Qed.

(** The choice of the track on the items of well-formed tracks. *)
Lemma select_track_items tracks :
  tracks <> [] ->
  exists t,
    select_track (List.map track_item tracks) = Ok (track_item t)
    /\ priority_choice tracks t.
Proof.
  intros Hne. unfold select_track.
  rewrite (findR_items _ en_standard tracks (is_track_item "en" "standard")).
  cbn [bindR].
  destruct (List.find en_standard tracks) as [t1|] eqn:E1.
  { exists t1. cbn. split; [reflexivity | ].
    left. exact (find_first_such _ _ _ E1). }
  pose proof (find_none_such _ _ E1) as N1. cbn [found truthy negb].
  rewrite (findR_items _ en_auto tracks (is_track_item "en" "asr")).
  cbn [bindR].
  destruct (List.find en_auto tracks) as [t2|] eqn:E2.
  { exists t2. cbn. split; [reflexivity | ]. right; left.
    split; [exact N1 | exact (find_first_such _ _ _ E2)]. }
  pose proof (find_none_such _ _ E2) as N2. cbn [found truthy negb].
  rewrite (findR_items _ is_standard tracks (is_kind_item "standard")).
  cbn [bindR].
  destruct (List.find is_standard tracks) as [t3|] eqn:E3.
  { exists t3. cbn. split; [reflexivity | ]. right; right; left.
    repeat split; try assumption. exact (find_first_such _ _ _ E3). }
  pose proof (find_none_such _ _ E3) as N3. cbn [found truthy negb].
  rewrite (findR_items _ is_auto tracks (is_kind_item "asr")).
  cbn [bindR].
  destruct (List.find is_auto tracks) as [t4|] eqn:E4.
  { exists t4. cbn. split; [reflexivity | ]. right; right; right; left.
    repeat split; try assumption. exact (find_first_such _ _ _ E4). }
  pose proof (find_none_such _ _ E4) as N4. cbn [found truthy negb].
  destruct tracks as [|t tracks]; [contradiction | ].
  exists t. split; [reflexivity | ]. right; right; right; right.
  repeat split; assumption.
Qed.

Lemma try_Ok {A} (m : M A) (h : Error -> M A) st a st' :
  m st = (Ok a, st') -> try_catch m h st = (Ok a, st').
Proof. intros E. unfold try_catch. rewrite E. reflexivity. Qed.

Lemma try_Throw {A} (m : M A) (h : Error -> M A) st e st' :
  m st = (Throw e, st') -> try_catch m h st = h e st'.
Proof. intros E. unfold try_catch. rewrite E. reflexivity. Qed.

(** The lines about the tracks: no call, no exception on well-formed
    items. *)
Lemma forEachM_tracks (f : JsVal -> nat -> M unit) tracks :
  (forall t i st, exists st',
      f (track_item t) i st = (Ok tt, st')
      /\ clock st' = clock st /\ invocations st' = invocations st) ->
  forall i st, exists st',
    forEachM f i (List.map track_item tracks) st = (Ok tt, st')
    /\ clock st' = clock st /\ invocations st' = invocations st.
Proof.
  intros Hf. induction tracks as [|t tracks IH]; intros i st.
  - exists st. repeat split.
  - cbn [List.map forEachM]. destruct (Hf t i st) as (s1 & E1 & C1 & I1).
    rewrite (bind_Ok E1). destruct (IH (S i) s1) as (s2 & E2 & C2 & I2).
    exists s2. split; [exact E2 | split; congruence].
Qed.

Section Primary.
Variable P : Platform.
Variable analyze : jsstring -> QualityAssessment.

(** X6: when the listing is not served, does not parse, or holds no
    non-empty array of items, the primary strategy returns [null] after
    its single request: it asks for no payload. *)
Theorem DataAPI_no_items_one_call videoId apiKey st :
  listing_items P (clock st) videoId apiKey = None ->
  exists st',
    extractWithYouTubeDataAPI P analyze videoId apiKey st = (Ok None, st')
    /\ clock st' = S (clock st).
Proof.
  unfold listing_items, served, captions_list_url, extractWithYouTubeDataAPI,
    json, parse, Fetch, try_catch, bind, bindR, call, enter, console_log,
    lift, ret.
  cbn [clock tick invocations].
  destruct (fetch P (clock st) _ None) as [resp|e];
    [ | intros _; eexists; split; reflexivity].
  destruct (ok resp); cbn [negb].
  2:{ intros _. destruct (body resp); eexists; split; reflexivity. }
  destruct (body resp) as [text|e];
    [ | intros _; eexists; split; reflexivity].
  destruct (JSON_parse P text) as [data|];
    [ | intros _; eexists; split; reflexivity].
  destruct (get data "items") as [items|e];
    [ | intros _; eexists; split; reflexivity].
  destruct items as [| |b|x|s|l|fs]; cbn [truthy negb get is_zero];
    try (intros _; eexists; split; reflexivity).
  - destruct b; cbn; intros _; eexists; split; reflexivity.
  - destruct (PrimFloat.eqb x x && negb (PrimFloat.eqb x PrimFloat.zero));
      cbn; intros _; eexists; split; reflexivity.
  - destruct s as [|c s]; cbn [negb];
      [intros _; eexists; split; reflexivity | ].
    destruct (is_zero _); intros _; eexists; split; reflexivity.
  - destruct l as [|x l]; [ | discriminate].
    intros _. eexists; split; reflexivity.
  - destruct (is_zero (lookup (lit "length") fs));
      intros _; eexists; split; reflexivity.
Qed.
End Primary.

Section PrimaryFormats.
Variable P : Platform.
Variable analyze : jsstring -> QualityAssessment.

Lemma snippet_track_name t :
  snippet (track_item t) "name" = Ok (VStr (track_name t)).
Proof. reflexivity. Qed.

Lemma get_length_VArr l :
  get (VArr l) "length" = Ok (VNum (number_of_nat (List.length l))).
Proof. reflexivity. Qed.

(** X7: on a listing of well-formed tracks, the primary strategy chooses
    the track by priority and asks for its language in the formats srv3,
    json3, srv1, in this order, one request each after the listing; it
    returns the answer of the first format whose payload is served, has
    a hundred code units or more and decodes to more than fifty, tagged
    with the language and the kind of the chosen track, and [null] after
    the three requests when there is none. *)
Theorem DataAPI_first_format videoId apiKey st tracks :
  listing_items P (clock st) videoId apiKey = Some (List.map track_item tracks) ->
  length_is_zero (List.length tracks) = false ->
  exists t r st',
    priority_choice tracks t
    /\ extractWithYouTubeDataAPI P analyze videoId apiKey st = (Ok r, st')
    /\ match r with
       | Some c =>
           exists k f,
             nth_error formats k = Some f
             /\ format_answer P videoId (VStr (track_language t))
                              (VStr (track_kind t)) (S (clock st) + k) f
                = Some c
             /\ (forall j f', j < k -> nth_error formats j = Some f' ->
                   format_answer P videoId (VStr (track_language t))
                                 (VStr (track_kind t)) (S (clock st) + j) f'
                   = None)
             /\ clock st' = S (clock st) + S k
       | None =>
           (forall k f, nth_error formats k = Some f ->
              format_answer P videoId (VStr (track_language t))
                            (VStr (track_kind t)) (S (clock st) + k) f = None)
           /\ clock st' = S (clock st) + 3
       end.
Proof.
  intros HL HZ.
  assert (Hne : tracks <> []).
  { intros ->. unfold listing_items in HL.
    destruct (served _ _ _ _); [ | discriminate].
    destruct (JSON_parse _ _); [ | discriminate].
    destruct (get _ _) as [[| | | | |[|x l0]|]|]; discriminate. }
  destruct (select_track_items tracks Hne) as (t & Sel & Choice).
  exists t.
  unfold listing_items in HL.
  destruct (served P (clock st) (captions_list_url videoId apiKey) None)
    as [text|] eqn:Sv; [ | discriminate].
  apply served_Some in Sv as (resp & F & O & B).
  destruct (JSON_parse P text) as [data|] eqn:J; [ | discriminate].
  destruct (get data "items") as [items|] eqn:G; [ | discriminate].
  assert (items = VArr (List.map track_item tracks)) as ->.
  { destruct items as [| | | | |[|x l0]|]; try discriminate.
    inversion HL. reflexivity. }
  clear HL.
  unfold extractWithYouTubeDataAPI, Fetch. cbv zeta.
  unfold captions_list_url in F.
  unfold try_catch, bind, enter, console_log, call, lift, ret.
  cbn [clock tick invocations].
  rewrite F. cbn [negb]. rewrite O. cbn [negb].
  unfold json, parse. rewrite B. cbn [bindR]. rewrite J, G.
  cbn [truthy negb]. rewrite get_length_VArr, length_map.
  unfold length_is_zero in HZ. rewrite HZ.
  cbn [asArray clock tick invocations console].
  match goal with
  | |- context [forEachM ?f 0 (List.map track_item tracks) ?s] =>
      destruct (forEachM_tracks f tracks) with (i := 0) (st := s)
        as (s1 & E1 & C1 & I1)
  end.
  { intros t0 i s. eexists. split; [reflexivity | split; reflexivity]. }
  rewrite E1. rewrite Sel.
  destruct (snippet_track_item t) as [-> ->]. rewrite snippet_track_name.
  match goal with
  | |- context [try_formats P analyze ?v ?l ?k ?n ?fs ?s] =>
      destruct (try_formats_first P analyze v l k n fs s)
        as (r & s2 & E2 & I2 & R)
  end.
  rewrite E2. cbn [clock invocations] in R. rewrite C1 in R. cbn [clock] in R.
  destruct r as [c|].
  - eexists _, _. split; [exact Choice | ]. split; [reflexivity | ].
    exact R.
  - eexists _, _. split; [exact Choice | ]. split; [reflexivity | ].
    cbn [clock]. exact R.
Qed.
End PrimaryFormats.

Section Fallback.
Variable P : Platform.

(** X5: strategy D asks for the codes [en], [a.en], [en-US], [en-GB] in
    this order, one request each, and returns the answer of the first
    code whose payload is served and acceptable (a hundred code units or
    more, the word [error] nowhere in it, a cue in it, fifty code units
    or more once decoded), asking for no further code; it returns [null]
    after the four requests when none is. *)
Theorem LanguageFallback_first_acceptable videoId st :
  exists r st',
    extractWithLanguageFallback P videoId st = (Ok r, st')
    /\ match r with
       | Some c =>
           exists k l,
             nth_error languages k = Some l
             /\ language_answer P videoId (clock st + k) l = Some c
             /\ (forall j l', j < k -> nth_error languages j = Some l' ->
                              language_answer P videoId (clock st + j) l' = None)
             /\ clock st' = clock st + S k
       | None =>
           (forall k l, nth_error languages k = Some l ->
                        language_answer P videoId (clock st + k) l = None)
           /\ clock st' = clock st + 4
       end.
Proof.
  unfold extractWithLanguageFallback.
  unfold try_catch, bind at 1 2 3, enter, console_log.
  match goal with
  | |- context [try_languages P videoId languages ?s] =>
      destruct (try_languages_first P videoId languages s)
        as (r & s1 & E & I & R)
  end.
  rewrite E. cbn [clock] in R. destruct r as [c|].
  - eexists _, _. split; [reflexivity | exact R].
  - eexists _, _. split; [reflexivity | exact R].
Qed.
End Fallback.

(* ================================================================== *)
(** * Properties of the run, of the results and of the strategies *)
(* ================================================================== *)

(** X2: a run makes at most 13 calls to the platform with a key and at
    most 9 without one: at most 4 in the primary strategy, 3 in strategy
    B, 2 in strategy C and 4 in strategy D, whether they return or
    throw. *)
Theorem platform_calls_bounded P analyze videoId apiKey :
  calls_within (if key_present apiKey then 13 else 9)
               (extractCaptions P analyze videoId apiKey)
  /\ (forall key, calls_within 4 (extractWithYouTubeDataAPI P analyze videoId key))
  /\ calls_within 3 (extractWithYoutubeTranscript P analyze videoId)
  /\ calls_within 2 (extractWithTimedTextAPI P videoId)
  /\ calls_within 4 (extractWithLanguageFallback P videoId).
Proof.
  split; [ | split; [ | split; [ | split]]].
  - pose proof (calls_extractCaptions P analyze videoId apiKey) as H.
    destruct (key_present apiKey); exact H.
  - intros key. apply calls_DataAPI.
  - apply calls_TranscriptPackage.
  - apply calls_TimedTextAPI.
  - apply calls_LanguageFallback.
Qed.

(** X3: the transcript of every result is single-spaced: no white space
    at its ends, no white space but the space, never two spaces in a
    row. *)
Theorem results_single_spaced P analyze videoId apiKey st c st' :
  extractCaptions P analyze videoId apiKey st = (Ok (Some c), st') ->
  single_spaced (transcript c) = true.
Proof.
  intros E.
  refine (post_extractCaptions_of P analyze tidy videoId apiKey I _ _ _ _ _ _ _ E).
  - intros key. apply tidy_DataAPI.
  - apply tidy_TranscriptPackage.
  - apply tidy_TimedTextAPI.
  - apply tidy_LanguageFallback.
Qed.

Lemma results_single_spaced_witness :
  exists c,
    fst (extract captioned_video toLowerCase_ascii (lit "abcDEF12345")
                 (Some (lit "KEY")) initial) = Ok (Some c)
    /\ transcript c
       = lit "Hello everyone & welcome to my channel today we talk about climate change"
    /\ single_spaced (transcript c) = true.
Proof.
  eexists. split; [vm_compute; reflexivity | ]. split; [reflexivity | ].
  eapply (results_single_spaced captioned_video
            (analyzeTranscriptQuality toLowerCase_ascii)
            (lit "abcDEF12345") (Some (lit "KEY")) initial).
  vm_compute; reflexivity.
Defined.

(* ================================================================== *)
(** * The tags of a result *)
(* ================================================================== *)

Lemma post_call {A} (f : nat -> Result A) :
  post (call f) (fun a => exists n, f n = Ok a).
Proof.
  intros st a st' E. unfold call in E. inversion E. exists (clock st).
  reflexivity.
Qed.

Lemma json_Ok P response data :
  json P response = Ok data ->
  exists text, body response = Ok text /\ JSON_parse P text = Some data.
Proof.
  unfold json, parse. destruct (body response) as [text|e]; cbn [bindR];
    [ | discriminate].
  destruct (JSON_parse P text) as [v|] eqn:J; [ | discriminate].
  intros H; injection H as <-. exists text. auto.
Qed.

Lemma asArray_Ok v l : asArray v = Ok l -> v = VArr l.
Proof.
  destruct v; try discriminate. intros H; injection H as <-. reflexivity.
Qed.

Section Tags.
Variable P : Platform.
Variable analyze : jsstring -> QualityAssessment.

(** A result of the loop over the formats carries the language it was
    asked for and the kind it was given. *)
Lemma tags_try_formats videoId lang kind n fs :
  post (try_formats P analyze videoId lang kind n fs)
       (fun r => forall c, r = Some c ->
                 language c = lang
                 /\ method c = lit "youtube-data-api-" ++ ToString P kind).
Proof.
  induction fs as [|format fs IH]; cbn [try_formats].
  - apply post_ret. discriminate.
  - apply post_forward; [ | exact IH].
    unfold try_format. cbv zeta. repeat post_step; try discriminate.
    intros c H. injection H as <-. split; reflexivity.
Qed.

Lemma tags_DataAPI videoId key :
  post (extractWithYouTubeDataAPI P analyze videoId key)
       (tagged_result P videoId (Some key) DataAPI).
Proof.
  unfold extractWithYouTubeDataAPI, Fetch. cbv zeta.
  apply post_bind; intros _.
  apply post_try; [ | intros; post_auto].
  apply post_bind; intros _. apply post_bind; intros _.
  eapply post_bind_with; [apply post_call | ].
  intros response [n F]. cbv beta in F.
  destruct (ok response) eqn:O; cbn [negb]; [ | post_auto].
  eapply post_bind_with; [apply post_lift; intros data H; exact H | ].
  intros data J. cbv beta in J.
  eapply post_bind_with; [apply post_lift; intros items H; exact H | ].
  intros items I. cbv beta in I.
  apply post_bind_with
    with (R := fun b : bool =>
                 b = false ->
                 exists len, get items "length" = Ok len /\ is_zero len = false).
  { destruct (negb (truthy items)); [apply post_ret; discriminate | ].
    eapply post_bind_with; [apply post_lift; intros len H; exact H | ].
    intros len L. apply post_ret. intros Z. exists len. auto. }
  intros [|] Z; [post_auto | ].
  destruct (Z eq_refl) as (len & L & NZ).
  apply post_bind; intros len'. apply post_bind; intros _.
  eapply post_bind_with; [apply post_lift; intros l H; exact H | ].
  intros l Arr. cbv beta in Arr. apply asArray_Ok in Arr. subst items.
  apply post_bind; intros _.
  eapply post_bind_with; [apply post_lift; intros item H; exact H | ].
  intros item Sel. cbv beta in Sel.
  eapply post_bind_with; [apply post_lift; intros lang H; exact H | ].
  intros lang Lg. cbv beta in Lg.
  eapply post_bind_with; [apply post_lift; intros kind H; exact H | ].
  intros kind Kd. cbv beta in Kd.
  apply post_bind; intros trackName. apply post_bind; intros _.
  apply post_bind; intros _.
  eapply post_bind_with; [apply tags_try_formats | ].
  intros [c|] T; [ | post_auto].
  apply post_ret. destruct (T c eq_refl) as [T1 T2].
  destruct (json_Ok _ _ _ J) as (text & B & Parse).
  exists n, key, l, item, kind.
  split; [reflexivity | ]. split.
  { unfold listing_items, served, captions_list_url.
    rewrite F, O, B, Parse, I.
    destruct l as [|x l]; [ | reflexivity].
    rewrite get_length_VArr in L. injection L as <-. discriminate NZ. }
  split; [exact Sel | ]. split; [rewrite T1; exact Lg | ].
  split; [exact Kd | exact T2].
Qed.

Lemma tags_TranscriptPackage videoId apiKey :
  post (extractWithYoutubeTranscript P analyze videoId)
       (tagged_result P videoId apiKey TranscriptPackage).
Proof.
  unfold extractWithYoutubeTranscript. cbv zeta. repeat post_step; try exact I.
  split; reflexivity.
Qed.

Lemma tags_parseCaptionTracks tracksJson videoId apiKey pattern :
  post (parseCaptionTracks P tracksJson videoId pattern)
       (tagged_result P videoId apiKey TimedTextAPI).
Proof.
  unfold parseCaptionTracks. cbv zeta. repeat post_step; try exact I.
  split; [reflexivity | ]. cbn [language].
  match goal with |- truthy (if truthy ?v then _ else _) = true =>
    destruct (truthy v) eqn:T; [exact T | reflexivity] end.
Qed.

Lemma tags_TimedTextAPI videoId apiKey :
  post (extractWithTimedTextAPI P videoId)
       (tagged_result P videoId apiKey TimedTextAPI).
Proof.
  unfold extractWithTimedTextAPI. cbv zeta.
  repeat lazymatch goal with
         | |- post (parseCaptionTracks _ _ _ _) _ =>
             apply tags_parseCaptionTracks
         | |- _ => post_step
         end; exact I.
Qed.

Lemma tags_try_languages videoId apiKey ls :
  (forall l, In l ls -> In l languages) ->
  post (try_languages P videoId ls)
       (tagged_result P videoId apiKey LanguageFallback).
Proof.
  induction ls as [|lang ls IH]; intros Hin; cbn [try_languages].
  - apply post_ret. exact I.
  - apply post_forward; [ | apply IH; intros l H; apply Hin; right; exact H].
    unfold try_language. cbv zeta. repeat post_step; try exact I.
    split; [reflexivity | ].
    exists lang. split; [apply Hin; left; reflexivity | reflexivity].
Qed.

Lemma tags_LanguageFallback videoId apiKey :
  post (extractWithLanguageFallback P videoId)
       (tagged_result P videoId apiKey LanguageFallback).
Proof.
  unfold extractWithLanguageFallback.
  repeat first [ apply post_forward;
                 [apply tags_try_languages; intros l H; exact H | ]
               | post_step ];
    exact I.
Qed.

(** A strategy that gives a result, its banner, and the return. *)
Lemma announced_run (m rest : M (option CaptionResult)) name s0 c st' :
  bind m (fun result =>
            match result with
            | Some r => bind (banner name) (fun _ => ret (Some r))
            | None => rest
            end) s0 = (Ok (Some c), st') ->
  (exists s1, m s0 = (Ok (Some c), s1) /\ invocations st' = invocations s1)
  \/ (exists s1, m s0 = (Ok None, s1) /\ rest s1 = (Ok (Some c), st')).
Proof.
  unfold bind at 1. destruct (m s0) as [[[r|]|e] s1]; [ | | discriminate].
  - rewrite (bind_Ok (proj1 (banner_run name s1))). intros E.
    inversion E; subst. left. exists s1. split; [reflexivity | ].
    exact (proj1 (proj2 (banner_run name s1))).
  - intros E. right. exists s1. auto.
Qed.

(** X4: every result was returned by the strategy entered last, run on
    the identifier and the key of the call, and carries the tags of this
    strategy. The primary strategy: [youtube-data-api-] followed by the
    kind of the track it chose among the items of the listing served for
    the key, with the language of that same track. The transcript
    package: [youtube-transcript-package] with [en]. The page strategy:
    [timedtext-api] with a language that is never empty or undefined.
    The language strategy: [language-fallback] with one of the four
    codes it tries. *)
Theorem results_tagged videoId apiKey st c st' :
  extractCaptions P analyze videoId apiKey st = (Ok (Some c), st') ->
  exists s s0 s1,
    run_strategy P analyze videoId apiKey s s0 = (Ok (Some c), s1)
    /\ invocations st' = s :: invocations s0
    /\ tagged_by P videoId apiKey s c.
Proof.
  unfold extractCaptions.
  rewrite (bind_Ok (header_run videoId apiKey st)).
  set (s0 := snd (header videoId apiKey st)).
  unfold bind at 1.
  destruct (try_primary P analyze videoId apiKey s0) as [[[x|]|e] s1] eqn:E1;
    [ | | discriminate].
  { intros E. inversion E; subst x st'. clear E.
    unfold try_primary in E1. destruct apiKey as [[|k key]|]; try discriminate.
    apply announced_run in E1.
    destruct E1 as [(s & E & Inv) | (s & _ & E)]; [ | discriminate].
    exists DataAPI, s0, s. split; [exact E | ].
    split; [rewrite Inv; exact (invocations_DataAPI _ _ _ _ _ _ _ E) | ].
    exact (tags_DataAPI _ _ _ _ _ E). }
  intros E. apply announced_run in E.
  destruct E as [(s & E & Inv) | (s2 & _ & E)].
  { exists TranscriptPackage, s1, s. split; [exact E | ].
    split; [rewrite Inv; exact (invocations_TranscriptPackage _ _ _ _ _ _ E) | ].
    exact (tags_TranscriptPackage _ apiKey _ _ _ E). }
  apply announced_run in E.
  destruct E as [(s & E & Inv) | (s3 & _ & E)].
  { exists TimedTextAPI, s2, s. split; [exact E | ].
    split; [rewrite Inv; exact (invocations_TimedTextAPI _ _ _ _ _ E) | ].
    exact (tags_TimedTextAPI _ apiKey _ _ _ E). }
  apply announced_run in E.
  destruct E as [(s & E & Inv) | (s4 & _ & E)]; [ | discriminate].
  exists LanguageFallback, s3, s. split; [exact E | ].
  split; [rewrite Inv; exact (invocations_LanguageFallback _ _ _ _ _ E) | ].
  exact (tags_LanguageFallback _ apiKey _ _ _ E).
Qed.
End Tags.

Lemma results_tagged_witness :
  exists c,
    fst (extract captioned_video toLowerCase_ascii (lit "abcDEF12345")
                 (Some (lit "KEY")) initial) = Ok (Some c)
    /\ exists s s0 s1,
         run_strategy captioned_video
           (analyzeTranscriptQuality toLowerCase_ascii)
           (lit "abcDEF12345") (Some (lit "KEY")) s s0 = (Ok (Some c), s1)
         /\ invocations
              (snd (extract captioned_video toLowerCase_ascii
                      (lit "abcDEF12345") (Some (lit "KEY")) initial))
            = s :: invocations s0
         /\ tagged_by captioned_video (lit "abcDEF12345") (Some (lit "KEY"))
                      s c.
Proof.
  eexists. split; [vm_compute; reflexivity | ].
  eapply (results_tagged captioned_video
            (analyzeTranscriptQuality toLowerCase_ascii)
            (lit "abcDEF12345") (Some (lit "KEY")) initial).
  vm_compute; reflexivity.
Defined.

Lemma DataAPI_no_items_one_call_witness :
  exists st',
    extractWithYouTubeDataAPI uncaptioned_video
      (analyzeTranscriptQuality toLowerCase_ascii)
      (lit "abcDEF12345") (lit "KEY") initial = (Ok None, st')
    /\ clock st' = 1.
Proof.
  apply (DataAPI_no_items_one_call uncaptioned_video
           (analyzeTranscriptQuality toLowerCase_ascii)
           (lit "abcDEF12345") (lit "KEY") initial).
  vm_compute; reflexivity.
Defined.

Lemma DataAPI_first_format_witness :
  exists t r st',
    priority_choice [listed_track] t
    /\ extractWithYouTubeDataAPI captioned_video
         (analyzeTranscriptQuality toLowerCase_ascii)
         (lit "abcDEF12345") (lit "KEY") initial = (Ok r, st')
    /\ match r with
       | Some c =>
           exists k f,
             nth_error formats k = Some f
             /\ format_answer captioned_video (lit "abcDEF12345")
                  (VStr (track_language t)) (VStr (track_kind t))
                  (S (clock initial) + k) f = Some c
             /\ (forall j f', j < k -> nth_error formats j = Some f' ->
                   format_answer captioned_video (lit "abcDEF12345")
                     (VStr (track_language t)) (VStr (track_kind t))
                     (S (clock initial) + j) f' = None)
             /\ clock st' = S (clock initial) + S k
       | None =>
           (forall k f, nth_error formats k = Some f ->
              format_answer captioned_video (lit "abcDEF12345")
                (VStr (track_language t)) (VStr (track_kind t))
                (S (clock initial) + k) f = None)
           /\ clock st' = S (clock initial) + 3
       end.
Proof.
  apply (DataAPI_first_format captioned_video
           (analyzeTranscriptQuality toLowerCase_ascii)
           (lit "abcDEF12345") (lit "KEY") initial [listed_track]);
    vm_compute; reflexivity.
Defined.


(* ================================================================== *)
(** * Round trips of the identifier parser *)
(* ================================================================== *)

Lemma shapes_start_with_y shape :
  In shape url_shapes -> exists r, shape = letter_y :: r.
Proof.
  intros [<- | [<- | [<- | []]]]; eexists; reflexivity.
Qed.

Lemma shapes_hold_dot shape : In shape url_shapes -> In 46%N shape.
Proof.
  intros [<- | [<- | [<- | []]]]; vm_compute; tauto.
Qed.

Lemma url_alternatives_other c r :
  c <> letter_y -> url_alternatives url_shapes (c :: r) = None.
Proof.
  intros H. unfold letter_y in H.
  assert (E : N.eqb 121 c = false) by (apply N.eqb_neq; congruence).
  unfold url_shapes.
  change (lit "youtube.com/watch?v=") with (121%N :: lit "outube.com/watch?v=").
  change (lit "youtu.be/") with (121%N :: lit "outu.be/").
  change (lit "youtube.com/embed/") with (121%N :: lit "outube.com/embed/").
  cbn [url_alternatives strip_prefix]. rewrite E. reflexivity.
Qed.

Lemma match_url_skip before s :
  ~ In letter_y before -> match_url (before ++ s) = match_url s.
Proof.
  induction before as [|c b IH]; intros H; [reflexivity | ].
  cbn [app]. cbn [match_url].
  rewrite url_alternatives_other by (intros ->; apply H; left; reflexivity).
  apply IH. intros Hb; apply H; right; exact Hb.
Qed.

Lemma url_alternatives_here shape id after :
  In shape url_shapes -> id <> [] -> forallb isIdChar id = true ->
  ends_identifier after ->
  url_alternatives url_shapes (shape ++ id ++ after) = Some id.
Proof.
  intros Hs Hne Hid Hafter.
  assert (Hspan : fst (span isIdChar (id ++ after)) = id).
  { rewrite (span_exact isIdChar id after Hid Hafter). reflexivity. }
  assert (Hgo : forall a, strip_prefix a (a ++ id ++ after) = Some (id ++ after))
    by (intros a; apply strip_prefix_app).
  destruct Hs as [<- | [<- | [<- | []]]]; unfold url_shapes.
  - cbn [url_alternatives]. rewrite Hgo, Hspan.
    destruct id; [contradiction | reflexivity].
  - cbn [url_alternatives].
    change (strip_prefix (lit "youtube.com/watch?v=")
                         (lit "youtu.be/" ++ id ++ after)) with (@None (list N)).
    rewrite Hgo, Hspan. destruct id; [contradiction | reflexivity].
  - cbn [url_alternatives].
    change (strip_prefix (lit "youtube.com/watch?v=")
                         (lit "youtube.com/embed/" ++ id ++ after))
      with (@None (list N)).
    change (strip_prefix (lit "youtu.be/")
                         (lit "youtube.com/embed/" ++ id ++ after))
      with (@None (list N)).
    rewrite Hgo, Hspan. destruct id; [contradiction | reflexivity].
Qed.

Lemma match_url_here s id :
  url_alternatives url_shapes s = Some id -> match_url s = Some id.
Proof. intros H. destruct s; cbn [match_url]; rewrite H; reflexivity. Qed.

Lemma token_is_id c : isTokenChar c = true -> isIdChar c = true.
Proof.
  unfold isTokenChar, isIdChar, in_range. intros H.
  destruct (N.eqb_spec c 38) as [-> | _]; [discriminate | ].
  destruct (N.eqb_spec c 10) as [-> | _]; [discriminate | ].
  destruct (N.eqb_spec c 63) as [-> | _]; [discriminate | ].
  destruct (N.eqb_spec c 35) as [-> | _]; [discriminate | ].
  reflexivity.
Qed.

Lemma match_url_token s : forallb isTokenChar s = true -> match_url s = None.
Proof.
  intros H. destruct (match_url s) as [id|] eqn:E; [ | reflexivity].
  exfalso. destruct (match_url_Some _ _ E) as (b & shape & a & Hin & Hs & _).
  assert (D : In 46%N s).
  { rewrite Hs. apply in_or_app; right. apply in_or_app; left.
    apply shapes_hold_dot; exact Hin. }
  rewrite forallb_forall in H. specialize (H _ D). discriminate.
Qed.

(** X8: a URL made of a prefix without the letter [y], one of the three
    URL shapes, an identifier, and nothing or parameters that start with
    [&], [?], [#] or a line feed, parses to this identifier. *)
Theorem extractVideoId_of_URL before shape id after :
  ~ In letter_y before ->
  In shape url_shapes ->
  id <> [] ->
  forallb isIdChar id = true ->
  ends_identifier after ->
  extractVideoId (before ++ shape ++ id ++ after) = Some id.
Proof.
  intros Hb Hs Hne Hid Ha. unfold extractVideoId.
  rewrite (match_url_skip before _ Hb).
  rewrite (match_url_here _ _ (url_alternatives_here shape id after Hs Hne Hid Ha)).
  reflexivity.
Qed.

Lemma extractVideoId_of_URL_witness :
  extractVideoId (lit "https://www." ++ lit "youtube.com/watch?v="
                    ++ lit "abcDEF12345" ++ lit "&t=42s")
  = Some (lit "abcDEF12345").
Proof.
  apply (extractVideoId_of_URL (lit "https://www.") (lit "youtube.com/watch?v=")
           (lit "abcDEF12345") (lit "&t=42s")).
  - vm_compute. intuition discriminate.
  - left; reflexivity.
  - discriminate.
  - reflexivity.
  - right. eexists _, _. split; reflexivity.
Defined.

(** X9: a bare token, eleven code units of letters, digits, [_] and [-],
    parses to itself, and so does what the parser returns for it: on
    such identifiers the parser is the identity. *)
Theorem extractVideoId_of_token s :
  bare_token s -> extractVideoId s = Some s.
Proof.
  intros [Hl Ht]. unfold extractVideoId.
  rewrite (match_url_token s Ht). unfold match_bare.
  rewrite Hl, Ht. reflexivity.
Qed.

Lemma extractVideoId_of_token_witness :
  extractVideoId (lit "dQw4w9WgXcQ") = Some (lit "dQw4w9WgXcQ").
Proof.
  apply (extractVideoId_of_token (lit "dQw4w9WgXcQ")).
  split; reflexivity.
Defined.


(* ================================================================== *)
(** * The identifier parser: the leftmost shape *)
(* ================================================================== *)

Lemma match_url_before before s :
  (forall b1 b2, before = b1 ++ b2 -> b2 <> [] ->
                 url_alternatives url_shapes (b2 ++ s) = None) ->
  match_url (before ++ s) = match_url s.
Proof.
  induction before as [|c b IH]; intros H; [reflexivity | ].
  cbn [app match_url].
  change (c :: b ++ s) with ((c :: b) ++ s).
  rewrite (H [] (c :: b) eq_refl) by discriminate.
  apply IH. intros b1 b2 E N. apply (H (c :: b1) b2); [ | exact N].
  rewrite E. reflexivity.
Qed.

Lemma leftmost_shape_alternatives before s :
  leftmost_shape before s ->
  forall b1 b2, before = b1 ++ b2 -> b2 <> [] ->
                url_alternatives url_shapes (b2 ++ s) = None.
Proof.
  intros L b1 b2 E N.
  destruct (url_alternatives url_shapes (b2 ++ s)) as [id|] eqn:A;
    [exfalso | reflexivity].
  destruct (url_alternatives_Some _ _ _ A)
    as (shape & after & Hin & Hs & Hne & Hall & _).
  destruct id as [|c id]; [contradiction | ].
  cbn [forallb] in Hall. apply andb_true_iff in Hall as [Hc _].
  assert (Hl : List.length before <= List.length b1).
  { apply (L b1 shape c (id ++ after) Hin Hc).
    rewrite E, <- app_assoc, Hs. reflexivity. }
  rewrite E, length_app in Hl. destruct b2; [contradiction | ].
  cbn [List.length] in Hl. lia.
Qed.

(** C6, as stated, fails: of two URL shapes in an input the parser takes
    the leftmost, not [watch?v=] first. The input holds the shape
    [youtu.be/] with one token, then the shape [watch?v=] with another;
    both tokens have eleven code units. *)
Lemma extractVideoId_leftmost_first :
  extractVideoId
    (lit "https://youtu.be/AAAAAAAAAAA#youtube.com/watch?v=BBBBBBBBBBB")
  = Some (lit "AAAAAAAAAAA")
  /\ lit "https://youtu.be/AAAAAAAAAAA#youtube.com/watch?v=BBBBBBBBBBB"
     = lit "https://youtu.be/AAAAAAAAAAA#" ++ lit "youtube.com/watch?v="
       ++ lit "BBBBBBBBBBB"
  /\ List.length (lit "AAAAAAAAAAA") = 11
  /\ List.length (lit "BBBBBBBBBBB") = 11
  /\ extractVideoId (lit "https://youtu.be/AAAAAAAAAAA#youtube.com/watch?v=BBBBBBBBBBB")
     <> Some (lit "BBBBBBBBBBB").
Proof.
  split; [vm_compute; reflexivity | ].
  split; [reflexivity | ]. split; [reflexivity | ]. split; [reflexivity | ].
  vm_compute. discriminate.
Qed.

(** C6, amended: when the leftmost URL shape of the input, whichever of
    the three it is, is followed by a token of eleven code units and
    then by the end of the input or by [&], [?], [#] or a line feed, the
    parser returns this token; on an input that holds no URL shape, it
    returns the input when it is a bare token of eleven code units, and
    fails otherwise. *)
Theorem extractVideoId_leftmost_token :
  (forall before shape id after,
      In shape url_shapes ->
      bare_token id ->
      ends_identifier after ->
      leftmost_shape before (shape ++ id ++ after) ->
      extractVideoId (before ++ shape ++ id ++ after) = Some id)
  /\ (forall s, bare_token s -> extractVideoId s = Some s)
  /\ (forall s,
        ~ has_url_shape s -> ~ bare_token s -> extractVideoId s = None).
Proof.
  split; [ | split].
  - intros before shape id after Hs [Hl Ht] Ha L.
    assert (Hid : forallb isIdChar id = true).
    { rewrite forallb_forall in *. intros c Hc. apply token_is_id, Ht, Hc. }
    assert (Hne : id <> []) by (intros ->; discriminate).
    unfold extractVideoId.
    rewrite (match_url_before before _ (leftmost_shape_alternatives _ _ L)).
    rewrite (match_url_here _ _
               (url_alternatives_here shape id after Hs Hne Hid Ha)).
    reflexivity.
  - intros s [Hl Ht]. unfold extractVideoId.
    rewrite (match_url_token s Ht). unfold match_bare.
    rewrite Hl, Ht. reflexivity.
  - intros s Hu Hb. unfold extractVideoId.
    destruct (match_url s) as [id|] eqn:E.
    + exfalso. apply Hu. exact (url_shape_has _ _ (match_url_Some _ _ E)).
    + pose proof (match_bare_spec s) as B.
      destruct (match_bare s) as [id|]; [ | reflexivity].
      exfalso. apply Hb, B.
Qed.

Lemma extractVideoId_leftmost_token_witness :
  leftmost_shape (lit "https://")
    (lit "youtu.be/" ++ lit "AAAAAAAAAAA"
       ++ lit "#youtube.com/watch?v=BBBBBBBBBBB")
  /\ extractVideoId
       (lit "https://" ++ lit "youtu.be/" ++ lit "AAAAAAAAAAA"
          ++ lit "#youtube.com/watch?v=BBBBBBBBBBB")
     = Some (lit "AAAAAAAAAAA").
Proof.
  assert (L : leftmost_shape (lit "https://")
                (lit "youtu.be/" ++ lit "AAAAAAAAAAA"
                   ++ lit "#youtube.com/watch?v=BBBBBBBBBBB")).
  { intros before' shape' c rest Hin Hc E.
    change (List.length (lit "https://")) with 8.
    destruct (Nat.le_gt_cases 8 (List.length before')) as [H | H]; [exact H | ].
    exfalso. destruct (shapes_start_with_y _ Hin) as (r & ->).
    unfold letter_y in E.
    do 8 (destruct before' as [|? before'];
          [cbn in E; discriminate E | ]).
    cbn [List.length] in H. lia. }
  split; [exact L | ].
  apply (proj1 extractVideoId_leftmost_token (lit "https://") (lit "youtu.be/")
           (lit "AAAAAAAAAAA") (lit "#youtube.com/watch?v=BBBBBBBBBBB")).
  - right; left; reflexivity.
  - split; reflexivity.
  - right. eexists _, _. split; reflexivity.
  - exact L.
Defined.

(* ================================================================== *)
(** * Replacements that change nothing *)
(* ================================================================== *)

(** A replacement that puts back what it matched. *)
Lemma replaceAll_same {A} (m : option code_unit -> jsstring -> option (A * nat))
      (subst : A -> jsstring) :
  (forall p s a n, m p s = Some (a, n) ->
                   subst a <> [] /\ n = List.length (subst a)
                   /\ exists rest, s = subst a ++ rest) ->
  forall s, replaceAll m subst s = s.
Proof.
  intros Hm s. unfold replaceAll.
  assert (G : forall n s prev, List.length s <= n ->
              flat_map (fun p => match p with Lit c => [c] | Hit a => subst a end)
                       (scan m 0 prev s) = s).
  { clear s. induction n as [|n IH]; intros s prev Hn.
    - destruct s; [reflexivity | simpl in Hn; lia].
    - destruct s as [|c r]; [reflexivity | ]. simpl in Hn.
      cbn [scan]. destruct (m prev (c :: r)) as [[a len]|] eqn:E.
      + destruct (Hm _ _ _ _ E) as (Hne & -> & rest & Hs).
        destruct (subst a) as [|d w] eqn:Ew; [contradiction | ].
        cbn [app] in Hs. injection Hs as -> ->.
        cbn [flat_map List.length pred]. rewrite Ew, scan_skip.
        cbn [app]. f_equal. f_equal. apply IH.
        rewrite length_app in Hn. lia.
      + cbn [flat_map app]. f_equal. apply IH. lia. }
  apply (G (List.length s)). apply le_n.
Qed.

Lemma replace_literal_same c s : replace_literal [c] [c] s = s.
Proof.
  unfold replace_literal. apply replaceAll_same.
  intros p s' a n H. unfold re_literal in H.
  destruct (strip_prefix [c] s') as [r|] eqn:E; [ | discriminate].
  injection H as <- <-. split; [discriminate | ]. split; [reflexivity | ].
  exists r. apply strip_prefix_Some; exact E.
Qed.

(** A literal whose first code unit is not in the text matches nowhere. *)
Lemma replace_literal_absent c w by_ s :
  ~ In c s -> replace_literal (c :: w) by_ s = s.
Proof.
  unfold replace_literal, replaceAll. generalize (@None code_unit).
  induction s as [|d r IH]; intros prev H; [reflexivity | ].
  assert (E : N.eqb c d = false).
  { apply N.eqb_neq. intros ->. apply H. left; reflexivity. }
  cbn [scan]. unfold re_literal at 1. cbn [strip_prefix].
  rewrite E. cbn [flat_map app]. f_equal. apply IH.
  intros Hr; apply H; right; exact Hr.
Qed.

Lemma decode_entities_fallback_two t :
  decode_entities_fallback t
  = replace_literal (lit "&#39;") [squote]
      (replace_literal (lit "&quot;") [dquote] t).
Proof.
  unfold decode_entities_fallback. cbv zeta.
  change (lit "&") with [38%N]. change (lit "<") with [60%N].
  change (lit ">") with [62%N].
  rewrite !replace_literal_same. reflexivity.
Qed.

(** X10: in the page-scrape and language strategies the replacements
    written for [&], [<] and [>] change nothing, so that a cue is
    decoded by the two replacements of [&quot;] and [&#39;] alone; the
    decoded cue holds no tag; and a cue without [&] and without a tag
    keeps all its code units, line feeds turned into spaces and the ends
    trimmed. *)
Theorem decode_cue_fallback_entities :
  (forall t,
      decode_entities_fallback t
      = replace_literal (lit "&#39;") [squote]
          (replace_literal (lit "&quot;") [dquote] t))
  /\ (forall t, ~ has_tag (decode_cue_fallback t))
  /\ (forall t,
        ~ In 38%N t -> ~ has_tag t ->
        decode_cue_fallback t = trim (newlines_to_spaces t)).
Proof.
  split; [exact decode_entities_fallback_two | split].
  - intros t H. unfold decode_cue_fallback in H.
    destruct (trim_infix (newlines_to_spaces
                            (strip_tags (decode_entities_fallback t))))
      as (a & b & E).
    apply (has_tag_infix a _ b) in H. rewrite <- E in H.
    rewrite newlines_to_spaces_map in H. apply has_tag_newlines in H.
    exact (strip_tags_clean _ _ (le_n _) H).
  - intros t Hamp Htag. unfold decode_cue_fallback.
    rewrite decode_entities_fallback_two.
    change (lit "&quot;") with (38%N :: lit "quot;").
    change (lit "&#39;") with (38%N :: lit "#39;").
    rewrite (replace_literal_absent 38 _ _ t Hamp).
    rewrite (replace_literal_absent 38 _ _ t Hamp).
    rewrite (strip_tags_id _ _ (le_n _) Htag). reflexivity.
Qed.

(* ================================================================== *)
(** * The page patterns *)
(* ================================================================== *)

Lemma captionTracks_at_group dotAll s g :
  captionTracks_at dotAll s = Some g ->
  exists blanks inner rest,
    s = (dquote :: lit "captionTracks" ++ [dquote; 58%N])
          ++ blanks ++ 91%N :: inner ++ closing_bracket :: rest
    /\ forallb isSpace blanks = true
    /\ g = 91%N :: inner ++ [closing_bracket]
    /\ forallb (group_class dotAll) inner = true.
Proof.
  unfold captionTracks_at.
  destruct (strip_prefix _ s) as [r|] eqn:E; [ | discriminate].
  apply strip_prefix_Some in E.
  pose proof (span_app isSpace r) as Ha.
  pose proof (span_all isSpace r) as Hb.
  destruct (span isSpace r) as [blanks r0]; cbn [fst snd] in *.
  destruct r0 as [|c r']; [discriminate | ].
  destruct (N.eqb_spec c 91) as [-> | Hc].
  2:{ destruct c as [|p]; [discriminate | ].
      do 7 (destruct p as [p|p|]; try discriminate).
      exfalso; apply Hc; reflexivity. }
  change (fun c => negb (N.eqb c 93) && (dotAll || negb (isLineTerminator c)))
    with (group_class dotAll).
  pose proof (span_app (group_class dotAll) r') as Hc.
  pose proof (span_all (group_class dotAll) r') as Hd.
  destruct (span (group_class dotAll) r') as [inner r1]; cbn [fst snd] in *.
  destruct r1 as [|d rest]; [discriminate | ].
  destruct (N.eqb_spec d 93) as [-> | Hd'].
  2:{ destruct d as [|p]; [discriminate | ].
      do 7 (destruct p as [p|p|]; try discriminate).
      exfalso; apply Hd'; reflexivity. }
  intros H; injection H as <-.
  exists blanks, inner, rest. unfold closing_bracket.
  split; [ | split; [exact Hb | split; [reflexivity | exact Hd]]].
  rewrite E, Ha, Hc. reflexivity.
Qed.

Lemma first_captionTracks_at dotAll s g :
  first_captionTracks dotAll s = Some g ->
  exists before rest, s = before ++ rest /\ captionTracks_at dotAll rest = Some g.
Proof.
  induction s as [|c s IH]; cbn [first_captionTracks].
  - destruct (captionTracks_at dotAll []) eqn:E; [ | discriminate].
    intros H; injection H as ->. exists [], []. auto.
  - destruct (captionTracks_at dotAll (c :: s)) eqn:E.
    + intros H; injection H as ->. exists [], (c :: s). auto.
    + intros H. destruct (IH H) as (b & r & -> & Hr).
      exists (c :: b), r. auto.
Qed.

Lemma first_captionTracks_None dotAll before rest :
  first_captionTracks dotAll (before ++ rest) = None ->
  captionTracks_at dotAll rest = None.
Proof.
  induction before as [|c b IH]; cbn [app].
  - destruct rest; cbn [first_captionTracks];
      destruct (captionTracks_at dotAll _); [discriminate | reflexivity
                                            | discriminate | reflexivity].
  - cbn [first_captionTracks].
    destruct (captionTracks_at dotAll (c :: b ++ rest)); [discriminate | ].
    exact IH.
Qed.

Lemma find_sub_Some w s a b : find_sub w s = Some (a, b) -> s = a ++ w ++ b.
Proof.
  revert a. induction s as [|c s IH]; intros a; cbn [find_sub].
  - destruct (strip_prefix w []) eqn:E; [ | discriminate].
    intros H; injection H as <- <-. apply strip_prefix_Some in E. exact E.
  - destruct (strip_prefix w (c :: s)) eqn:E.
    + intros H; injection H as <- <-. apply strip_prefix_Some in E. exact E.
    + destruct (find_sub w s) as [[a' b']|]; [ | discriminate].
      intros H; injection H as <- <-. cbn [app]. f_equal. apply IH. reflexivity.
Qed.

Lemma group_class_In dotAll inner :
  forallb (group_class dotAll) inner = true ->
  ~ In closing_bracket inner
  /\ (dotAll = false -> holds_line_terminator inner = false).
Proof.
  intros H. rewrite forallb_forall in H. split.
  - intros Hin. specialize (H _ Hin). discriminate.
  - intros ->. unfold holds_line_terminator.
    destruct (existsb isLineTerminator inner) eqn:E; [ | reflexivity].
    apply existsb_exists in E as (c & Hc & Hl). specialize (H _ Hc).
    unfold group_class in H. rewrite Hl in H.
    destruct (negb (N.eqb c 93)); discriminate.
Qed.

Lemma captionTracks_at_same s g :
  captionTracks_at true s = Some g ->
  holds_line_terminator g = false ->
  captionTracks_at false s = Some g.
Proof.
  intros H Hl.
  destruct (captionTracks_at_group _ _ _ H) as (blanks & inner & rest & -> & Hb & -> & Hi).
  unfold captionTracks_at. rewrite strip_prefix_app.
  assert (Es : span isSpace (blanks ++ 91%N :: inner ++ closing_bracket :: rest)
               = (blanks, 91%N :: inner ++ closing_bracket :: rest)).
  { apply span_exact; [exact Hb | ]. right. eexists _, _. split; reflexivity. }
  rewrite Es. cbn [snd].
  change (fun c => negb (N.eqb c 93) && (false || negb (isLineTerminator c)))
    with (group_class false).
  assert (Ei : span (group_class false) (inner ++ closing_bracket :: rest)
               = (inner, closing_bracket :: rest)).
  { apply span_exact; [ | right; eexists _, _; split; reflexivity].
    rewrite forallb_forall in *. intros c Hc. specialize (Hi _ Hc).
    unfold group_class in *. apply andb_true_iff in Hi as [-> _]. cbn [andb orb].
    destruct (isLineTerminator c) eqn:El; [ | reflexivity].
    exfalso. unfold holds_line_terminator in Hl. cbn [existsb] in Hl.
    rewrite existsb_app in Hl. apply orb_false_iff in Hl as [_ Hl].
    apply orb_false_iff in Hl as [Hl _].
    assert (T : existsb isLineTerminator inner = true)
      by (apply existsb_exists; exists c; auto).
    rewrite T in Hl; discriminate. }
  rewrite Ei. reflexivity.
Qed.

(** X11: the group a page pattern takes is a bracketed stretch with no
    closing bracket inside, so a listing that holds a nested array is cut
    at its first closing bracket; the group of the standard pattern holds
    no line terminator; and the alternative pattern, tried only when the
    standard one finds nothing, can only give a group that holds a line
    terminator. *)
Theorem page_patterns_group html :
  (forall g, match_captionTracks html = Some g ->
     exists inner, g = 91%N :: inner ++ [closing_bracket]
                   /\ ~ In closing_bracket inner
                   /\ holds_line_terminator g = false)
  /\ (forall g, match_captionTracks_alt html = Some g ->
        exists inner, g = 91%N :: inner ++ [closing_bracket]
                      /\ ~ In closing_bracket inner)
  /\ (forall g, match_captionTracks html = None ->
                match_captionTracks_alt html = Some g ->
                holds_line_terminator g = true).
Proof.
  split; [ | split].
  - unfold match_captionTracks. intros g H.
    destruct (first_captionTracks_at _ _ _ H) as (b & r & _ & Hr).
    destruct (captionTracks_at_group _ _ _ Hr) as (bl & inner & rest & _ & _ & -> & Hi).
    destruct (group_class_In _ _ Hi) as [Hc Hl].
    exists inner. split; [reflexivity | split; [exact Hc | ]].
    unfold holds_line_terminator in *. cbn [existsb].
    rewrite existsb_app, (Hl eq_refl). reflexivity.
  - unfold match_captionTracks_alt. intros g H.
    destruct (find_sub _ html) as [[a1 r1]|]; [ | discriminate].
    destruct (find_sub _ r1) as [[a2 r2]|]; [ | discriminate].
    destruct (first_captionTracks_at _ _ _ H) as (b & r & _ & Hr).
    destruct (captionTracks_at_group _ _ _ Hr) as (bl & inner & rest & _ & _ & -> & Hi).
    exists inner. split; [reflexivity | exact (proj1 (group_class_In _ _ Hi))].
  - unfold match_captionTracks, match_captionTracks_alt. intros g Hn H.
    destruct (find_sub _ html) as [[a1 r1]|] eqn:E1; [ | discriminate].
    destruct (find_sub _ r1) as [[a2 r2]|] eqn:E2; [ | discriminate].
    apply find_sub_Some in E1, E2.
    destruct (first_captionTracks_at _ _ _ H) as (b & r & E3 & Hr).
    destruct (holds_line_terminator g) eqn:El; [reflexivity | exfalso].
    pose proof (captionTracks_at_same _ _ Hr El) as Hs.
    rewrite E1, E2, E3 in Hn. repeat rewrite app_assoc in Hn.
    apply first_captionTracks_None in Hn. rewrite Hn in Hs. discriminate.
Qed.

(* ================================================================== *)
(** * The markers of the analyzer *)
(* ================================================================== *)

Lemma includes_In s c w : includes s (c :: w) = true -> In c s.
Proof.
  induction s as [|d s IH]; cbn [includes strip_prefix]; [discriminate | ].
  destruct (N.eqb_spec c d) as [-> | _]; [intros _; left; reflexivity | ].
  intros H. right. exact (IH H).
Qed.

(** X12: on a lowered text that holds no capital [I], the first marker
    of the analyzer, [I] followed by a space, is never found: the
    markers decide as the eleven others do. *)
Theorem marker_I_never_found toLowerCase text :
  ~ In capital_I (toLowerCase text) ->
  hasConversational toLowerCase text
  = existsb (fun word => includes (toLowerCase text) word)
            (List.tl conversationalWords).
Proof.
  intros H. unfold hasConversational, conversationalWords.
  cbn [existsb List.tl].
  destruct (includes (toLowerCase text) (lit "I ")) eqn:E; [ | reflexivity].
  exfalso. apply H. exact (includes_In _ _ _ E).
Qed.

Lemma marker_I_never_found_witness :
  hasConversational toLowerCase_ascii (lit "I think that is fine")
  = existsb (fun word => includes (toLowerCase_ascii (lit "I think that is fine")) word)
            (List.tl conversationalWords)
  /\ hasConversational toLowerCase_ascii (lit "I think that is fine") = false
  /\ includes (lit "I think that is fine") (lit "I ") = true.
Proof.
  split; [ | split; vm_compute; reflexivity].
  apply (marker_I_never_found toLowerCase_ascii (lit "I think that is fine")).
  vm_compute. intuition discriminate.
Defined.


(* ================================================================== *)
(** * The tracks of the video page *)
(* ================================================================== *)

Lemma page_item_fields t :
  get (page_item t) "languageCode" = Ok (VStr (page_languageCode t))
  /\ get (page_item t) "baseUrl" = Ok (VStr (page_baseUrl t))
  /\ get (page_item t) "name" = Ok (page_name t).
Proof. repeat split. Qed.

Lemma findR_page_items (f : JsVal -> Result bool) (p : PageTrack -> bool) l :
  (forall t, f (page_item t) = Ok (p t)) ->
  findR f (List.map page_item l)
  = Ok (match List.find p l with Some t => page_item t | None => VUndefined end).
Proof.
  intros H. induction l as [|t l IH]; simpl; [reflexivity | ].
  rewrite H. destruct (p t); [reflexivity | exact IH].
Qed.

Lemma simpleText_Ok name :
  nullish name = false -> exists v, get name "simpleText" = Ok v.
Proof. destruct name; try discriminate; intros _; eexists; reflexivity. Qed.

Lemma truthy_page_item t : truthy (page_item t) = true.
Proof. reflexivity. Qed.

Section PageTracks.
Variable P : Platform.

Ltac page_tail t st :=
  repeat (rewrite (truthy_page_item t); cbn [negb]);
  rewrite ?(proj1 (page_item_fields t)),
          ?(proj1 (proj2 (page_item_fields t))),
          ?(proj2 (proj2 (page_item_fields t)));
  cbn [truthy];
  destruct (page_baseUrl t) as [|u0 u] eqn:Eu; cbn [negb nonempty];
  [ eexists; split; [reflexivity | cbn [clock tick]; lia] | ];
  destruct (nullish (page_name t)) eqn:En;
  [ | destruct (simpleText_Ok _ En) as [v Hv]; rewrite Hv ];
  cbn [clock tick invocations console ToString]; rewrite ?Eu;
  (destruct (fetch P (clock st) (u0 :: u) None) as [resp|e];
   [ | eexists; split; [reflexivity | cbn [clock tick]; lia]];
   destruct (ok resp); cbn [negb];
   [ | eexists; split; [reflexivity | cbn [clock tick]; lia]];
   destruct (body resp) as [xml|e];
   [ | eexists; split; [reflexivity | cbn [clock tick]; lia]];
   rewrite (leb_ltb_false 50 (List.length (decode_markup_fallback xml)));
   unfold decode_markup_fallback;
   destruct (List.length (textMatches xml) =? 0); cbn [negb andb];
   [ eexists; split; [reflexivity | cbn [clock tick]; lia] | ];
   destruct (List.length (assemble decode_cue_fallback (textMatches xml)) <? 50);
   cbn [negb]; destruct (page_languageCode t);
   eexists; (split; [reflexivity | cbn [clock tick]; lia])).

Lemma parseCaptionTracks_run tracksJson videoId pattern tracks st :
  JSON_parse P tracksJson = Some (VArr (List.map page_item tracks)) ->
  exists st',
    parseCaptionTracks P tracksJson videoId pattern st
    = (Ok (match page_track tracks with
           | Some t => page_answer P (clock st) t
           | None => None
           end), st')
    /\ clock st' = clock st + (match page_track tracks with
                               | Some _ => 1
                               | None => 0
                               end).
Proof.
  intros HJ. unfold parseCaptionTracks, parse. rewrite HJ.
  unfold page_track, page_choice, page_answer, page_result, served, Fetch,
    try_catch, bind, call, console_log, lift, ret.
  cbn [get asArray].
  rewrite (findR_page_items _ code_is_en tracks) by (intros t; reflexivity).
  rewrite (findR_page_items _ code_starts_en tracks) by (intros t; reflexivity).
  destruct (List.find code_is_en tracks) as [t1|].
  { page_tail t1 st. }
  cbn [truthy negb].
  destruct (List.find code_starts_en tracks) as [t2|].
  { page_tail t2 st. }
  cbn [truthy negb].
  destruct tracks as [|t3 tracks]; cbn [List.map first_item hd_error].
  { cbn [truthy negb]. eexists; split; [reflexivity | cbn [clock tick]; lia]. }
  page_tail t3 st.
Qed.

(** X13: when the video page is served and a page pattern gives a
    listing of well-formed tracks, strategy C chooses the first track
    whose code is [en], else the first whose code starts with [en], else
    the first track; without a track or without an address it returns
    [null] and asks for nothing; else it asks once, for the address of
    the track, and returns the decoded payload when it has a cue and
    fifty code units or more, tagged with the code of the track, or with
    [unknown] for an empty code. *)
Theorem TimedTextAPI_listed_track videoId st g tracks :
  page_listing P (clock st) videoId = Some g ->
  JSON_parse P g = Some (VArr (List.map page_item tracks)) ->
  exists st',
    extractWithTimedTextAPI P videoId st
    = (Ok (match page_track tracks with
           | Some t => page_answer P (S (clock st)) t
           | None => None
           end), st')
    /\ clock st' = S (clock st) + (match page_track tracks with
                                   | Some _ => 1
                                   | None => 0
                                   end).
Proof.
  unfold page_listing, watch_url. intros HL HJ.
  destruct (served P (clock st) _ (Some userAgent)) as [html|] eqn:HS;
    [ | discriminate].
  destruct (served_Some _ _ _ _ _ HS) as (resp & F & O & B).
  unfold extractWithTimedTextAPI. cbv zeta.
  unfold try_catch at 1. unfold bind at 1 2 3 4, enter, console_log, Fetch, call.
  cbn [clock tick invocations console]. rewrite F, O. cbn [negb].
  unfold bind at 1, lift. rewrite B.
  unfold page_group in HL.
  destruct (match_captionTracks html) as [g1|].
  - injection HL as ->.
    match goal with
    | |- context [parseCaptionTracks P g videoId ?pat ?s] =>
        destruct (parseCaptionTracks_run g videoId pat tracks s HJ)
          as (s1 & E1 & C1)
    end.
    rewrite E1. cbn [clock tick] in *. eexists. split; [reflexivity | lia].
  - unfold bind at 1, console_log. rewrite HL.
    match goal with
    | |- context [parseCaptionTracks P g videoId ?pat ?s] =>
        destruct (parseCaptionTracks_run g videoId pat tracks s HJ)
          as (s1 & E1 & C1)
    end.
    rewrite E1. cbn [clock tick] in *. eexists. split; [reflexivity | lia].
Qed.

(** X14: when the video page is not served, or no page pattern finds a
    listing in it, strategy C returns [null] after its single request. *)
Theorem TimedTextAPI_no_listing videoId st :
  page_listing P (clock st) videoId = None ->
  exists st',
    extractWithTimedTextAPI P videoId st = (Ok None, st')
    /\ clock st' = S (clock st).
Proof.
  unfold page_listing, served, watch_url, page_group. intros HL.
  unfold extractWithTimedTextAPI. cbv zeta.
  unfold try_catch, bind, enter, console_log, Fetch, call, lift, ret.
  cbn [clock tick invocations console].
  destruct (fetch P (clock st) _ (Some userAgent)) as [resp|e];
    [ | eexists; split; reflexivity].
  destruct (ok resp); cbn [negb]; [ | eexists; split; reflexivity].
  destruct (body resp) as [html|e]; [ | eexists; split; reflexivity].
  destruct (match_captionTracks html); [discriminate | ].
  rewrite HL. eexists; split; reflexivity.
Qed.
End PageTracks.

Lemma TimedTextAPI_listed_track_witness :
  (exists st',
      extractWithTimedTextAPI page_video (lit "abcDEF12345") initial
      = (Ok (match page_track page_tracks with
             | Some t => page_answer page_video (S (clock initial)) t
             | None => None
             end), st')
      /\ clock st' = S (clock initial) + (match page_track page_tracks with
                                          | Some _ => 1
                                          | None => 0
                                          end))
  /\ option_map page_languageCode (page_track page_tracks) = Some (lit "en-GB")
  /\ option_map language
       (match page_track page_tracks with
        | Some t => page_answer page_video (S (clock initial)) t
        | None => None
        end) = Some (VStr (lit "en-GB")).
Proof.
  split; [ | split; vm_compute; reflexivity].
  apply (TimedTextAPI_listed_track page_video (lit "abcDEF12345") initial
           page_tracks_json page_tracks); vm_compute; reflexivity.
Defined.

Lemma TimedTextAPI_no_listing_witness :
  exists st',
    extractWithTimedTextAPI uncaptioned_video (lit "abcDEF12345") initial
    = (Ok None, st')
    /\ clock st' = 1.
Proof.
  apply (TimedTextAPI_no_listing uncaptioned_video (lit "abcDEF12345") initial).
  vm_compute; reflexivity.
Defined.


(* ================================================================== *)
(** * The text of the get-transcript endpoint *)
(* ================================================================== *)

(** X15: every text the endpoint returns has a hundred code units or
    more; it is the captions exactly when the extractor returned a
    result of more than a hundred code units, and then it carries the
    source of this result; else it is the description or the metadata,
    and [usedDescription] is the negation of [captionsAvailable]. *)
Theorem content_of_captions P captionResult videoInfo reply :
  content P captionResult videoInfo = Some reply ->
  100 <= List.length (content_transcript reply)
  /\ usedDescription reply = negb (captionsAvailable reply)
  /\ (captionsAvailable reply = true <->
      exists c, captionResult = Some c /\ 100 < List.length (transcript c))
  /\ (captionsAvailable reply = true ->
      exists c, captionResult = Some c
                /\ content_transcript reply = transcript c
                /\ content_source reply = source c)
  /\ (captionsAvailable reply = false ->
      (content_transcript reply = description videoInfo
       /\ 200 < List.length (description videoInfo)
       /\ content_source reply = lit "description")
      \/ (content_transcript reply = metadata_text P videoInfo
          /\ List.length (description videoInfo) <= 200
          /\ content_source reply = lit "metadata")).
Proof.
  unfold content. cbv zeta.
  assert (Hd : forall (t : Content),
     (if nonempty (description videoInfo)
         && (200 <? List.length (description videoInfo))
      then Some {| content_transcript := description videoInfo;
                   captionsAvailable := false; usedDescription := true;
                   content_source := lit "description" |}
      else if List.length (metadata_text P videoInfo) <? 100 then None
           else Some {| content_transcript := metadata_text P videoInfo;
                        captionsAvailable := false; usedDescription := true;
                        content_source := lit "metadata" |}) = Some t ->
     100 <= List.length (content_transcript t)
     /\ usedDescription t = negb (captionsAvailable t)
     /\ captionsAvailable t = false
     /\ ((content_transcript t = description videoInfo
          /\ 200 < List.length (description videoInfo)
          /\ content_source t = lit "description")
         \/ (content_transcript t = metadata_text P videoInfo
             /\ List.length (description videoInfo) <= 200
             /\ content_source t = lit "metadata"))).
  { intros t.
    destruct (200 <? List.length (description videoInfo)) eqn:E2.
    - apply Nat.ltb_lt in E2.
      assert (N : nonempty (description videoInfo) = true)
        by (destruct (description videoInfo); [simpl in E2; lia | reflexivity]).
      rewrite N. cbn [andb]. intros H; injection H as <-.
      cbn [content_transcript usedDescription captionsAvailable content_source negb].
      repeat split; try lia. left. repeat split; lia.
    - rewrite andb_false_r. apply Nat.ltb_ge in E2.
      destruct (List.length (metadata_text P videoInfo) <? 100) eqn:E3;
        [discriminate | ].
      apply Nat.ltb_ge in E3. intros H; injection H as <-.
      cbn [content_transcript usedDescription captionsAvailable content_source negb].
      repeat split; try lia. right. repeat split; lia. }
  destruct captionResult as [c|].
  - destruct (100 <? List.length (transcript c)) eqn:E1.
    + cbn [content_transcript].
      pose proof E1 as E1'. apply Nat.ltb_lt in E1'.
      assert (N : nonempty (transcript c) = true)
        by (destruct (transcript c); [simpl in E1'; lia | reflexivity]).
      rewrite N. cbn [negb orb].
      assert (L : (List.length (transcript c) <? 100) = false)
        by (apply Nat.ltb_ge; lia).
      rewrite L. intros H; injection H as <-.
      cbn [content_transcript usedDescription captionsAvailable content_source negb].
      split; [lia | split; [reflexivity | split; [ | split]]].
      * split; [intros _; exists c; auto | reflexivity].
      * intros _. exists c. auto.
      * discriminate.
    + cbn [content_transcript nonempty negb orb]. intros H.
      destruct (Hd _ H) as (H1 & H2 & H3 & H4).
      split; [exact H1 | split; [exact H2 | split; [ | split]]].
      * rewrite H3. split; [discriminate | ].
        intros (c' & Hc & Hl). injection Hc as <-.
        apply Nat.ltb_ge in E1. lia.
      * rewrite H3; discriminate.
      * intros _. exact H4.
  - cbn [content_transcript nonempty negb orb]. intros H.
    destruct (Hd _ H) as (H1 & H2 & H3 & H4).
    split; [exact H1 | split; [exact H2 | split; [ | split]]].
    + rewrite H3. split; [discriminate | ]. intros (c' & Hc & _). discriminate.
    + rewrite H3; discriminate.
    + intros _. exact H4.
Qed.

Lemma content_of_captions_witness :
  exists reply,
    content offline None plain_info = Some reply
    /\ 100 <= List.length (content_transcript reply)
    /\ content_source reply = lit "metadata".
Proof.
  eexists. split; [vm_compute; reflexivity | ].
  split; [ | vm_compute; reflexivity].
  apply (content_of_captions offline None plain_info).
  vm_compute; reflexivity.
Defined.

(** X16: a result of the extractor of a hundred code units or fewer,
    which has fifty or more, is dropped by the endpoint: the answer is
    the one for a video without captions. *)
Theorem short_captions_dropped P analyze videoId apiKey st c st' videoInfo :
  extractCaptions P analyze videoId apiKey st = (Ok (Some c), st') ->
  List.length (transcript c) <= 100 ->
  50 <= List.length (transcript c)
  /\ content P (Some c) videoInfo = content P None videoInfo.
Proof.
  intros E L. split; [exact (proj1 (extractCaptions_accepted _ _ _ _ _ _ _ E)) | ].
  unfold content. cbv zeta.
  assert (H : (100 <? List.length (transcript c)) = false)
    by (apply Nat.ltb_ge; exact L).
  rewrite H. reflexivity.
Qed.

Lemma short_captions_dropped_witness :
  exists c,
    fst (extract short_video toLowerCase_ascii (lit "abcDEF12345") None initial)
    = Ok (Some c)
    /\ List.length (transcript c) = 50
    /\ content short_video (Some c) plain_info = content short_video None plain_info.
Proof.
  eexists. split; [vm_compute; reflexivity | ]. split; [reflexivity | ].
  eapply (short_captions_dropped short_video
            (analyzeTranscriptQuality toLowerCase_ascii)
            (lit "abcDEF12345") None initial).
  - vm_compute; reflexivity.
  - vm_compute. lia.
Defined.

(* ================================================================== *)
(** * The words of the answer *)
(* ================================================================== *)

Lemma nonempty_rev (cur : list N) : cur <> [] -> nonempty (rev cur) = true.
Proof.
  intros H. destruct (rev cur) eqn:E; [ | reflexivity].
  exfalso. apply H. rewrite <- (rev_involutive cur), E. reflexivity.
Qed.

Lemma words_between r :
  (forall b, List.length (List.filter nonempty
                            (pieces_between [] (space_pieces b r)))
             = count_words false r)
  /\ (forall cur, cur <> [] ->
        List.length (List.filter nonempty
                       (pieces_between cur (space_pieces false r)))
        = S (count_words true r)).
Proof.
  induction r as [|c r [IH1 IH2]].
  - split; [intros b; reflexivity | ].
    intros cur H. cbn [space_pieces pieces_between List.filter].
    rewrite (nonempty_rev cur H). reflexivity.
  - split.
    + intros b. cbn [space_pieces count_words]. destruct (isSpace c).
      * destruct b; cbn [pieces_between rev List.filter nonempty]; apply IH1.
      * cbn [pieces_between]. rewrite IH2 by discriminate. reflexivity.
    + intros cur H. cbn [space_pieces count_words]. destruct (isSpace c).
      * cbn [pieces_between List.filter]. rewrite (nonempty_rev cur H).
        cbn [List.length]. f_equal. apply IH1.
      * cbn [pieces_between]. rewrite IH2 by discriminate. reflexivity.
Qed.

Lemma spaced_last b s :
  spaced b s = true -> last (List.map isSpace s) b = false.
Proof.
  revert b. induction s as [|c r IH]; intros b; cbn [spaced List.map].
  - cbn. destruct b; [discriminate | reflexivity].
  - rewrite last_cons. destruct (isSpace c).
    + intros H. apply andb_true_iff in H as [_ H]. exact (IH _ H).
    + exact (IH _).
Qed.

Lemma single_spaced_stretches s :
  single_spaced s = true -> s <> [] ->
  leading_stretch s = 0 /\ trailing_stretch s = 0.
Proof.
  unfold single_spaced, leading_stretch, trailing_stretch.
  destruct s as [|c r]; [contradiction | ]. intros H _.
  cbn [spaced List.map] in *. rewrite last_cons.
  destruct (isSpace c).
  - rewrite andb_false_r in H. discriminate.
  - rewrite (spaced_last _ _ H). split; reflexivity.
Qed.

Lemma content_wordCount_words text : content_wordCount text = wordCount text.
Proof.
  unfold content_wordCount, split_spaces, split, wordCount.
  rewrite (proj1 (scan_spaces text) None).
  apply (proj1 (words_between text)).
Qed.

(** X17: the [wordCount] of the answer is the number of the words of the
    text, its maximal runs of code units that are not white space; the
    count of the analyzer is this number and one more for leading, one
    more for trailing white space; on every transcript the extractor
    returns the two counts are equal. *)
Theorem words_of_the_answer :
  (forall text, content_wordCount text = wordCount text)
  /\ (forall text,
        totalWords text
        = content_wordCount text + leading_stretch text + trailing_stretch text)
  /\ (forall P analyze videoId apiKey st c st',
        extractCaptions P analyze videoId apiKey st = (Ok (Some c), st') ->
        totalWords (transcript c) = content_wordCount (transcript c)).
Proof.
  split; [exact content_wordCount_words | split].
  - intros text. rewrite content_wordCount_words. apply totalWords_wordCount.
  - intros P analyze videoId apiKey st c st' E.
    rewrite content_wordCount_words, totalWords_wordCount.
    assert (T : single_spaced (transcript c) = true).
    { refine (post_extractCaptions_of P analyze tidy videoId apiKey
                I _ _ _ _ _ _ _ E).
      - intros key. apply tidy_DataAPI.
      - apply tidy_TranscriptPackage.
      - apply tidy_TimedTextAPI.
      - apply tidy_LanguageFallback. }
    assert (N : transcript c <> []).
    { pose proof (proj1 (extractCaptions_accepted _ _ _ _ _ _ _ E)) as L.
      intros Z. rewrite Z in L. simpl in L. lia. }
    destruct (single_spaced_stretches _ T N) as [-> ->]. lia.
Qed.

(* ================================================================== *)
(** * The summaries made without the language model *)
(* ================================================================== *)

Lemma trimStart_fixed s :
  match s with [] => True | c :: _ => isSpace c = false end ->
  trimStart s = s.
Proof. destruct s as [|c r]; [reflexivity | ]. cbn. intros ->. reflexivity. Qed.

Lemma trimStart_head s :
  match trimStart s with [] => True | c :: _ => isSpace c = false end.
Proof.
  induction s as [|c r IH]; cbn [trimStart]; [exact I | ].
  destruct (isSpace c) eqn:E; [exact IH | exact E].
Qed.

Lemma trimEnd_head s :
  match s with [] => True | c :: _ => isSpace c = false end ->
  match trimEnd s with [] => True | c :: _ => isSpace c = false end.
Proof.
  destruct s as [|c r]; [intros _; exact I | ]. intros H. cbn [trimEnd].
  destruct (trimEnd r); [rewrite H | ]; exact H.
Qed.

Lemma trimEnd_trimEnd s : trimEnd (trimEnd s) = trimEnd s.
Proof.
  induction s as [|c r IH]; [reflexivity | ]. cbn [trimEnd].
  destruct (trimEnd r) as [|d r'] eqn:E.
  - destruct (isSpace c) eqn:Ec; [reflexivity | ].
    cbn [trimEnd]. rewrite Ec. reflexivity.
  - cbn [trimEnd]. cbn [trimEnd] in IH.
    destruct (trimEnd r') as [|e r'']; rewrite IH; reflexivity.
Qed.

Lemma trim_ends s : trim s = trimEnd (trimStart s).
Proof. unfold trim. apply trim_trimEnd. Qed.

Lemma trim_trim s : trim (trim s) = trim s.
Proof.
  rewrite !trim_ends.
  rewrite (trimStart_fixed _ (trimEnd_head _ (trimStart_head s))).
  apply trimEnd_trimEnd.
Qed.

Lemma firstn_min {A} n (l : list A) :
  firstn (Nat.min n (List.length l)) l = firstn n l.
Proof.
  destruct (Nat.le_ge_cases n (List.length l)) as [H | H].
  - rewrite (Nat.min_l _ _ H). reflexivity.
  - rewrite (Nat.min_r _ _ H), firstn_all, firstn_all2 by exact H. reflexivity.
Qed.

Lemma filter_map_swap {A B} (f : A -> B) (p : B -> bool) l :
  List.filter p (List.map f l) = List.map f (List.filter (fun x => p (f x)) l).
Proof.
  induction l as [|x l IH]; [reflexivity | ]. cbn [List.map List.filter].
  destruct (p (f x)); cbn [List.map]; rewrite IH; reflexivity.
Qed.

Lemma sentences_Forall transcript :
  Forall (fun p => 20 < List.length p /\ trim p = p) (sentences transcript).
Proof.
  unfold sentences. apply Forall_forall. intros p H.
  apply filter_In in H as [H L]. apply in_map_iff in H as (x & <- & _).
  split; [apply Nat.ltb_lt; exact L | apply trim_trim].
Qed.

Lemma Forall_firstn {A} (Q : A -> Prop) n l : Forall Q l -> Forall Q (firstn n l).
Proof.
  intros H. revert n. induction H as [|x l Hx _ IH]; intros n.
  - rewrite firstn_nil. constructor.
  - destruct n; cbn [firstn]; constructor; [exact Hx | apply IH].
Qed.

Lemma kept_as_they_are l :
  Forall (fun p => 20 < List.length p /\ trim p = p) l ->
  List.filter (longer_than 0) (List.map trim l) = l.
Proof.
  induction 1 as [|p l [L T] _ IH]; [reflexivity | ].
  cbn [List.map List.filter]. rewrite T, IH.
  unfold longer_than. replace (0 <? List.length p) with true; [reflexivity | ].
  symmetry. apply Nat.ltb_lt. lia.
Qed.

(** X18: the summary made without a key for the language model is the
    first five sentences joined, a full stop added, so it is never empty
    and the text written for an empty summary is never used; the key
    points are the first six sentences as they are, or the one line
    [Summary not available] when there is no sentence; a sentence has
    more than twenty code units and no white space at its ends; and the
    key points made after a failure of the language model are the first
    five of the same sentences. *)
Theorem extractive_summary_sentences transcript :
  summary (extractive_summary transcript)
  = join (lit ". ") (firstn 5 (sentences transcript)) ++ lit "."
  /\ keyPoints (extractive_summary transcript)
     = match sentences transcript with
       | [] => [lit "Summary not available"]
       | _ :: _ => firstn 6 (sentences transcript)
       end
  /\ Forall (fun p => 20 < List.length p /\ trim p = p) (sentences transcript)
  /\ keyPoints (fallback_summary transcript) = firstn 5 (sentences transcript).
Proof.
  pose proof (sentences_Forall transcript) as F.
  split; [ | split; [ | split; [exact F | ]]].
  - unfold extractive_summary. cbv zeta. cbn [summary]. unfold slice0.
    rewrite firstn_min.
    destruct (join (lit ". ") (firstn 5 (sentences transcript)) ++ lit ".")
      eqn:E; [ | reflexivity].
    exfalso. apply app_eq_nil in E as [_ E]. discriminate.
  - unfold extractive_summary. cbv zeta. cbn [keyPoints]. unfold slice0.
    rewrite firstn_min, (kept_as_they_are _ (Forall_firstn _ 6 _ F)).
    destruct (sentences transcript); reflexivity.
  - unfold fallback_summary. cbv zeta. cbn [keyPoints]. unfold slice0, sentences.
    rewrite filter_map_swap, firstn_map. reflexivity.
Qed.


(* ================================================================== *)
(** * The requests to the transcript package *)
(* ================================================================== *)

(** X19: strategy B imports the package and asks it for the English
    cues; it asks again, without a language, only when the first request
    is rejected, not when it is answered with nothing. It returns the
    texts of the cues joined and single-spaced when there is a cue and
    the text has fifty code units or more, tagged [en] whichever request
    was answered, and [null] otherwise; it makes one call when the
    import is rejected, two when the first request is answered, three
    otherwise, and never throws. *)
Theorem TranscriptPackage_retry P analyze videoId st :
  exists st',
    extractWithYoutubeTranscript P analyze videoId st
    = (Ok (package_answer P (clock st) videoId), st')
    /\ clock st' = clock st + package_calls P (clock st) videoId.
Proof.
  unfold extractWithYoutubeTranscript, package_answer, package_cues,
    package_calls, cues_text, log_quality.
  unfold try_catch, bind, enter, call, console_log, lift, ret.
  cbn [clock tick invocations console].
  destruct (import_youtube_transcript P (clock st)) as [u|e];
    [ | eexists; split; [reflexivity | cbn [clock tick]; lia]].
  destruct (fetchTranscript P (S (clock st)) videoId (Some (lit "en")))
    as [data|e1].
  - destruct data as [[|x items]|];
      try (eexists; split; [reflexivity | cbn [clock tick]; lia]).
    rewrite (leb_ltb_false 50).
    destruct (List.length _ <? 50); cbn [negb];
      eexists; (split; [reflexivity | cbn [clock tick]; lia]).
  - cbn [clock tick invocations console].
    destruct (fetchTranscript P (S (S (clock st))) videoId None) as [data|e2];
      [ | eexists; split; [reflexivity | cbn [clock tick]; lia]].
    destruct data as [[|x items]|];
      try (eexists; split; [reflexivity | cbn [clock tick]; lia]).
    rewrite (leb_ltb_false 50).
    destruct (List.length _ <? 50); cbn [negb];
      eexists; (split; [reflexivity | cbn [clock tick]; lia]).
Qed.


(* ================================================================== *)
(** * The reading of the answer of the language model *)
(* ================================================================== *)

Lemma points_of_app l1 l2 : points_of (l1 ++ l2) = points_of l1 ++ points_of l2.
Proof. unfold points_of. rewrite flat_map_app, filter_app. reflexivity. Qed.

Lemma points_of_cons l ls : points_of (l :: ls) = points_of [l] ++ points_of ls.
Proof. apply (points_of_app [l] ls). Qed.

(** A line read once the key points have started. *)
Lemma read_line_found r line :
  foundKeyPointsSection r || starts_keyPoints line = true ->
  read_line r line
  = {| read_summary := read_summary r;
       read_keyPoints := read_keyPoints r ++ points_of [line];
       foundKeyPointsSection := true |}.
Proof.
  intros H. unfold read_line. cbv zeta. rewrite H.
  unfold points_of, point_of. cbn [flat_map].
  destruct (numbered line) as [rest|].
  - cbn [app List.filter].
    destruct (longer_than 10 (trim (snd (span isSpace rest))));
      [reflexivity | rewrite app_nil_r; reflexivity].
  - destruct (bulleted line) as [rest|]; cbn [app List.filter negb andb].
    + destruct (longer_than 10 (trim rest));
        [reflexivity | rewrite app_nil_r; reflexivity].
    + rewrite app_nil_r. reflexivity.
Qed.

Lemma read_lines_found ls : forall r,
  foundKeyPointsSection r = true ->
  List.fold_left read_line ls r
  = {| read_summary := read_summary r;
       read_keyPoints := read_keyPoints r ++ points_of ls;
       foundKeyPointsSection := true |}.
Proof.
  induction ls as [|l ls IH]; intros r H; cbn [List.fold_left].
  - unfold points_of. cbn. rewrite app_nil_r. destruct r; cbn in *.
    rewrite H. reflexivity.
  - rewrite read_line_found by (rewrite H; reflexivity).
    rewrite IH by reflexivity. cbn [read_summary read_keyPoints].
    rewrite (points_of_cons l ls), app_assoc. reflexivity.
Qed.

Lemma summary_of_cons l ls :
  summary_of (l :: ls)
  = (if longer_than 20 l then l ++ [space] else []) ++ summary_of ls.
Proof.
  unfold summary_of. cbn [List.filter].
  destruct (longer_than 20 l); [ | reflexivity].
  cbn [flat_map]. reflexivity.
Qed.

(** The lines read from the start. *)
Lemma read_lines ls : forall r,
  foundKeyPointsSection r = false ->
  List.fold_left read_line ls r
  = {| read_summary := read_summary r ++ summary_of (lines_before ls);
       read_keyPoints := read_keyPoints r ++ points_of (lines_from ls);
       foundKeyPointsSection := existsb starts_keyPoints ls |}.
Proof.
  induction ls as [|l ls IH]; intros r H;
    cbn [List.fold_left lines_before lines_from existsb].
  - unfold points_of, summary_of. cbn. rewrite !app_nil_r.
    destruct r; cbn in *. rewrite H. reflexivity.
  - destruct (starts_keyPoints l) eqn:S.
    + rewrite read_line_found by (rewrite S; apply orb_true_r).
      rewrite read_lines_found by reflexivity.
      cbn [read_summary read_keyPoints orb].
      unfold summary_of at 1. cbn [List.filter flat_map].
      rewrite app_nil_r, (points_of_cons l ls), app_assoc. reflexivity.
    + assert (N : numbered l = None).
      { unfold starts_keyPoints in S. apply orb_false_iff in S as [_ S].
        destruct (numbered l); [discriminate | reflexivity]. }
      assert (E : read_line r l
                  = {| read_summary :=
                         read_summary r
                         ++ (if longer_than 20 l then l ++ [space] else []);
                       read_keyPoints := read_keyPoints r;
                       foundKeyPointsSection := false |}).
      { unfold read_line. cbv zeta. rewrite H, S, N. cbn [orb negb andb].
        destruct (longer_than 20 l); [reflexivity | ].
        rewrite app_nil_r. reflexivity. }
      rewrite E, IH by reflexivity. cbn [read_summary read_keyPoints orb].
      rewrite summary_of_cons, app_assoc. reflexivity.
Qed.

Lemma points_Forall ls :
  Forall (fun p => 10 < List.length p /\ trim p = p) (points_of ls).
Proof.
  unfold points_of. apply Forall_forall. intros p H.
  apply filter_In in H as [H L]. split; [apply Nat.ltb_lt; exact L | ].
  apply in_flat_map in H as (l & _ & H). unfold point_of in H.
  destruct (numbered l) as [rest|].
  - destruct H as [<- | []]. apply trim_trim.
  - destruct (bulleted l) as [rest|]; [ | contradiction].
    destruct H as [<- | []]. apply trim_trim.
Qed.

Lemma filter_longer l :
  Forall (fun p => 10 < List.length p /\ trim p = p) l ->
  List.filter (longer_than 0) l = l.
Proof.
  induction 1 as [|p l [L _] _ IH]; [reflexivity | ].
  cbn [List.filter]. rewrite IH. unfold longer_than.
  replace (0 <? List.length p) with true; [reflexivity | ].
  symmetry. apply Nat.ltb_lt. lia.
Qed.

Lemma firstn_short {A} (s : list A) n m k :
  List.length (firstn n s) < k -> k <= n -> k <= m -> firstn m s = firstn n s.
Proof.
  intros L Hn Hm.
  assert (Hs : List.length s < k).
  { rewrite length_firstn in L. lia. }
  rewrite !firstn_all2 by lia. reflexivity.
Qed.

(** X20: the answer of the language model is read line by line, the
    lines trimmed and the empty ones left out. When a key point is
    found, the summary is made of the lines of more than twenty code
    units before the first line that starts the key points (a header,
    or digits and a full stop), each followed by a space, and no later
    line enters it; when this text has fewer than twenty code units, as
    it has when the first line of the answer is numbered, the summary
    is the first three hundred code units of the answer instead. The
    key points are the numbered and the bulleted lines from the first
    line that starts them on, without their mark, those of more than
    ten code units. When no key point is found, the summary is the
    first five hundred code units of the answer, and the key points are
    the first five sentences. In every case the summary is trimmed, a
    key point has more than ten code units and no white space at its
    ends, so that the last filter drops nothing. *)
Theorem read_content_lines content :
  (points_of (lines_from (content_lines content)) <> [] ->
   summary (read_content content)
   = trim (if List.length (summary_of (lines_before (content_lines content)))
              <? 20
           then firstn 300 content
           else summary_of (lines_before (content_lines content)))
   /\ keyPoints (read_content content)
      = points_of (lines_from (content_lines content)))
  /\ (points_of (lines_from (content_lines content)) = [] ->
      summary (read_content content) = trim (firstn 500 content)
      /\ keyPoints (read_content content) = firstn 5 (sentences content))
  /\ Forall (fun p => 10 < List.length p /\ trim p = p)
            (keyPoints (read_content content))
  /\ trim (summary (read_content content)) = summary (read_content content).
Proof.
  assert (R : List.fold_left read_line (content_lines content)
                {| read_summary := []; read_keyPoints := [];
                   foundKeyPointsSection := false |}
              = {| read_summary := summary_of (lines_before (content_lines content));
                   read_keyPoints := points_of (lines_from (content_lines content));
                   foundKeyPointsSection :=
                     existsb starts_keyPoints (content_lines content) |}).
  { rewrite read_lines by reflexivity. reflexivity. }
  assert (F5 : List.map trim
                 (slice0 5 (List.filter (fun s => longer_than 20 (trim s))
                                        (split re_enders content)))
               = firstn 5 (sentences content)).
  { unfold slice0, sentences. rewrite filter_map_swap, firstn_map. reflexivity. }
  assert (S20 : forall p, 20 < List.length p /\ trim p = p ->
                          10 < List.length p /\ trim p = p)
    by (intros p [L T]; split; [lia | exact T]).
  assert (Fs : Forall (fun p => 10 < List.length p /\ trim p = p)
                      (firstn 5 (sentences content))).
  { apply Forall_firstn. eapply Forall_impl; [exact S20 | ].
    apply sentences_Forall. }
  unfold read_content. cbv zeta. rewrite R.
  cbn [read_summary read_keyPoints summary keyPoints]. rewrite F5.
  set (sum := summary_of (lines_before (content_lines content))).
  set (pts := points_of (lines_from (content_lines content))).
  pose proof (points_Forall (lines_from (content_lines content))) as Fp.
  fold pts in Fp.
  assert (E20 : forall s, negb (nonempty s) || (List.length s <? 20)
                          = (List.length s <? 20)).
  { intros s. destruct s; reflexivity. }
  rewrite E20.
  split; [ | split; [ | split]].
  - intros Hne. destruct pts as [|p pts']; [contradiction | ].
    cbn [List.length Nat.eqb negb]. split; [reflexivity | ].
    apply filter_longer. exact Fp.
  - intros ->. cbn [List.length Nat.eqb negb app]. split.
    + destruct (List.length (firstn 500 content) <? 20) eqn:E; [ | reflexivity].
      apply Nat.ltb_lt in E. f_equal.
      apply (firstn_short content 500 300 20); [exact E | lia | lia].
    + apply filter_longer. exact Fs.
  - destruct pts as [|p pts']; cbn [List.length Nat.eqb negb app].
    + rewrite (filter_longer _ Fs). exact Fs.
    + rewrite (filter_longer _ Fp). exact Fp.
  - apply trim_trim.
Qed.


(* ================================================================== *)
(** * The structured-segment format *)
(* ================================================================== *)

Section Segments.
Variable P : Platform.

Lemma segs_text segs :
  mapR (fun seg => bindR (get seg "utf8") (fun utf8 =>
                   Ok (if truthy utf8 then utf8 else VStr [])))
       (List.map seg_item segs)
  = Ok (List.map VStr segs).
Proof.
  induction segs as [|s segs IH]; [reflexivity | ].
  cbn [List.map mapR]. rewrite IH.
  destruct s; reflexivity.
Qed.

Lemma concat_ToString segs :
  List.concat (List.map (ToString P) (List.map VStr segs)) = List.concat segs.
Proof. rewrite map_map. cbn [ToString]. rewrite map_id. reflexivity. Qed.

Lemma event_text_item segs :
  event_text P (event_item (Some segs)) = Ok (trim (List.concat segs)).
Proof.
  unfold event_text. cbn [event_item get lookup]. 
  change (str_eqb (lit "segs") (lit "segs")) with true. cbn [bindR asArray].
  rewrite segs_text. cbn [bindR]. rewrite concat_ToString. reflexivity.
Qed.

Lemma events_with_segs events :
  filterR (fun event => bindR (get event "segs") (fun segs => Ok (truthy segs)))
          (List.map event_item events)
  = Ok (List.map event_item
          (List.filter (fun e => match e with Some _ => true | None => false end)
                       events)).
Proof.
  induction events as [|e events IH]; [reflexivity | ].
  cbn [List.map filterR]. rewrite IH. destruct e; reflexivity.
Qed.

Lemma events_texts events :
  mapR (event_text P)
       (List.map event_item
          (List.filter (fun e => match e with Some _ => true | None => false end)
                       events))
  = Ok (event_texts events).
Proof.
  induction events as [|e events IH]; [reflexivity | ].
  destruct e as [segs|]; cbn [List.filter List.map mapR]; [ | exact IH].
  rewrite IH, event_text_item. reflexivity.
Qed.

(** X21: a payload of the structured-segment format whose [events] is an
    array of events, each with segments of text or without segments,
    decodes without exception: the events without segments are left
    out, the texts of the segments of an event are put together and
    trimmed, the empty ones left out, the rest joined by spaces and
    single-spaced. *)
Theorem decode_json3_events content jsonData events :
  JSON_parse P content = Some jsonData ->
  get jsonData "events" = Ok (VArr (List.map event_item events)) ->
  decode_json3 P content = Ok (json3_text events).
Proof.
  intros HJ HE. unfold decode_json3. rewrite HJ, HE.
  cbn [bindR truthy asArray]. rewrite events_with_segs. cbn [bindR].
  rewrite events_texts. reflexivity.
Qed.
End Segments.

Lemma decode_json3_events_witness :
  decode_json3 json3_parser (lit "{}") = Ok (json3_text spoken_events)
  /\ json3_text spoken_events = lit "hello everyone welcome back".
Proof.
  split; [ | vm_compute; reflexivity].
  apply (decode_json3_events json3_parser (lit "{}")
           (VObj [(lit "wireMagic", VStr (lit "pb3"));
                  (lit "events", VArr (List.map event_item spoken_events))])
           spoken_events); reflexivity.
Defined.

(* ================================================================== *)
(** * The pronouns the analyzer counts *)
(* ================================================================== *)

Lemma str_eqb_eq a b : str_eqb a b = true <-> a = b.
Proof.
  revert b. induction a as [|x a IH]; intros [|y b]; cbn [str_eqb];
    try (split; [discriminate | discriminate]); [split; reflexivity | ].
  rewrite andb_true_iff, N.eqb_eq, IH. split.
  - intros [-> ->]. reflexivity.
  - intros H. injection H as -> ->. auto.
Qed.

Lemma length_matchAll {A} (m : option code_unit -> jsstring -> option (A * nat)) s :
  List.length (matchAll m s) = count_hits (scan m 0 None s).
Proof.
  unfold matchAll. induction (scan m 0 None s) as [|[c|a] ps IH];
    cbn [flat_map count_hits app List.length]; [reflexivity | exact IH | ].
  f_equal. exact IH.
Qed.

Lemma count_hits_scan_le {A}
      (m : option code_unit -> jsstring -> option (A * nat)) s :
  forall k prev, count_hits (scan m k prev s) <= List.length s.
Proof.
  induction s as [|c r IH]; intros k prev; cbn [scan count_hits List.length];
    [lia | ].
  destruct k as [|k]; [ | specialize (IH k (Some c)); lia].
  destruct (m prev (c :: r)) as [[a len]|]; cbn [count_hits].
  - specialize (IH (pred len) (Some c)). lia.
  - specialize (IH 0 (Some c)). lia.
Qed.

Lemma span_prefix (p : code_unit -> bool) a r :
  forallb p a = true ->
  span p (a ++ r) = (a ++ fst (span p r), snd (span p r)).
Proof.
  intros H. induction a as [|c a IH]; cbn [app span forallb] in *.
  - destruct (span p r); reflexivity.
  - apply andb_true_iff in H as [Hc Ha]. rewrite Hc, (IH Ha). reflexivity.
Qed.

Lemma isWordAt_last a prev :
  forallb isWord a = true -> a <> [] ->
  isWordAt (last (List.map Some a) prev) = true.
Proof.
  revert prev. induction a as [|c a IH]; intros prev H N; [contradiction | ].
  cbn [forallb] in H. apply andb_true_iff in H as [Hc Ha].
  cbn [List.map]. rewrite last_cons. destruct a as [|d a]; [exact Hc | ].
  apply IH; [exact Ha | discriminate].
Qed.

(** One alternative followed by [\b] matches at the start of a token
    exactly when it is the token. *)
Lemma alternative_is_token {X} a s (yes no : X) :
  forallb isWord a = true -> a <> [] ->
  match strip_prefix a s with
  | Some r =>
      if wordBoundary (last (List.map Some a) None) (hd_error r)
      then yes else no
  | None => no
  end
  = if str_eqb (fst (span isWord s)) a then yes else no.
Proof.
  intros Ha Na. destruct (strip_prefix a s) as [r|] eqn:E.
  - apply strip_prefix_Some in E. subst s.
    rewrite (span_prefix isWord a r Ha). cbn [fst].
    unfold wordBoundary. rewrite (isWordAt_last a None Ha Na).
    destruct r as [|c r]; cbn [hd_error isWordAt span fst].
    + rewrite app_nil_r.
      replace (str_eqb a a) with true by (symmetry; apply str_eqb_eq; reflexivity).
      reflexivity.
    + destruct (isWord c) eqn:Hc; cbn [xorb negb].
      * destruct (span isWord r) as [x y]. cbn [fst].
        destruct (str_eqb (a ++ c :: x) a) eqn:Q; [ | reflexivity].
        apply str_eqb_eq in Q. apply (f_equal (@List.length _)) in Q.
        rewrite length_app in Q. cbn [List.length] in Q. lia.
      * cbn [fst]. rewrite app_nil_r.
        replace (str_eqb a a) with true
          by (symmetry; apply str_eqb_eq; reflexivity).
        reflexivity.
  - destruct (str_eqb (fst (span isWord s)) a) eqn:Q; [ | reflexivity].
    apply str_eqb_eq in Q. pose proof (span_app isWord s) as S.
    rewrite Q in S. rewrite S, strip_prefix_app in E. discriminate.
Qed.

Lemma alternatives_are_token alts s :
  Forall (fun a => forallb isWord a = true /\ a <> []) alts ->
  pronoun_alternatives alts s
  = if existsb (str_eqb (fst (span isWord s))) alts
    then Some (tt, List.length (fst (span isWord s)))
    else None.
Proof.
  induction 1 as [|a alts [Ha Na] _ IH]; cbn [pronoun_alternatives existsb];
    [reflexivity | ].
  rewrite (alternative_is_token a s _ _ Ha Na), IH.
  destruct (str_eqb (fst (span isWord s)) a) eqn:Q; cbn [orb]; [ | reflexivity].
  apply str_eqb_eq in Q. rewrite Q. reflexivity.
Qed.

Lemma pronouns_are_words :
  Forall (fun a => forallb isWord a = true /\ a <> []) pronouns.
Proof. repeat constructor; discriminate. Qed.

Lemma word_tokens_token s :
  fst (span isWord s) <> [] ->
  word_tokens [] s
  = fst (span isWord s) :: word_tokens [] (snd (span isWord s)).
Proof.
  assert (G : forall s cur,
             cur ++ fst (span isWord s) <> [] ->
             word_tokens cur s
             = (cur ++ fst (span isWord s))
               :: word_tokens [] (snd (span isWord s))).
  { clear s. induction s as [|c r IH]; intros cur N; cbn [span word_tokens].
    - cbn [fst snd span word_tokens flush] in *. rewrite app_nil_r in *.
      destruct cur; [contradiction | reflexivity].
    - cbn [span] in N. destruct (isWord c) eqn:Hc.
      + destruct (span isWord r) as [a b] eqn:E. cbn [fst snd] in *.
        rewrite (IH (cur ++ [c])); rewrite <- app_assoc; [reflexivity | ].
        cbn [app]. exact N.
      + cbn [fst snd] in *. rewrite app_nil_r in *.
        cbn [word_tokens]. rewrite Hc.
        destruct cur; [contradiction | reflexivity]. }
  intros N. apply (G s []). exact N.
Qed.

Lemma word_tokens_skip c r :
  isWord c = false -> word_tokens [] (c :: r) = word_tokens [] r.
Proof. intros H. cbn [word_tokens]. rewrite H. reflexivity. Qed.

Lemma span_rest_fixed (p : code_unit -> bool) s :
  span p (snd (span p s)) = ([], snd (span p s)).
Proof.
  pose proof (span_stop p s) as H.
  destruct (snd (span p s)) as [|c r]; [reflexivity | ].
  cbn [span]. rewrite (H c r eq_refl). reflexivity.
Qed.

Lemma re_pronoun_at prev s :
  re_pronoun prev s
  = if xorb (isWordAt prev) (isWordAt (hd_error s))
    then pronoun_alternatives pronouns s else None.
Proof. reflexivity. Qed.

(** The matches of [/\b(i|we|my|our|me|us)\b/g] are the tokens that are
    pronouns: [scan] from inside a token, and from outside. *)
Lemma scan_pronouns n :
  forall s prev, List.length s <= n ->
    (isWordAt prev = true ->
     count_hits (scan re_pronoun 0 prev s)
     = List.length (List.filter is_first_person
                      (word_tokens [] (snd (span isWord s)))))
    /\ (isWordAt prev = false ->
        count_hits (scan re_pronoun 0 prev s)
        = List.length (List.filter is_first_person (word_tokens [] s))).
Proof.
  induction n as [|n IH]; intros s prev L.
  { destruct s; [split; reflexivity | cbn in L; lia]. }
  destruct s as [|c r]; [split; reflexivity | ].
  cbn [List.length] in L. assert (Lr : List.length r <= n) by lia.
  split; intros Hp.
  - cbn [scan span]. rewrite re_pronoun_at, Hp.
    cbn [hd_error isWordAt]. destruct (isWord c) eqn:Hc; cbn [xorb].
    + cbn [count_hits]. rewrite (proj1 (IH r (Some c) Lr) Hc).
      destruct (span isWord r); reflexivity.
    + rewrite (alternatives_are_token pronouns (c :: r) pronouns_are_words).
      cbn [span]. rewrite Hc. cbn [fst snd count_hits].
      change (existsb (str_eqb []) pronouns) with false. cbn iota.
      cbn [count_hits].
      rewrite (proj2 (IH r (Some c) Lr) Hc).
      rewrite (word_tokens_skip c r Hc). reflexivity.
  - cbn [scan]. rewrite re_pronoun_at, Hp.
    cbn [hd_error isWordAt]. destruct (isWord c) eqn:Hc; cbn [xorb].
    + rewrite (alternatives_are_token pronouns (c :: r) pronouns_are_words).
      rewrite word_tokens_token
        by (cbn [span]; rewrite Hc; destruct (span isWord r); discriminate).
      cbn [span]. rewrite Hc.
      pose proof (span_app isWord r) as Sr.
      pose proof (span_all isWord r) as Sa.
      pose proof (span_rest_fixed isWord r) as Sf.
      destruct (span isWord r) as [a rest]. cbn [fst snd] in *.
      cbn [List.filter].
      change (existsb (str_eqb (c :: a)) pronouns)
        with (is_first_person (c :: a)).
      destruct (is_first_person (c :: a)).
      * cbn [count_hits List.length pred]. f_equal.
        rewrite Sr at 1. rewrite scan_skip.
        assert (W : isWordAt (last (List.map Some a) (Some c)) = true).
        { destruct a as [|d a]; [exact Hc | ].
          apply isWordAt_last; [exact Sa | discriminate]. }
        assert (Lrest : List.length rest <= n).
        { rewrite Sr, length_app in Lr. lia. }
        rewrite (proj1 (IH rest _ Lrest) W), Sf. reflexivity.
      * cbn [count_hits].
        rewrite (proj1 (IH r (Some c) Lr) Hc).
        rewrite Sr at 1.
        rewrite (span_prefix isWord a rest Sa), Sf. reflexivity.
    + cbn [count_hits]. rewrite (proj2 (IH r (Some c) Lr) Hc).
      rewrite (word_tokens_skip c r Hc). reflexivity.
Qed.

Lemma firstPersonPronouns_occurrences toLowerCase text :
  firstPersonPronouns toLowerCase text
  = pronoun_occurrences (toLowerCase text).
Proof.
  unfold firstPersonPronouns, pronoun_occurrences. rewrite length_matchAll.
  exact (proj2 (scan_pronouns _ (toLowerCase text) None (le_n _)) eq_refl).
Qed.

(* ================================================================== *)
(** * The markers the analyzer looks for *)
(* ================================================================== *)

Lemma includes_occurs s w : includes s w = true <-> occurs w s.
Proof.
  split.
  - induction s as [|c s IH]; cbn [includes].
    + destruct (strip_prefix w []) as [r|] eqn:E; [ | discriminate].
      intros _. apply strip_prefix_Some in E. exists [], r. exact E.
    + destruct (strip_prefix w (c :: s)) as [r|] eqn:E.
      * intros _. apply strip_prefix_Some in E. exists [], r. exact E.
      * intros H. destruct (IH H) as (b & a & ->). exists (c :: b), a.
        reflexivity.
  - intros (b & a & ->). induction b as [|c b IH].
    + cbn [app]. destruct (w ++ a) as [|c r] eqn:E; cbn [includes];
        rewrite <- E, strip_prefix_app; reflexivity.
    + cbn [app includes]. rewrite IH.
      destruct (strip_prefix w (c :: b ++ w ++ a)); reflexivity.
Qed.

Lemma hasConversational_occurs toLowerCase text :
  hasConversational toLowerCase text = true
  <-> marker_occurs (toLowerCase text).
Proof.
  unfold hasConversational, marker_occurs. rewrite existsb_exists.
  split; intros (w & Hin & H); exists w; (split; [exact Hin | ]);
    apply includes_occurs; exact H.
Qed.

(* ================================================================== *)
(** * The ratio test of the analyzer, in binary64 *)
(* ================================================================== *)

Section Binary64.
Local Open Scope Z_scope.

(** ** Digits and shifts *)

Lemma digits2_bounds p :
  2 ^ (Zpos (SpecFloat.digits2_pos p) - 1) <= Zpos p
  < 2 ^ Zpos (SpecFloat.digits2_pos p).
Proof.
  induction p as [p IH | p IH | ]; cbn [SpecFloat.digits2_pos].
  - rewrite Pos2Z.inj_succ.
    replace (Z.succ (Zpos (SpecFloat.digits2_pos p)) - 1)
      with (Z.succ (Zpos (SpecFloat.digits2_pos p) - 1)) by lia.
    rewrite !Z.pow_succ_r by lia. lia.
  - rewrite Pos2Z.inj_succ.
    replace (Z.succ (Zpos (SpecFloat.digits2_pos p)) - 1)
      with (Z.succ (Zpos (SpecFloat.digits2_pos p) - 1)) by lia.
    rewrite !Z.pow_succ_r by lia. lia.
  - cbn. lia.
Qed.

Lemma digits2_unique p d :
  2 ^ (d - 1) <= Zpos p < 2 ^ d -> Zpos (SpecFloat.digits2_pos p) = d.
Proof.
  intros [L U]. pose proof (digits2_bounds p) as [L' U'].
  set (d' := Zpos (SpecFloat.digits2_pos p)) in *.
  assert (0 < d') by (subst d'; lia).
  assert (0 < d).
  { destruct (Z.lt_trichotomy 0 d) as [G | [<- | G]]; [exact G | | ].
    - cbn in U. lia.
    - rewrite (Z.pow_neg_r 2 d) in U by lia. lia. }
  destruct (Z.lt_trichotomy d' d) as [G | [G | G]]; [ | exact G | ].
  - assert (2 ^ d' <= 2 ^ (d - 1)) by (apply Z.pow_le_mono_r; lia). lia.
  - assert (2 ^ d <= 2 ^ (d' - 1)) by (apply Z.pow_le_mono_r; lia). lia.
Qed.

Lemma iter_xO p k : Zpos (Pos.iter xO p k) = Zpos p * 2 ^ Zpos k.
Proof.
  induction k as [|k IH] using Pos.peano_ind.
  - cbn. lia.
  - rewrite Pos.iter_succ, Pos2Z.inj_xO, IH, Pos2Z.inj_succ, Z.pow_succ_r by lia.
    lia.
Qed.

Lemma round_nearest_even_near m l :
  SpecFloat.round_nearest_even m l = m
  \/ SpecFloat.round_nearest_even m l = m + 1.
Proof.
  destruct l as [|[| |]]; cbn [SpecFloat.round_nearest_even]; auto.
  destruct (Z.even m); auto.
Qed.

Lemma loc_of_record m l :
  SpecFloat.loc_of_shr_record (SpecFloat.shr_record_of_loc m l) = l
  /\ SpecFloat.shr_m (SpecFloat.shr_record_of_loc m l) = m.
Proof. destruct l as [|[| |]]; split; reflexivity. Qed.

Lemma shr_fexp_53 m e l :
  Zpos (SpecFloat.digits2_pos m) = 53 -> -1074 <= e ->
  SpecFloat.shr_fexp 53 1024 (Zpos m) e l
  = (SpecFloat.shr_record_of_loc (Zpos m) l, e).
Proof.
  intros D E. unfold SpecFloat.shr_fexp, SpecFloat.fexp, SpecFloat.emin.
  cbn [SpecFloat.Zdigits2]. rewrite D.
  replace (Z.max (53 + e - 53) (3 - 1024 - 53) - e) with 0 by lia.
  reflexivity.
Qed.

Lemma shr_fexp_54 m e l :
  Zpos (SpecFloat.digits2_pos m) = 54 -> -1075 <= e ->
  SpecFloat.shr_fexp 53 1024 (Zpos m) e l
  = (SpecFloat.shr_1 (SpecFloat.shr_record_of_loc (Zpos m) l), e + 1).
Proof.
  intros D E. unfold SpecFloat.shr_fexp, SpecFloat.fexp, SpecFloat.emin.
  cbn [SpecFloat.Zdigits2]. rewrite D.
  replace (Z.max (54 + e - 53) (3 - 1024 - 53) - e) with 1 by lia.
  reflexivity.
Qed.

Lemma shr_1_half m l :
  1 < Zpos m ->
  SpecFloat.shr_m (SpecFloat.shr_1 (SpecFloat.shr_record_of_loc (Zpos m) l))
  = Zpos m / 2.
Proof.
  intros H.
  destruct l as [|[| |]]; destruct m as [p|p|];
    cbn [SpecFloat.shr_record_of_loc SpecFloat.shr_1 SpecFloat.shr_m orb];
    try lia.
  all: try (rewrite Pos2Z.inj_xI; apply Z.div_unique with (r := 1); lia).
  all: try (rewrite Pos2Z.inj_xO; apply Z.div_unique with (r := 0); lia).
Qed.

(** The last normalisation and the packing of a rounded mantissa. *)
Lemma pack_rounded m e :
  2 ^ 52 <= Zpos m <= 2 ^ 53 -> -1074 <= e <= 900 ->
  (let '(mrs, e2) := SpecFloat.shr_fexp 53 1024 (Zpos m) e SpecFloat.loc_Exact in
   match SpecFloat.shr_m mrs with
   | Z0 => SpecFloat.S754_zero false
   | Zpos m' =>
       if Z.leb e2 (1024 - 53) then SpecFloat.S754_finite false m' e2
       else SpecFloat.S754_infinity false
   | Zneg _ => SpecFloat.S754_nan
   end)
  = if Zpos m <? 2 ^ 53 then SpecFloat.S754_finite false m e
    else SpecFloat.S754_finite false (2 ^ 52)%positive (e + 1).
Proof.
  intros [L U] E. destruct (Zpos m <? 2 ^ 53) eqn:B.
  - apply Z.ltb_lt in B.
    rewrite shr_fexp_53; [ | apply digits2_unique; cbn; lia | lia].
    cbn [SpecFloat.shr_record_of_loc SpecFloat.shr_m].
    replace (e <=? 1024 - 53) with true; [reflexivity | ].
    symmetry. apply Z.leb_le. lia.
  - apply Z.ltb_ge in B. assert (Zpos m = 2 ^ 53) as M by lia.
    rewrite shr_fexp_54; [ | apply digits2_unique; cbn; lia | lia].
    rewrite shr_1_half by lia. rewrite M.
    change (2 ^ 53 / 2) with (Zpos (2 ^ 52)).
    replace (e + 1 <=? 1024 - 53) with true; [reflexivity | ].
    symmetry. apply Z.leb_le. lia.
Qed.

(** ** Rounding a quotient *)

Lemma round_pack m l e :
  2 ^ 52 <= Zpos m < 2 ^ 53 -> -1074 <= e <= 900 ->
  exists m' e2,
    (let '(mrs, e2) :=
       SpecFloat.shr_fexp 53 1024
         (SpecFloat.round_nearest_even (Zpos m) l) e SpecFloat.loc_Exact in
     match SpecFloat.shr_m mrs with
     | Z0 => SpecFloat.S754_zero false
     | Zpos m' =>
         if Z.leb e2 (1024 - 53) then SpecFloat.S754_finite false m' e2
         else SpecFloat.S754_infinity false
     | Zneg _ => SpecFloat.S754_nan
     end) = SpecFloat.S754_finite false m' e2
    /\ ((Zpos m' < 2 ^ 53 /\ (Zpos m' = Zpos m \/ Zpos m' = Zpos m + 1)
         /\ e2 = e)
        \/ (Zpos m + 1 = 2 ^ 53 /\ Zpos m' = 2 ^ 52 /\ e2 = e + 1)).
Proof.
  intros M E.
  destruct (round_nearest_even_near (Zpos m) l) as [-> | ->].
  - rewrite pack_rounded by lia.
    replace (Zpos m <? 2 ^ 53) with true by (symmetry; apply Z.ltb_lt; lia).
    exists m, e. split; [reflexivity | ]. left. lia.
  - change (Zpos m + 1) with (Zpos (m + 1)).
    rewrite pack_rounded by lia.
    destruct (Zpos (m + 1) <? 2 ^ 53) eqn:B.
    + apply Z.ltb_lt in B. exists (m + 1)%positive, e.
      split; [reflexivity | ]. left. lia.
    + apply Z.ltb_ge in B. exists (2 ^ 52)%positive, (e + 1).
      split; [reflexivity | ]. right.
      change (Zpos (2 ^ 52)) with (2 ^ 52). lia.
Qed.

Lemma binary_round_aux_bracket q e l :
  2 ^ 52 <= Zpos q < 2 ^ 54 -> -1074 <= e <= 800 ->
  exists m e2 j q0,
    SpecFloat.binary_round_aux 53 1024 false (Zpos q) e l
    = SpecFloat.S754_finite false m e2
    /\ (j = 0 \/ j = 1)
    /\ q0 * 2 ^ j <= Zpos q < (q0 + 1) * 2 ^ j
    /\ 2 ^ 52 <= q0 < 2 ^ 53
    /\ ((Zpos m < 2 ^ 53 /\ (Zpos m = q0 \/ Zpos m = q0 + 1) /\ e2 = e + j)
        \/ (q0 + 1 = 2 ^ 53 /\ Zpos m = 2 ^ 52 /\ e2 = e + j + 1)).
Proof.
  intros [L U] E. unfold SpecFloat.binary_round_aux.
  destruct (Zpos q <? 2 ^ 53) eqn:B.
  - apply Z.ltb_lt in B.
    rewrite shr_fexp_53; [ | apply digits2_unique; cbn; lia | lia].
    destruct (loc_of_record (Zpos q) l) as [-> ->].
    destruct (round_pack q l e) as (m & e2 & -> & H); [lia | lia | ].
    exists m, e2, 0, (Zpos q). split; [reflexivity | ].
    split; [left; reflexivity | ]. split; [lia | ]. split; [lia | ].
    rewrite !Z.add_0_r. exact H.
  - apply Z.ltb_ge in B.
    rewrite shr_fexp_54; [ | apply digits2_unique; cbn; lia | lia].
    rewrite shr_1_half by lia.
    pose proof (Z.div_mod (Zpos q) 2 ltac:(lia)) as D.
    pose proof (Z.mod_pos_bound (Zpos q) 2 ltac:(lia)) as R.
    assert (Q0 : 2 ^ 52 <= Zpos q / 2 < 2 ^ 53).
    { change (2 ^ 54) with (2 * 2 ^ 53) in U.
      change (2 ^ 53) with (2 * 2 ^ 52) in B. lia. }
    destruct (Zpos q / 2) as [|q0|q0] eqn:Q; try lia.
    destruct (round_pack q0
                (SpecFloat.loc_of_shr_record
                   (SpecFloat.shr_1 (SpecFloat.shr_record_of_loc (Zpos q) l)))
                (e + 1))
      as (m & e2 & -> & H); [lia | lia | ].
    exists m, e2, 1, (Zpos q0). split; [reflexivity | ].
    split; [right; reflexivity | ]. split; [lia | ]. split; [lia | ].
    replace (e + 1 + 1) with (e + 1 + 1) by lia. exact H.
Qed.

Lemma binary_round_aux_exact m e :
  2 ^ 52 <= Zpos m < 2 ^ 53 -> -1074 <= e <= 900 ->
  SpecFloat.binary_round_aux 53 1024 false (Zpos m) e SpecFloat.loc_Exact
  = SpecFloat.S754_finite false m e.
Proof.
  intros M E. unfold SpecFloat.binary_round_aux.
  rewrite shr_fexp_53; [ | apply digits2_unique; cbn; lia | lia].
  cbn [SpecFloat.shr_record_of_loc SpecFloat.shr_m SpecFloat.loc_of_shr_record
       SpecFloat.round_nearest_even].
  rewrite pack_rounded by lia.
  replace (Zpos m <? 2 ^ 53) with true by (symmetry; apply Z.ltb_lt; lia).
  reflexivity.
Qed.

Lemma binary_normalize_int z :
  0 < z < 2 ^ 53 ->
  exists m d,
    SpecFloat.binary_normalize 53 1024 z 0 false
    = SpecFloat.S754_finite false m (d - 53)
    /\ 1 <= d <= 53
    /\ Zpos m = z * 2 ^ (53 - d)
    /\ 2 ^ 52 <= Zpos m < 2 ^ 53.
Proof.
  intros [L U]. destruct z as [|p|p]; try lia.
  pose proof (digits2_bounds p) as [DL DU].
  set (d := Zpos (SpecFloat.digits2_pos p)) in *.
  assert (D : 1 <= d <= 53).
  { split; [subst d; lia | ].
    destruct (Z.le_gt_cases d 53) as [G | G]; [exact G | exfalso].
    assert (2 ^ 53 <= 2 ^ (d - 1)) by (apply Z.pow_le_mono_r; lia). lia. }
  unfold SpecFloat.binary_normalize, SpecFloat.binary_round,
    SpecFloat.shl_align, SpecFloat.fexp, SpecFloat.emin.
  fold d. replace (Z.max (d + 0 - 53) (3 - 1024 - 53)) with (d - 53) by lia.
  destruct (d - 53 - 0) as [|k|k] eqn:K; try lia.
  - assert (d = 53) as D53 by lia.
    exists p, d. rewrite D53 in *. change (53 - 53) with 0.
    rewrite binary_round_aux_exact by (cbn in *; lia).
    split; [reflexivity | ]. split; [lia | ]. split; [cbn; lia | ].
    cbn in *. lia.
  - assert (P : Zpos (Pos.iter xO p k) = Zpos p * 2 ^ (53 - d)).
    { rewrite iter_xO. f_equal. f_equal. lia. }
    assert (B : 2 ^ 52 <= Zpos (Pos.iter xO p k) < 2 ^ 53).
    { rewrite P. split.
      - replace 52 with ((d - 1) + (53 - d)) by lia.
        rewrite Z.pow_add_r by lia.
        apply Z.mul_le_mono_nonneg_r; [apply Z.pow_nonneg; lia | exact DL].
      - replace 53 with (d + (53 - d)) at 2 by lia.
        rewrite Z.pow_add_r by lia.
        apply Z.mul_lt_mono_pos_r; [apply Z.pow_pos_nonneg; lia | exact DU]. }
    exists (Pos.iter xO p k), d.
    rewrite binary_round_aux_exact by lia.
    split; [reflexivity | ]. split; [lia | ]. split; [exact P | exact B].
Qed.

Lemma SFdiv_bracket mx my ex ey :
  2 ^ 52 <= Zpos mx < 2 ^ 53 -> 2 ^ 52 <= Zpos my < 2 ^ 53 ->
  -60 <= ex <= 0 -> -60 <= ey <= 0 ->
  exists m e2 j q0,
    SpecFloat.SFdiv 53 1024 (SpecFloat.S754_finite false mx ex)
                    (SpecFloat.S754_finite false my ey)
    = SpecFloat.S754_finite false m e2
    /\ (j = 0 \/ j = 1)
    /\ 2 ^ 52 <= q0 < 2 ^ 53
    /\ Zpos my * (q0 * 2 ^ j) <= Zpos mx * 2 ^ 53
       < Zpos my * ((q0 + 1) * 2 ^ j)
    /\ ((Zpos m < 2 ^ 53 /\ (Zpos m = q0 \/ Zpos m = q0 + 1)
         /\ e2 = ex - ey - 53 + j)
        \/ (q0 + 1 = 2 ^ 53 /\ Zpos m = 2 ^ 52 /\ e2 = ex - ey - 53 + j + 1)).
Proof.
  intros MX MY EX EY.
  unfold SpecFloat.SFdiv, SpecFloat.SFdiv_core_binary. cbv zeta.
  cbn [SpecFloat.Zdigits2 xorb].
  rewrite (digits2_unique mx 53) by (cbn; lia).
  rewrite (digits2_unique my 53) by (cbn; lia).
  replace (Z.min (SpecFloat.fexp 53 1024 (53 + ex - (53 + ey))) (ex - ey))
    with (ex - ey - 53)
    by (unfold SpecFloat.fexp, SpecFloat.emin; lia).
  replace (ex - ey - (ex - ey - 53)) with 53 by lia.
  rewrite Z.shiftl_mul_pow2 by lia.
  pose proof (Z_div_mod (Zpos mx * 2 ^ 53) (Zpos my) ltac:(lia)) as D.
  destruct (Z.div_eucl (Zpos mx * 2 ^ 53) (Zpos my)) as [q r].
  destruct D as [D R].
  assert (Q : 2 ^ 52 <= q < 2 ^ 54).
  { split.
    - destruct (Z.le_gt_cases (2 ^ 52) q) as [G | G]; [exact G | exfalso].
      assert (Zpos my * (q + 1) <= Zpos my * 2 ^ 52)
        by (apply Z.mul_le_mono_nonneg_l; lia).
      assert (2 ^ 52 * 2 ^ 53 <= Zpos mx * 2 ^ 53)
        by (apply Z.mul_le_mono_nonneg_r; lia).
      assert (Zpos my * 2 ^ 52 < 2 ^ 53 * 2 ^ 52)
        by (apply Z.mul_lt_mono_pos_r; lia).
      lia.
    - destruct (Z.lt_ge_cases q (2 ^ 54)) as [G | G]; [exact G | exfalso].
      assert (Zpos my * 2 ^ 54 <= Zpos my * q)
        by (apply Z.mul_le_mono_nonneg_l; lia).
      assert (2 ^ 52 * 2 ^ 54 <= Zpos my * 2 ^ 54)
        by (apply Z.mul_le_mono_nonneg_r; lia).
      assert (Zpos mx * 2 ^ 53 < 2 ^ 53 * 2 ^ 53)
        by (apply Z.mul_lt_mono_pos_r; lia).
      change (2 ^ 52 * 2 ^ 54) with (2 ^ 53 * 2 ^ 53) in *. lia. }
  destruct q as [|q|q]; try lia.
  destruct (binary_round_aux_bracket q (ex - ey - 53)
              (SpecFloat.new_location (Zpos my) r))
    as (m & e2 & j & q0 & -> & J & B & Q0 & H); [lia | lia | ].
  exists m, e2, j, q0. split; [reflexivity | ]. split; [exact J | ].
  split; [exact Q0 | ]. split; [ | exact H].
  split.
  - assert (Zpos my * (q0 * 2 ^ j) <= Zpos my * Zpos q)
      by (apply Z.mul_le_mono_nonneg_l; lia).
    lia.
  - assert (Zpos my * (Zpos q + 1) <= Zpos my * ((q0 + 1) * 2 ^ j))
      by (apply Z.mul_le_mono_nonneg_l; lia).
    lia.
Qed.

(** ** The comparison with 0.02 *)


Lemma two_percent_spec :
  FloatOps.Prim2SF Float64.two_percent
  = SpecFloat.S754_finite false 5764607523034235 (-58).
Proof. vm_compute. reflexivity. Qed.

(** Powers of two whose exponents differ by [t]. *)
Lemma pow2_split u v t : 0 <= u -> 0 <= t -> v = u + t -> 2 ^ v = 2 ^ u * 2 ^ t.
Proof. intros U T ->. apply Z.pow_add_r; assumption. Qed.

Lemma ratio_Z a b :
  0 < a < 2 ^ 53 -> 0 < b <= 2 ^ 52 ->
  SpecFloat.SFltb
    (SpecFloat.S754_finite false 5764607523034235 (-58))
    (SpecFloat.SFdiv 53 1024
       (SpecFloat.binary_normalize 53 1024 a 0 false)
       (SpecFloat.binary_normalize 53 1024 b 0 false))
  = (b <? 50 * a).
Proof.
  intros Ha Hb.
  destruct (binary_normalize_int a) as (A & da & -> & Da & PA & BA); [lia | ].
  destruct (binary_normalize_int b) as (B & db & -> & Db & PB & BB); [lia | ].
  destruct (SFdiv_bracket A B (da - 53) (db - 53))
    as (m & e2 & j & q0 & -> & J & Q0 & [BL BU] & H); try lia.
  set (P := 2 ^ (53 - da)) in *. set (Q := 2 ^ (53 - db)) in *.
  assert (P0 : 0 < P) by (apply Z.pow_pos_nonneg; lia).
  assert (Q0' : 0 < Q) by (apply Z.pow_pos_nonneg; lia).
  set (e1 := da - 53 - (db - 53) - 53 + j) in *.
  set (K := 2 ^ j) in *.
  assert (K0 : K = 1 \/ K = 2) by (destruct J as [-> | ->]; [left | right]; reflexivity).
  assert (R1 : -58 < e1 -> 2 * P <= 32 * Q * K).
  { intros G. change 32 with (2 ^ 5). unfold P, Q, K.
    rewrite <- !Z.pow_add_r by lia.
    rewrite (pow2_split (53 - da) (5 + (53 - db) + j) (e1 + 58)) by (unfold e1; lia).
    assert (2 ^ 1 <= 2 ^ (e1 + 58)) by (apply Z.pow_le_mono_r; lia).
    assert (0 < 2 ^ (53 - da)) by (apply Z.pow_pos_nonneg; lia).
    change (2 ^ 1) with 2 in *. nia. }
  assert (R2 : e1 < -58 -> 64 * Q * K <= P).
  { intros G. change 64 with (2 ^ 6). unfold P, Q, K.
    rewrite <- !Z.pow_add_r by lia.
    apply Z.pow_le_mono_r; unfold e1 in *; lia. }
  assert (R3 : e1 = -58 -> P = 32 * Q * K).
  { intros G. change 32 with (2 ^ 5). unfold P, Q, K.
    rewrite <- !Z.pow_add_r by lia. f_equal. unfold e1 in *; lia. }
  rewrite PA, PB in *. clearbody P Q K e1. clear PA PB.
  set (QK := Q * K) in *.
  assert (QK0 : 0 < QK) by (unfold QK; destruct K0 as [-> | ->]; lia).
  assert (BL' : b * q0 * QK <= a * P * 2 ^ 53) by (unfold QK; lia).
  assert (BU' : a * P * 2 ^ 53 < b * (q0 + 1) * QK) by (unfold QK; lia).
  replace (32 * Q * K) with (32 * QK) in * by (unfold QK; lia).
  replace (64 * Q * K) with (64 * QK) in * by (unfold QK; lia).
  clear BL BU. clearbody QK. clear K K0 Q Q0' BB.
  assert (G1 : -58 < e1 -> b < 50 * a).
  { intros G. specialize (R1 G).
    destruct (Z.lt_ge_cases b (50 * a)) as [X | X]; [exact X | exfalso].
    assert (a * P * 2 ^ 53 <= a * (16 * QK) * 2 ^ 53).
    { apply Z.mul_le_mono_nonneg_r; [lia | ].
      apply Z.mul_le_mono_nonneg_l; lia. }
    assert (Y : b * q0 * QK <= (2 ^ 57 * a) * QK) by lia.
    apply Z.mul_le_mono_pos_r in Y; [ | exact QK0].
    assert (50 * a * 2 ^ 52 <= b * q0).
    { apply Z.mul_le_mono_nonneg; lia. }
    lia. }
  assert (G2 : e1 < -58 -> 50 * a <= b).
  { intros G. specialize (R2 G).
    assert (a * (64 * QK) * 2 ^ 53 <= a * P * 2 ^ 53).
    { apply Z.mul_le_mono_nonneg_r; [lia | ].
      apply Z.mul_le_mono_nonneg_l; lia. }
    assert (b * (q0 + 1) * QK <= b * 2 ^ 53 * QK).
    { apply Z.mul_le_mono_nonneg_r; [lia | ].
      apply Z.mul_le_mono_nonneg_l; lia. }
    assert (Y : (64 * a * 2 ^ 53) * QK < (b * 2 ^ 53) * QK) by lia.
    apply Z.mul_lt_mono_pos_r in Y; [ | exact QK0]. lia. }
  assert (G3 : e1 = -58 ->
               (b < 50 * a -> 5764607523034235 + 1 <= q0)
               /\ (50 * a <= b -> q0 <= 5764607523034235 - 1)).
  { intros G. specialize (R3 G). subst P.
    assert (Y1 : b * q0 * QK <= (2 ^ 58 * a) * QK) by lia.
    apply Z.mul_le_mono_pos_r in Y1; [ | exact QK0].
    assert (Y2 : (2 ^ 58 * a) * QK < (b * (q0 + 1)) * QK) by lia.
    apply Z.mul_lt_mono_pos_r in Y2; [ | exact QK0].
    split; intros X.
    - destruct (Z.le_gt_cases (5764607523034235 + 1) q0) as [W | W];
        [exact W | exfalso].
      assert (b * (q0 + 1) <= b * (5764607523034235 + 1))
        by (apply Z.mul_le_mono_nonneg_l; lia).
      lia.
    - destruct (Z.le_gt_cases q0 (5764607523034235 - 1)) as [W | W];
        [exact W | exfalso].
      assert (b * 5764607523034235 <= b * q0)
        by (apply Z.mul_le_mono_nonneg_l; lia).
      lia. }
  clear BL' BU' R1 R2 R3.
  unfold SpecFloat.SFltb, SpecFloat.SFcompare.
  change (Pos.compare_cont Eq 5764607523034235 m)
    with (Pos.compare 5764607523034235 m).
  rewrite Pos2Z.inj_compare.
  clear BA Da Db P0.
  destruct H as [(M & Hm & ->) | (Hq & Hm & ->)].
  - destruct (Z.compare_spec (-58) e1) as [E | E | E].
    + destruct (G3 (eq_sym E)) as [G3a G3b].
      destruct (Z.ltb_spec b (50 * a)) as [X | X].
      * specialize (G3a X).
        destruct (Z.compare_spec 5764607523034235 (Zpos m)) as [Y | Y | Y];
          [ | reflexivity | ]; exfalso; lia.
      * specialize (G3b X).
        destruct (Z.compare_spec 5764607523034235 (Zpos m)) as [Y | Y | Y];
          [reflexivity | | reflexivity]; exfalso; lia.
    + symmetry. apply Z.ltb_lt. apply G1. exact E.
    + symmetry. apply Z.ltb_ge. apply G2. exact E.
  - destruct (Z.compare_spec (-58) (e1 + 1)) as [E | E | E].
    + rewrite Hm. change (5764607523034235 ?= 2 ^ 52) with Gt.
      symmetry. apply Z.ltb_ge. apply G2. lia.
    + symmetry. apply Z.ltb_lt.
      destruct (Z.eq_dec e1 (-58)) as [E' | E']; [ | apply G1; lia].
      destruct (G3 E') as [_ G3b].
      destruct (Z.lt_ge_cases b (50 * a)) as [X | X]; [exact X | exfalso].
      specialize (G3b X). change (2 ^ 53) with 9007199254740992 in Hq. lia.
    + symmetry. apply Z.ltb_ge. apply G2. lia.
Qed.
End Binary64.

(** In binary64, as the program computes it, the quotient of two counts
    exceeds the literal [0.02] exactly when their ratio exceeds 2/100. *)
Lemma ratio_exceeds_2_percent_exact (a b : nat) :
  0 < b -> (Z.of_nat a < 2 ^ 53)%Z -> (Z.of_nat b <= 2 ^ 52)%Z ->
  ratio_exceeds_2_percent a b = true <-> exceeds_two_percent a b.
Proof.
  intros Hb Ha Hb'.
  assert (Q : exceeds_two_percent a b <-> (Z.of_nat b < 50 * Z.of_nat a)%Z).
  { unfold exceeds_two_percent, QArith_base.Qlt.
    cbn [QArith_base.Qnum QArith_base.Qden].
    rewrite <- (positive_nat_Z (Pos.of_nat b)), Nat2Pos.id by lia. lia. }
  rewrite Q. clear Q.
  unfold ratio_exceeds_2_percent, number_of_nat.
  rewrite FloatAxioms.ltb_spec, FloatAxioms.div_spec,
    !FloatAxioms.of_uint63_spec, two_percent_spec.
  rewrite !Uint63.of_Z_spec.
  assert (W : (2 ^ 53 < Uint63.wB)%Z) by reflexivity.
  rewrite !Z.mod_small by lia.
  unfold FloatAxioms.SF64div.
  change FloatOps.prec with 53%Z. change FloatOps.emax with 1024%Z.
  destruct a as [|a].
  - cbn [Z.of_nat SpecFloat.binary_normalize].
    destruct (binary_normalize_int (Z.of_nat b)) as (m & d & -> & _); [lia | ].
    cbn. split; [discriminate | lia].
  - rewrite ratio_Z by lia. apply Z.ltb_lt.
Qed.

(* ================================================================== *)
(** * The analyzer, against the specification *)
(* ================================================================== *)

Lemma count_words_le s :
  2 * count_words true s <= List.length s
  /\ 2 * count_words false s <= List.length s + 1.
Proof.
  induction s as [|c r [IH1 IH2]]; cbn [count_words List.length]; [lia | ].
  destruct (isSpace c); lia.
Qed.

Lemma last_rev_head {A} (f : A -> bool) u :
  last (List.map f (rev u)) false
  = match u with [] => false | c :: _ => f c end.
Proof.
  destruct u as [|c u]; [reflexivity | ].
  cbn [rev]. rewrite map_app. cbn [List.map]. apply last_last.
Qed.

(** A text that is not empty and that [trim] leaves as it is has no
    white space at its ends. *)
Lemma trimmed_stretches text :
  text <> [] -> trim text = text ->
  leading_stretch text = 0 /\ trailing_stretch text = 0.
Proof.
  intros N T. split.
  - pose proof (trimEnd_head _ (trimStart_head text)) as H.
    rewrite <- trim_ends, T in H. unfold leading_stretch.
    destruct text as [|c r]; [contradiction | ]. rewrite H. reflexivity.
  - unfold trailing_stretch. rewrite <- T at 1. unfold trim.
    rewrite last_rev_head.
    pose proof (trimStart_head (rev (trimStart text))) as H.
    destruct (trimStart (rev (trimStart text))) as [|c u]; [reflexivity | ].
    rewrite H. reflexivity.
Qed.

(** C7: [likelySpoken] is always true. On a text as the strategies pass
    it, not empty and without white space at its ends, the confidence
    is HIGH exactly when the ratio of the occurrences of the tokens [i],
    [we], [my], [our], [me], [us] in the lowercased text to the count
    of the whitespace-separated words of the text exceeds 2/100, or one
    of the conversational markers occurs in the lowercased text; it is
    MEDIUM otherwise. The quotient and the comparison are those of
    binary64, on counts of strings, which hold fewer than [2^53] code
    units. *)
Theorem analyzeTranscriptQuality_confidence toLowerCase text :
  let q := analyzeTranscriptQuality toLowerCase text in
  let occurrences := pronoun_occurrences (toLowerCase text) in
  let words := wordCount text in
  likelySpoken q = true
  /\ (text <> [] -> trim text = text ->
      string_length_ok text -> string_length_ok (toLowerCase text) ->
      (confidence q = HIGH <->
       exceeds_two_percent occurrences words
       \/ marker_occurs (toLowerCase text))
      /\ (confidence q = MEDIUM <->
          ~ (exceeds_two_percent occurrences words
             \/ marker_occurs (toLowerCase text)))).
Proof.
  intros q occurrences words. subst q.
  split; [unfold analyzeTranscriptQuality; destruct (_ || _); reflexivity | ].
  intros N T L1 L2.
  destruct (trimmed_stretches text N T) as [S1 S2].
  assert (W : totalWords text = words).
  { rewrite totalWords_wordCount, S1, S2. unfold words. lia. }
  assert (W0 : 0 < words).
  { unfold words, wordCount. unfold leading_stretch in S1.
    destruct text as [|c r]; [contradiction | ]. cbn [count_words].
    destruct (isSpace c); [discriminate | lia]. }
  assert (R : ratio_exceeds_2_percent (firstPersonPronouns toLowerCase text)
                (totalWords text) = true
              <-> exceeds_two_percent occurrences words).
  { rewrite W. unfold occurrences.
    rewrite <- firstPersonPronouns_occurrences.
    apply ratio_exceeds_2_percent_exact; [exact W0 | | ].
    - unfold firstPersonPronouns. rewrite length_matchAll.
      pose proof (count_hits_scan_le re_pronoun (toLowerCase text) 0 None) as B.
      unfold string_length_ok in L2. lia.
    - pose proof (proj2 (count_words_le text)) as B. fold (wordCount text) in B.
      fold words in B. unfold string_length_ok in L1.
      change (2 ^ 53)%Z with (2 * 2 ^ 52)%Z in L1. lia. }
  pose proof (hasConversational_occurs toLowerCase text) as C.
  unfold analyzeTranscriptQuality, firstPersonRatio_exceeds.
  destruct (ratio_exceeds_2_percent _ _);
    destruct (hasConversational toLowerCase text); cbn [orb confidence].
  - assert (X : exceeds_two_percent occurrences words
                \/ marker_occurs (toLowerCase text))
      by (left; apply R; reflexivity).
    split; (split; [intros H | intros H]);
      try discriminate; try reflexivity; [exact X | destruct (H X)].
  - assert (X : exceeds_two_percent occurrences words
                \/ marker_occurs (toLowerCase text))
      by (left; apply R; reflexivity).
    split; (split; [intros H | intros H]);
      try discriminate; try reflexivity; [exact X | destruct (H X)].
  - assert (X : exceeds_two_percent occurrences words
                \/ marker_occurs (toLowerCase text))
      by (right; apply C; reflexivity).
    split; (split; [intros H | intros H]);
      try discriminate; try reflexivity; [exact X | destruct (H X)].
  - assert (X : ~ (exceeds_two_percent occurrences words
                   \/ marker_occurs (toLowerCase text))).
    { intros [H | H]; [apply R in H | apply C in H]; discriminate. }
    split; (split; [intros H | intros H]);
      try discriminate; try reflexivity; [destruct (X H) | exact X].
Qed.

Lemma analyzeTranscriptQuality_confidence_witness :
  pronoun_occurrences (toLowerCase_ascii one_in_49) = 1
  /\ wordCount one_in_49 = 49
  /\ confidence (analyzeTranscriptQuality toLowerCase_ascii one_in_49) = HIGH
  /\ (exceeds_two_percent 1 49 \/ marker_occurs (toLowerCase_ascii one_in_49))
  /\ pronoun_occurrences (toLowerCase_ascii one_in_50) = 1
  /\ wordCount one_in_50 = 50
  /\ confidence (analyzeTranscriptQuality toLowerCase_ascii one_in_50) = MEDIUM
  /\ ~ (exceeds_two_percent 1 50 \/ marker_occurs (toLowerCase_ascii one_in_50)).
Proof.
  assert (H49 : confidence (analyzeTranscriptQuality toLowerCase_ascii one_in_49)
                = HIGH) by (vm_compute; reflexivity).
  assert (H50 : confidence (analyzeTranscriptQuality toLowerCase_ascii one_in_50)
                = MEDIUM) by (vm_compute; reflexivity).
  split; [vm_compute; reflexivity | ]. split; [vm_compute; reflexivity | ].
  split; [exact H49 | ]. split.
  { refine (proj1 (proj1 (proj2 (analyzeTranscriptQuality_confidence
                                   toLowerCase_ascii one_in_49) _ _ _ _)) H49).
    - discriminate.
    - vm_compute; reflexivity.
    - vm_compute; reflexivity.
    - vm_compute; reflexivity. }
  split; [vm_compute; reflexivity | ]. split; [vm_compute; reflexivity | ].
  split; [exact H50 | ].
  refine (proj1 (proj2 (proj2 (analyzeTranscriptQuality_confidence
                                 toLowerCase_ascii one_in_50) _ _ _ _)) H50).
  - discriminate.
  - vm_compute; reflexivity.
  - vm_compute; reflexivity.
  - vm_compute; reflexivity.
Defined.
